(** * Search-result consolidation and query translation of the resource catalog

    A shallow embedding of [functions/search_resources.py] and of the helpers
    of [shared/utils.py] it calls, followed by the properties of the
    consolidation, ranking, pagination and query-translation steps.

    Conventions of the embedding.
    - Python [str] values are Rocq strings read as ASCII text (code points
      below 128); the character classes below are the ASCII part of the
      classes Python uses.
    - A JSON-like Python value is a [value]: [None], a number, a string or a
      list of strings.  Numbers are integers; a finite floating-point
      relevance score is represented on a fixed integer scale (every finite
      double is an integer multiple of 2^-1074), which keeps order, equality
      and zero-ness, the only things the code uses of a score.  Booleans,
      NaN and nested containers are outside the model.
    - A Python [dict] with string keys whose order is not observed is a
      [gmap string value]; the insertion-ordered [latest_by_id] is an
      association list.
    - Code that can raise returns an [outcome]. *)

From Stdlib Require Import ZArith Ascii String.
From stdpp Require Import gmap strings list sorting.

Local Open Scope Z_scope.

(** ** Python built-ins used by the code *)

Module Py.

Inductive exn := TypeError | ValueError | AttributeError | BackendError.

Inductive outcome (A : Type) :=
| Ok (a : A)
| Raise (e : exn).
Global Arguments Ok {A} a.
Global Arguments Raise {A} e.

Global Instance exn_eq_dec : EqDecision exn.
Proof. solve_decision. Defined.

Global Instance outcome_eq_dec {A} `{EqDecision A} : EqDecision (outcome A).
Proof. solve_decision. Defined.

Global Instance outcome_ret : MRet outcome := fun A a => Ok a.
Global Instance outcome_bind : MBind outcome := fun A B f m =>
  match m with
  | Ok a => f a
  | Raise e => Raise e
  end.

(** *** Characters *)

Definition code (c : ascii) : N := N_of_ascii c.

Definition in_range (lo hi : N) (c : ascii) : bool :=
  ((lo <=? code c) && (code c <=? hi))%N.

(** [str.isspace] on ASCII: TAB..CR, FS..US and the space. *)
Definition is_space (c : ascii) : bool :=
  in_range 9 13 c || in_range 28 31 c || (code c =? 32)%N.

(** The C-locale white space skipped by [int()] around an ASCII literal. *)
Definition is_c_space (c : ascii) : bool :=
  in_range 9 13 c || (code c =? 32)%N.

Definition is_digit (c : ascii) : bool := in_range 48 57 c.
Definition is_upper (c : ascii) : bool := in_range 65 90 c.
Definition is_lower (c : ascii) : bool := in_range 97 122 c.

(** The class [\w] of [re] on ASCII. *)
Definition is_word (c : ascii) : bool :=
  is_digit c || is_upper c || is_lower c || (code c =? 95)%N.

Definition digit_value (c : ascii) : Z := Z.of_N (code c) - 48.

Definition lower_char (c : ascii) : ascii :=
  if is_upper c then ascii_of_N (code c + 32) else c.

Definition quote : ascii := ascii_of_N 34.
Definition backslash : ascii := ascii_of_N 92.

(** *** Strings *)

Definition chr (c : ascii) : string := String c EmptyString.

Fixpoint lstrip_with (sp : ascii → bool) (s : string) : string :=
  match s with
  | String c s' => if sp c then lstrip_with sp s' else s
  | EmptyString => EmptyString
  end.

Fixpoint rstrip_with (sp : ascii → bool) (s : string) : string :=
  match s with
  | EmptyString => EmptyString
  | String c s' =>
      match rstrip_with sp s' with
      | EmptyString => if sp c then EmptyString else chr c
      | r => String c r
      end
  end.

(** [s.strip()] *)
Definition strip (s : string) : string :=
  rstrip_with is_space (lstrip_with is_space s).

(** [s.lower()] *)
Fixpoint lower (s : string) : string :=
  match s with
  | EmptyString => EmptyString
  | String c s' => String (lower_char c) (lower s')
  end.

(** [s.split(sep)] for a one-character separator: never empty. *)
Fixpoint split (sep : ascii) (s : string) : list string :=
  match s with
  | EmptyString => [EmptyString]
  | String c s' =>
      if Ascii.eqb c sep then EmptyString :: split sep s'
      else match split sep s' with
           | w :: ws => String c w :: ws
           | [] => [chr c]
           end
  end.

Definition cons_word (w : string) (ws : list string) : list string :=
  match w with
  | EmptyString => ws
  | _ => w :: ws
  end.

(** [tokens s]: the word that starts at the head of [s] (empty when [s]
    starts with white space) and the words after it. *)
Fixpoint tokens (s : string) : string * list string :=
  match s with
  | EmptyString => (EmptyString, [])
  | String c s' =>
      let '(w, ws) := tokens s' in
      if is_space c then (EmptyString, cons_word w ws) else (String c w, ws)
  end.

(** [s.split()]: the maximal runs of characters that are not white space. *)
Definition split_ws (s : string) : list string :=
  let '(w, ws) := tokens s in cons_word w ws.

(** [sep.join(l)] *)
Fixpoint join (sep : string) (l : list string) : string :=
  match l with
  | [] => EmptyString
  | [x] => x
  | x :: l' => x +:+ sep +:+ join sep l'
  end.

(** [s.replace(c, new)] for a one-character pattern. *)
Fixpoint replace (c : ascii) (new : string) (s : string) : string :=
  match s with
  | EmptyString => EmptyString
  | String x s' =>
      if Ascii.eqb x c then new +:+ replace c new s'
      else String x (replace c new s')
  end.

(** [s[:n]] *)
Fixpoint prefix (n : nat) (s : string) : string :=
  match n, s with
  | S n', String c s' => String c (prefix n' s')
  | _, _ => EmptyString
  end.

Fixpoint str_filter (p : ascii → bool) (s : string) : string :=
  match s with
  | EmptyString => EmptyString
  | String c s' => if p c then String c (str_filter p s') else str_filter p s'
  end.

Fixpoint str_forall (p : ascii → bool) (s : string) : bool :=
  match s with
  | EmptyString => true
  | String c s' => p c && str_forall p s'
  end.

(** The characters of a string, each as a one-character string (iteration
    over a [str]). *)
Fixpoint chars (s : string) : list string :=
  match s with
  | EmptyString => []
  | String c s' => chr c :: chars s'
  end.

(** *** [int(s)] on a string *)

(** Default of [sys.get_int_max_str_digits()] (Python 3.11, and the security
    releases of the earlier versions). *)
Definition int_max_str_digits : nat := 4300.

(** [digits_from acc n s]: [s] follows a digit; [acc] is the value and [n]
    the number of the digits read so far.  One underscore is allowed
    between two digits. *)
Fixpoint digits_from (acc : Z) (n : nat) (s : string) : option (Z * nat) :=
  match s with
  | EmptyString => Some (acc, n)
  | String c s' =>
      if is_digit c then digits_from (10 * acc + digit_value c) (S n) s'
      else if Ascii.eqb c "_" then
        match s' with
        | String c' s'' =>
            if is_digit c'
            then digits_from (10 * acc + digit_value c') (S n) s''
            else None
        | EmptyString => None
        end
      else None
  end.

Definition digits (s : string) : option (Z * nat) :=
  match s with
  | String c s' => if is_digit c then digits_from (digit_value c) 1 s' else None
  | EmptyString => None
  end.

(** [int(s)]: [None] stands for [ValueError]. *)
Definition int_of_string (s : string) : option Z :=
  let t := rstrip_with is_c_space (lstrip_with is_c_space s) in
  let '(neg, body) :=
    match t with
    | String "+" r => (false, r)
    | String "-" r => (true, r)
    | _ => (false, t)
    end in
  match digits body with
  | Some (v, n) =>
      if bool_decide (n ≤ int_max_str_digits)%nat
      then Some (if neg : bool then - v else v)
      else None
  | None => None
  end.

(** *** Values *)

Inductive value :=
| VNone
| VInt (n : Z)
| VStr (s : string)
| VList (l : list string).

Global Instance value_eq_dec : EqDecision value.
Proof. solve_decision. Defined.

Definition value_to_sum (v : value) : unit + Z + string + list string :=
  match v with
  | VNone => inl (inl (inl tt))
  | VInt n => inl (inl (inr n))
  | VStr s => inl (inr s)
  | VList l => inr l
  end.

Definition value_of_sum (x : unit + Z + string + list string) : value :=
  match x with
  | inl (inl (inl _)) => VNone
  | inl (inl (inr n)) => VInt n
  | inl (inr s) => VStr s
  | inr l => VList l
  end.

Global Instance value_countable : Countable value.
Proof.
  apply (inj_countable' value_to_sum value_of_sum).
  by intros [].
Defined.

(** [bool(v)] *)
Definition truthy (v : value) : bool :=
  match v with
  | VNone => false
  | VInt n => bool_decide (n ≠ 0)
  | VStr s => bool_decide (s ≠ EmptyString)
  | VList l => bool_decide (l ≠ [])
  end.

(** Lists are not hashable: using one as a dictionary key raises. *)
Definition hash_key (v : value) : outcome value :=
  match v with
  | VList _ => Raise TypeError
  | _ => Ok v
  end.

(** Lexicographic order on sequences, from a comparison of the elements:
    the order of Python on strings, lists and tuples. *)
Fixpoint lex_compare {A} (cmp : A → A → comparison) (a b : list A) : comparison :=
  match a, b with
  | [], [] => Eq
  | [], _ :: _ => Lt
  | _ :: _, [] => Gt
  | x :: a', y :: b' =>
      match cmp x y with
      | Eq => lex_compare cmp a' b'
      | c => c
      end
  end.

Definition is_gt (c : comparison) : bool :=
  match c with Gt => true | _ => false end.

(** Tuples of integers: [a > b]. *)
Definition tuple_gt (a b : list Z) : bool := is_gt (lex_compare Z.compare a b).

(** Order of two values of one kind. *)
Definition value_compare (a b : value) : outcome comparison :=
  match a, b with
  | VInt x, VInt y => Ok (x ?= y)
  | VStr x, VStr y => Ok (String.compare x y)
  | VList x, VList y => Ok (lex_compare String.compare x y)
  | _, _ => Raise TypeError
  end.

(** [a > b] and [a < b]; values of different kinds, and [None], are not
    ordered. *)
Definition gt (a b : value) : outcome bool :=
  c ← value_compare a b; Ok (is_gt c).

Definition lt (a b : value) : outcome bool := gt b a.

(** [max(a, b)]: [b] only when it is strictly greater. *)
Definition max2 (a b : value) : outcome value :=
  g ← gt b a; Ok (if g : bool then b else a).

(** Iteration over a value. *)
Definition iter (v : value) : outcome (list string) :=
  match v with
  | VList l => Ok l
  | VStr s => Ok (chars s)
  | _ => Raise TypeError
  end.

(** [d.get(k, dflt)] *)
Definition get_or (d : gmap string value) (k : string) (dflt : value) : value :=
  default dflt (d !! k).

(** [d.get(k)] *)
Definition get (d : gmap string value) (k : string) : value := get_or d k VNone.

(** [l[start:stop]] with the indices of Python: negative ones count from the
    end, and both are clipped to the bounds. *)
Definition clip_index (len i : Z) : Z :=
  if i <? 0 then Z.max 0 (i + len) else Z.min i len.

Definition slice {A} (l : list A) (start stop : Z) : list A :=
  let len := Z.of_nat (length l) in
  let lo := clip_index len start in
  let hi := clip_index len stop in
  take (Z.to_nat (hi - lo)) (drop (Z.to_nat lo) l).

End Py.

Export Py.

(** A document: a dictionary from field names to values. *)
Abbreviation doc := (gmap string value).

(** ** [shared/utils.py] *)

Module Utils.

(** The body handed to [json.dumps]: an error object or a result page. *)
Inductive body :=
| ErrorBody (message : string)
| ResultBody (documents : list doc) (totalCount : nat).

Record response := {
  status_code : Z;
  content_type : string;
  payload : body
}.

(** [create_error_response] (utils.py, lines 12-18). *)
Definition create_error_response (status_code : Z) (message : string) : response :=
  {| status_code := status_code;
     content_type := "application/json";
     payload := ErrorBody message |}.

Definition mem_char (c : ascii) (set : string) : bool :=
  negb (str_forall (fun x => negb (Ascii.eqb x c)) set).

(** A trailing newline is ignored by [$]. *)
Fixpoint chomp (s : string) : string :=
  match s with
  | EmptyString => EmptyString
  | String c s' =>
      match s' with
      | EmptyString => if (code c =? 10)%N then EmptyString else s
      | _ => String c (chomp s')
      end
  end.

(** [re.match(r"^[\w\-\.]{1,100}$", s)] *)
Definition id_pattern (s : string) : bool :=
  let b := chomp s in
  str_forall (fun c => is_word c || mem_char c "-.") b
  && bool_decide (1 ≤ String.length b ≤ 100)%nat.

(** [sanitize_id] (utils.py, lines 21-28), on a string. *)
Definition sanitize_id (value : string) : option string :=
  let value := strip value in
  if id_pattern value then Some value else None.

(** The characters kept by [sanitize_contains_str]. *)
Definition contains_char (c : ascii) : bool :=
  is_word c || is_space c || mem_char c "-.,:;!?@#%&()[]{}<>/\=+*'"
  || Ascii.eqb c quote.

(** [sanitize_contains_str] (utils.py, lines 41-47), on a string. *)
Definition sanitize_contains_str (value : string) : string :=
  let value := strip value in
  let value := str_filter contains_char value in
  prefix 200 value.

(** The characters kept by [sanitize_must_include]. *)
Definition must_include_char (c : ascii) : bool :=
  is_word c || mem_char c ",;-.".

(** [sanitize_must_include] (utils.py, lines 50-57), on a string. *)
Definition sanitize_must_include (value : string) : string :=
  let value := strip value in
  let value := str_filter must_include_char value in
  prefix 500 value.

End Utils.

Export Utils.

(** ** [functions/search_resources.py] *)

(** *** Query translation *)

(** [escape_lucene_query] (lines 202-243): the replacements are made one
    after the other, the backslash first and the quote last. *)
Definition special_chars : list ascii :=
  [backslash; "+"; "-"; "&"; "|"; "!"; "("; ")"; "{"; "}"; "["; "]"; "^";
   "~"; "*"; "?"; ":"; "/"]%char.

Definition escape_lucene_query (query_str : string) : string :=
  let escaped :=
    foldl (fun escaped c => replace c (String backslash (chr c)) escaped)
          query_str special_chars in
  replace quote (String backslash (chr quote)) escaped.

Definition dq : string := chr quote.

(** The clause of one escaped term, as the f-string of the handler writes it
    (lines 123-130). *)
Definition term_clause (escaped_term : string) : string :=
  "(id:" +:+ dq +:+ escaped_term +:+ dq +:+ "^10 OR id:" +:+ escaped_term +:+ "*^10 OR "
  +:+ "description:" +:+ dq +:+ escaped_term +:+ dq +:+ " OR description:" +:+ escaped_term +:+ "* OR "
  +:+ "category:" +:+ dq +:+ escaped_term +:+ dq +:+ " OR category:" +:+ escaped_term +:+ "* OR "
  +:+ "architecture:" +:+ dq +:+ escaped_term +:+ dq +:+ " OR architecture:" +:+ escaped_term +:+ "* OR "
  +:+ "tags:" +:+ dq +:+ escaped_term +:+ dq +:+ " OR tags:" +:+ escaped_term +:+ "* OR "
  +:+ dq +:+ escaped_term +:+ dq +:+ " OR " +:+ escaped_term +:+ "*)".

Inductive query_type := Simple | Full.

(** The search text and the query type built from the sanitized phrase
    (lines 111-137). *)
Definition build_search_text (contains_str : string) : string * query_type :=
  if bool_decide (contains_str ≠ EmptyString) then
    let terms := split_ws contains_str in
    let term_clauses := map (fun term => term_clause (escape_lucene_query term)) terms in
    (join " AND " term_clauses, Full)
  else ("*", Simple).

Definition eq_test (field v : string) : string :=
  field +:+ " eq '" +:+ v +:+ "'".

Definition any_test (field var v : string) : string :=
  field +:+ "/any(" +:+ var +:+ ": " +:+ var +:+ " eq '" +:+ v +:+ "')".

(** [build_odata_filter] (lines 246-296).  The code of the two scalar fields
    is the same but for the field name, and so is the code of the two
    collection fields but for the field name and the range variable. *)

(** The group of a scalar field ([category], [architecture]). *)
Definition scalar_group (query_object : doc) (field : string) : outcome (list string) :=
  let values := get query_object field in
  if truthy values then
    vs ← iter values;
    match vs with
    | [v] => Ok [eq_test field v]
    | _ => Ok ["(" +:+ join " or " (map (eq_test field) vs) +:+ ")"]
    end
  else Ok [].

(** The group of a collection field ([tags], [gem5_versions]). *)
Definition collection_group (query_object : doc) (field var : string) : outcome (list string) :=
  let values := get query_object field in
  if truthy values then
    vs ← iter values;
    Ok ["(" +:+ join " or " (map (any_test field var) vs) +:+ ")"]
  else Ok [].

Definition build_odata_filter (query_object : doc) : outcome (option string) :=
  f1 ← scalar_group query_object "category";
  f2 ← scalar_group query_object "architecture";
  f3 ← collection_group query_object "tags" "t";
  f4 ← collection_group query_object "gem5_versions" "v";
  let filters := f1 ++ f2 ++ f3 ++ f4 in
  if bool_decide (filters ≠ []) then Ok (Some (join " and " filters)) else Ok None.

(** *** Version consolidation *)

(** [parse_version] (lines 299-313): [version_str.split(".")] raises on a
    value that is not a string, and [int] on a part that is not an integer
    literal; both give [(0, 0, 0)]. *)
Definition parse_version (version_str : value) : list Z :=
  match version_str with
  | VStr s => default [0; 0; 0] (mapM int_of_string (split "." s))
  | _ => [0; 0; 0]
  end.

Definition doc_version (d : doc) : list Z :=
  parse_version (get_or d "resource_version" (VStr "0.0.0")).

Definition doc_score (d : doc) : value := get_or d "score" (VInt 0).

(** An insertion-ordered dictionary: [od_set] keeps the place of a key that is
    already there and appends a new one. *)
Fixpoint od_get (k : value) (d : list (value * doc)) : option doc :=
  match d with
  | [] => None
  | (k', v) :: d' => if decide (k = k') then Some v else od_get k d'
  end.

Fixpoint od_set (k : value) (v : doc) (d : list (value * doc)) : list (value * doc) :=
  match d with
  | [] => [(k, v)]
  | (k', v') :: d' =>
      if decide (k = k') then (k, v) :: d' else (k', v') :: od_set k v d'
  end.

(** [keep_latest_versions] (lines 316-358).  The two accumulators: *)
Record accumulators := {
  latest_by_id : list (value * doc);
  max_score_by_id : gmap value value
}.

(** One turn of the loop over the results. *)
Definition consolidate (acc : accumulators) (d : doc) : outcome accumulators :=
  let resource_id := get d "id" in
  if negb (truthy resource_id) then Ok acc
  else
    let current_version := doc_version d in
    let current_score := doc_score d in
    k ← hash_key resource_id;
    score ← match max_score_by_id acc !! k with
            | None => Ok current_score
            | Some m => max2 m current_score
            end;
    let latest :=
      match od_get k (latest_by_id acc) with
      | None => od_set k d (latest_by_id acc)
      | Some existing =>
          if tuple_gt current_version (doc_version existing)
          then od_set k d (latest_by_id acc)
          else latest_by_id acc
      end in
    Ok {| latest_by_id := latest;
          max_score_by_id := <[k := score]> (max_score_by_id acc) |}.

Fixpoint consolidate_all (acc : accumulators) (results : list doc) : outcome accumulators :=
  match results with
  | [] => Ok acc
  | d :: rest => acc' ← consolidate acc d; consolidate_all acc' rest
  end.

(** The last loop: the score of each representative is overwritten. *)
Definition with_score (max_score_by_id : gmap value value) (entry : value * doc) : doc :=
  <["score" := default (VInt 0) (max_score_by_id !! entry.1)]> entry.2.

Definition keep_latest_versions (results : list doc) : outcome (list doc) :=
  acc ← consolidate_all {| latest_by_id := []; max_score_by_id := ∅ |} results;
  Ok (map (with_score (max_score_by_id acc)) (latest_by_id acc)).

(** *** Ranking *)

(** [sorted(results, key=..., reverse=...)]: the keys are computed first, from
    left to right; the decorated list is sorted with [<] alone by a stable
    sort; a reverse sort reverses the list before and after, which keeps
    documents of equal keys in their input order.  A comparison that raises
    aborts the sort: values of one kind are always ordered and values of two
    kinds (or [None]) never are, so on two documents or more any sort that
    compares raises exactly when the keys are not all of one ordered kind. *)
Fixpoint insert_sorted (x : value * doc) (l : list (value * doc))
  : outcome (list (value * doc)) :=
  match l with
  | [] => Ok [x]
  | y :: l' =>
      b ← lt y.1 x.1;
      if b : bool then r ← insert_sorted x l'; Ok (y :: r)
      else Ok (x :: y :: l')
  end.

Fixpoint stable_sort (l : list (value * doc)) : outcome (list (value * doc)) :=
  match l with
  | [] => Ok []
  | x :: l' => s ← stable_sort l'; insert_sorted x s
  end.

Definition decorate (key : doc → outcome value) (d : doc) : outcome (value * doc) :=
  k ← key d; Ok (k, d).

Definition sorted (key : doc → outcome value) (descending : bool) (results : list doc)
  : outcome (list doc) :=
  keyed ← mapM (decorate key) results;
  s ← stable_sort (if descending then reverse keyed else keyed);
  Ok ((if descending then reverse s else s).*2).

(** [max(l, default=dflt)] on strings: the first of the greatest elements. *)
Definition max_of (l : list string) (dflt : string) : string :=
  match l with
  | [] => dflt
  | x :: l' => foldl (fun m y => if is_gt (String.compare y m) then y else m) x l'
  end.

(** [apply_sorting] (lines 361-387): the four keys and the dispatch. *)
Definition date_key (x : doc) : outcome value := Ok (get_or x "date" (VStr "")).

Definition id_key (x : doc) : outcome value :=
  match get_or x "id" (VStr "") with
  | VStr s => Ok (VStr (lower s))
  | _ => Raise AttributeError
  end.

Definition version_key (x : doc) : outcome value :=
  vs ← iter (get_or x "gem5_versions" (VList ["0"]));
  Ok (VStr (max_of vs "0")).

Definition score_key (x : doc) : outcome value := Ok (doc_score x).

Definition apply_sorting (results : list doc) (sort_param : value) : outcome (list doc) :=
  if decide (sort_param = VStr "date") then sorted date_key true results
  else if decide (sort_param = VStr "name" ∨ sort_param = VStr "id_asc")
       then sorted id_key false results
  else if decide (sort_param = VStr "id_desc") then sorted id_key true results
  else if decide (sort_param = VStr "version") then sorted version_key true results
  else sorted score_key true results.

(** *** The handler *)

(** The keyword arguments [search_text], [filter], [include_total_count],
    [top] and [query_type] of [search_client.search]. *)
Record search_call := {
  call_search_text : string;
  call_filter : option string;
  call_include_total_count : bool;
  call_top : Z;
  call_query_type : query_type
}.

(** [int(req.params.get(name, dflt))] *)
Definition int_param (params : gmap string string) (name : string) (dflt : Z) : option Z :=
  match params !! name with
  | Some s => int_of_string s
  | None => Some dflt
  end.

(** The pagination parameters (lines 58-73): an error response or the page
    and the page size. *)
Definition parse_pagination (params : gmap string string) : response + Z * Z :=
  match int_param params "page" 1, int_param params "page-size" 10 with
  | Some page, Some page_size =>
      if bool_decide (page < 1) then
        inl (create_error_response 400 "Invalid pagination parameters: page must be >=1.")
      else if bool_decide (page_size < 1 ∨ page_size > 100) then
        inl (create_error_response 400
               "Invalid pagination parameters: page-size must be between 1 and 100.")
      else inr (page, page_size)
  | _, _ => inl (create_error_response 400 "Invalid pagination parameters")
  end.

(** [all(values)] on the results of [sanitize_id]. *)
Definition all_truthy (values : list (option string)) : bool :=
  forallb (fun v => match v with
                    | Some s => bool_decide (s ≠ EmptyString)
                    | None => false
                    end) values.

(** The loop over the groups of the must-include parameter (lines 83-99). *)
Fixpoint parse_groups (groups : list string) (query_object : doc) : response + doc :=
  match groups with
  | [] => inr query_object
  | group :: rest =>
      if bool_decide (group = EmptyString) then parse_groups rest query_object
      else
        let parts := split "," group in
        if bool_decide (length parts < 2)%nat then
          inl (create_error_response 400 "Invalid filter format")
        else
          let field := hd EmptyString parts in
          let values := map sanitize_id (tail parts) in
          if negb (all_truthy values) then
            inl (create_error_response 400 "Invalid filter value format")
          else parse_groups rest (<[field := VList (omap id values)]> query_object)
  end.

Definition parse_must_include (must_include : string) (query_object : doc) : response + doc :=
  if bool_decide (must_include ≠ EmptyString)
  then parse_groups (split ";" must_include) query_object
  else inr query_object.

Definition sort_tokens : list string := ["date"; "name"; "version"; "id_asc"; "id_desc"].

Definition keys_to_remove : list string :=
  ["@search.score"; "@search.highlights"; "@search.reranker_score"].

(** The clean-up of one document of the page (lines 175-184). *)
Definition clean_up (resource : doc) : doc :=
  <["database" := VStr "gem5-vision"]>
    (foldl (fun r key => delete key r) resource keys_to_remove).

(** [sorted_resources[start_idx:end_idx]] (lines 170-172). *)
Definition paginate (sorted_resources : list doc) (page page_size : Z) : list doc :=
  let start_idx := (page - 1) * page_size in
  let end_idx := start_idx + page_size in
  slice sorted_resources start_idx end_idx.

Definition internal_error : response :=
  create_error_response 500 "Internal server error".

Section handler.

(** [search_client.search], with the iteration over what it returns: the
    raw documents, or an exception. *)
Variable search : search_call → outcome (list doc).

(** Consolidation, ranking and pagination of the raw results. *)
Definition render (results : list doc) (sort_param : value) (page page_size : Z)
  : outcome response :=
  let all_results :=
    map (fun result => <["score" := get_or result "@search.score" (VInt 0)]> result)
        results in
  unique_resources ← keep_latest_versions all_results;
  sorted_resources ← apply_sorting unique_resources sort_param;
  let total_count := length sorted_resources in
  let paginated_results := paginate sorted_resources page page_size in
  Ok {| status_code := 200;
        content_type := "application/json";
        payload := ResultBody (map clean_up paginated_results) total_count |}.

(** The handler (lines 22-199): the response and the calls made to the
    search backend.  Nothing raises inside the inner [try] of the filter
    parsing; an exception anywhere else gives the response 500. *)
Definition search_resources (params : gmap string string) : response * list search_call :=
  let contains_str :=
    sanitize_contains_str (strip (default EmptyString (params !! "contains-str"))) in
  let must_include :=
    sanitize_must_include (default EmptyString (params !! "must-include")) in
  let sort_param :=
    match params !! "sort" with
    | Some s =>
        if bool_decide (s ≠ EmptyString)
        then Some (if bool_decide (s ∈ sort_tokens) then s else "default")
        else Some s
    | None => None
    end in
  match parse_pagination params with
  | inl r => (r, [])
  | inr (page, page_size) =>
      let query_object : doc :=
        {[ "query" := VStr contains_str;
           "sort" := VStr (match sort_param with
                           | Some s =>
                               if bool_decide (s ≠ EmptyString) then s else "default"
                           | None => "default"
                           end) ]} in
      match parse_must_include must_include query_object with
      | inl r => (r, [])
      | inr query_object =>
          match build_odata_filter query_object with
          | Raise _ => (internal_error, [])
          | Ok odata_filter =>
              let '(text, qtype) := build_search_text contains_str in
              let call := {| call_search_text := text;
                             call_filter := odata_filter;
                             call_include_total_count := true;
                             call_top := 1000;
                             call_query_type := qtype |} in
              match results ← search call;
                    render results (get_or query_object "sort" (VStr "default"))
                           page page_size with
              | Ok r => (r, [call])
              | Raise _ => (internal_error, [call])
              end
          end
      end
  end.

End handler.

(** ** [shared/utils.py]: versions *)

Module SharedUtils.



(** [parse_version] of utils.py (lines 69-74): the fallback is [(0,)]. *)
Definition parse_version (version_str : value) : list Z :=
  match version_str with
  | VStr s => default [0] (mapM int_of_string (split "." s))
  | _ => [0]
  end.

Definition resource_version (resource : doc) : list Z :=
  parse_version (get_or resource "resource_version" (VStr "0")).

(** One turn of the loop of [get_latest_versions] (utils.py, lines 77-100). *)
Definition select (latest_by_id : list (value * doc)) (resource : doc)
  : outcome (list (value * doc)) :=
  let resource_id := get resource "id" in
  if negb (truthy resource_id) then Ok latest_by_id
  else
    let current_version := resource_version resource in
    k ← hash_key resource_id;
    match od_get k latest_by_id with
    | None => Ok (od_set k resource latest_by_id)
    | Some existing =>
        if tuple_gt current_version (resource_version existing)
        then Ok (od_set k resource latest_by_id)
        else Ok latest_by_id
    end.

Fixpoint select_all (latest_by_id : list (value * doc)) (resources : list doc)
  : outcome (list (value * doc)) :=
  match resources with
  | [] => Ok latest_by_id
  | resource :: rest => latest ← select latest_by_id resource; select_all latest rest
  end.

Definition get_latest_versions (resources : list doc) : outcome (list doc) :=
  latest_by_id ← select_all [] resources; Ok latest_by_id.*2.

End SharedUtils.

(** ** [functions/list_all_resources.py] *)

Module ListAll.




(** The prefixes of the version from its second part on (lines 57-60):
    [".".join(version_parts[:i])] for [i] in [range(2, len(version_parts) + 1)]. *)
Definition version_prefixes (gem5_version : string) : list string :=
  let version_parts := split "." gem5_version in
  map (fun i => join "." (take i version_parts))
      (seq 2 (length version_parts + 1 - 2)).

Section handler.

(** [list(collection.find({"gem5_versions": {"$in": prefixes}},
    RESOURCE_FIELDS))], as a function of the prefixes: the resources found,
    or an exception.  The collection and the projection [RESOURCE_FIELDS]
    belong to the database module. *)
Variable find : list string → outcome (list doc).


End handler.

End ListAll.

(** ** Vocabulary of the statements *)

(** The laws of a three-way comparison that decides a total order. *)
Record cmp_laws {A} (cmp : A → A → comparison) : Prop := {
  cmp_eq x y : cmp x y = Eq → x = y;
  cmp_refl x : cmp x x = Eq;
  cmp_antisym x y : cmp y x = CompOpp (cmp x y);
  cmp_trans x y z : cmp x y = Lt → cmp y z = Lt → cmp x z = Lt
}.

(** Tuples of integers: [a <= b], that is, not [a > b]. *)
Definition tuple_le (a b : list Z) : Prop := tuple_gt a b = false.

(** [a <= b] on values: the two are equal, or ordered with [a] not the
    greater. *)
Definition value_le (a b : value) : Prop := a = b ∨ gt a b = Ok false.

(** The documents of [results] that carry the identifier [k]. *)
Definition candidates (k : value) (results : list doc) : list doc :=
  filter (fun d => get d "id" = k) results.

(** [e] is the first of the documents of [l] with the greatest version: the
    ones before it are strictly older, the ones after it are not newer. *)
Definition first_latest (e : doc) (l : list doc) : Prop :=
  ∃ l1 l2, l = l1 ++ e :: l2
    ∧ (∀ c, c ∈ l1 → tuple_gt (doc_version e) (doc_version c) = true)
    ∧ (∀ c, c ∈ l2 → tuple_le (doc_version c) (doc_version e)).

(** [m] is the greatest of the scores of [l]. *)
Definition max_score (m : value) (l : list doc) : Prop :=
  (∃ c, c ∈ l ∧ doc_score c = m) ∧ ∀ c, c ∈ l → value_le (doc_score c) m.

(** What the accumulators hold once the documents [seen] are processed. *)
Record consolidated (seen : list doc) (acc : accumulators) : Prop := {
  cons_nodup : NoDup (latest_by_id acc).*1;
  cons_key k e : (k, e) ∈ latest_by_id acc → get e "id" = k ∧ truthy k = true;
  cons_latest k e : (k, e) ∈ latest_by_id acc → first_latest e (candidates k seen);
  cons_present d : d ∈ seen → truthy (get d "id") = true →
                   get d "id" ∈ (latest_by_id acc).*1;
  cons_score k e : (k, e) ∈ latest_by_id acc →
                   ∃ m, max_score_by_id acc !! k = Some m ∧ max_score m (candidates k seen);
  cons_dom k : is_Some (max_score_by_id acc !! k) → k ∈ (latest_by_id acc).*1
}.

(** The version string of a document is a well-formed dotted integer. *)
Definition parses (version_str : value) : bool :=
  match version_str with
  | VStr s => bool_decide (is_Some (mapM int_of_string (split "." s)))
  | _ => false
  end.

(** Documents on which consolidation cannot raise: the identifier is not a
    list and the score is a number. *)
Definition well_typed (d : doc) : bool :=
  match get d "id", doc_score d with
  | VList _, _ => false
  | _, VInt _ => true
  | _, _ => false
  end.

(** The documents and the count of a result page. *)
Definition documents_of (r : response) : list doc :=
  match payload r with
  | ResultBody documents _ => documents
  | ErrorBody _ => []
  end.

Definition total_count_of (r : response) : option nat :=
  match payload r with
  | ResultBody _ totalCount => Some totalCount
  | ErrorBody _ => None
  end.

(** Consolidation followed by ranking, as [render] chains them. *)
Definition ranked (results : list doc) (sort_param : value) : outcome (list doc) :=
  unique_resources ←
    keep_latest_versions
      (map (fun result => <["score" := get_or result "@search.score" (VInt 0)]> result)
           results);
  apply_sorting unique_resources sort_param.

(** *** Query translation *)

(** The fields a term is searched in. *)
Definition searched_fields : list string :=
  ["id"; "description"; "category"; "architecture"; "tags"].

(** The weight of a match: ten on [id], the default weight of one (none
    written) on the other fields. *)
Definition boost (field : string) : string :=
  if bool_decide (field = "id") then "^10" else "".

Definition exact_match (field term : string) : string :=
  field +:+ ":" +:+ dq +:+ term +:+ dq +:+ boost field.

Definition prefix_match (field term : string) : string :=
  field +:+ ":" +:+ term +:+ "*" +:+ boost field.

(** An exact-phrase match and a prefix match in each of the fields. *)
Definition field_matches (term : string) : list string :=
  concat ((fun field => [exact_match field term; prefix_match field term])
            <$> searched_fields).

(** The clause as the specification words it: the matches of the five
    fields and nothing else. *)
Definition scoped_clause (term : string) : string :=
  "(" +:+ join " OR " (field_matches term) +:+ ")".

(** An exact-phrase match and a prefix match that name no field. *)
Definition unscoped_matches (term : string) : list string :=
  [dq +:+ term +:+ dq; term +:+ "*"].

(** The characters that [escape_lucene_query] escapes. *)
Definition reserved (c : ascii) : bool :=
  bool_decide (c ∈ special_chars) || Ascii.eqb c quote.

(** Escaping character by character: a backslash before each character
    that satisfies [p]. *)
Fixpoint escape_with (p : ascii → bool) (s : string) : string :=
  match s with
  | EmptyString => EmptyString
  | String c s' =>
      if p c then String backslash (String c (escape_with p s'))
      else String c (escape_with p s')
  end.

(** A text in which every backslash is followed by a reserved character and
    no reserved character stands without a backslash before it. *)
Fixpoint well_escaped (s : string) : bool :=
  match s with
  | EmptyString => true
  | String c s' =>
      if Ascii.eqb c backslash then
        match s' with
        | String c' s'' => reserved c' && well_escaped s''
        | EmptyString => false
        end
      else negb (reserved c) && well_escaped s'
  end.

(** *** Ranking *)

(** [a] may stand before [b] in ascending order: [b < a] is false. *)
Definition key_le (a b : value) : Prop := lt b a = Ok false.

Definition pair_le (a b : value * doc) : Prop := key_le a.1 b.1.

(** Two documents in the order of the policy: both keys are defined, and the
    second is not smaller (ascending) or not greater (descending). *)
Definition ordered_by (key : doc → outcome value) (descending : bool) (a b : doc) : Prop :=
  ∃ ka kb, key a = Ok ka ∧ key b = Ok kb
           ∧ if descending then key_le kb ka else key_le ka kb.

(** [out] is [results] sorted by [key], stably: a permutation, in order, in
    which the documents of each key keep the order they have in [results]. *)
Definition sorted_by (key : doc → outcome value) (descending : bool)
    (out results : list doc) : Prop :=
  out ≡ₚ results
  ∧ Forall (λ d, ∃ k, key d = Ok k) out
  ∧ Sorted (ordered_by key descending) out
  ∧ ∀ k, filter (λ d, key d = Ok k) out = filter (λ d, key d = Ok k) results.

(** The kinds of values that are ordered. *)
Inductive kind := KInt | KStr | KList.

Definition kind_of (v : value) : option kind :=
  match v with
  | VNone => None
  | VInt _ => Some KInt
  | VStr _ => Some KStr
  | VList _ => Some KList
  end.

(** The keys of all the documents are defined and of one ordered kind. *)
Definition comparable (key : doc → outcome value) (results : list doc) : Prop :=
  ∃ kd, Forall (λ d, ∃ k, key d = Ok k ∧ kind_of k = Some kd) results.

(** The identifier of a document, lower-cased, when it is a string. *)
Definition lower_id (d : doc) : option string :=
  match get_or d "id" (VStr "") with
  | VStr s => Some (lower s)
  | _ => None
  end.

Definition string_le (a b : string) : Prop := String.compare a b ≠ Gt.

(** The sort tokens that name a policy of their own. *)
Definition policy_tokens : list value :=
  [VStr "date"; VStr "name"; VStr "id_asc"; VStr "id_desc"; VStr "version"].

(** The table of the sort policies, as the specification gives it: the key
    and whether the order is descending. *)
Definition policy_table : list (string * ((doc → outcome value) * bool)) :=
  [("date", (date_key, true));
   ("name", (id_key, false));
   ("id_asc", (id_key, false));
   ("id_desc", (id_key, true));
   ("version", (version_key, true));
   ("default", (score_key, true))].

Fixpoint assoc {A} (k : string) (l : list (string * A)) : option A :=
  match l with
  | [] => None
  | (k', v) :: l' => if decide (k = k') then Some v else assoc k l'
  end.

(** The policy of a sort parameter; anything that is not in the table is the
    default policy. *)
Definition policy (sort_param : value) : (doc → outcome value) * bool :=
  match sort_param with
  | VStr token => default (score_key, true) (assoc token policy_table)
  | _ => (score_key, true)
  end.

(** [m] is the greatest string of [l], or [dflt] when [l] is empty. *)
Definition greatest_or (dflt : string) (l : list string) (m : string) : Prop :=
  match l with
  | [] => m = dflt
  | _ => m ∈ l ∧ ∀ x, x ∈ l → string_le x m
  end.

(** *** Request validation *)


(** The groups of the sanitized must-include parameter. *)
Definition must_include_groups (params : gmap string string) : list string :=
  let must_include :=
    sanitize_must_include (default EmptyString (params !! "must-include")) in
  if bool_decide (must_include ≠ EmptyString) then split ";" must_include else [].



(** A clause that passes the validation of the handler. *)
Definition well_formed_clause (clause : string) : Prop :=
  clause ≠ EmptyString
  ∧ (2 ≤ length (split "," clause))%nat
  ∧ ∀ v, v ∈ tail (split "," clause) → sanitize_id v ≠ None.

(** The fields [build_odata_filter] reads. *)
Definition filter_fields : list string :=
  ["category"; "architecture"; "tags"; "gem5_versions"].

Definition clause_field (clause : string) : string :=
  hd EmptyString (split "," clause).

(** Two query objects with the same filter entries. *)
Definition same_filters (q1 q2 : doc) : Prop :=
  ∀ field, field ∈ filter_fields → q1 !! field = q2 !! field.

(** *** Strings *)

(** The first and the last character of a string are not in [sp]. *)
Definition head_free (sp : ascii → bool) (s : string) : bool :=
  match s with
  | EmptyString => true
  | String c _ => negb (sp c)
  end.

Fixpoint last_free (sp : ascii → bool) (s : string) : bool :=
  match s with
  | EmptyString => true
  | String c EmptyString => negb (sp c)
  | String _ s' => last_free sp s'
  end.

(** A string of ASCII characters: on these the classes [is_word] and
    [is_space] are the classes [\w] and white space of Python, which are
    wider on other characters. *)
Definition ascii_only (s : string) : bool :=
  str_forall (λ c, (code c <? 128)%N) s.

(** The characters of an identifier and of a version. *)
Definition id_char (c : ascii) : bool := is_word c || mem_char c "-.".


(** The entries of the filter fields are absent or lists: what the handler
    hands to [build_odata_filter]. *)
Definition filter_lists (q : doc) : Prop :=
  ∀ field, field ∈ filter_fields →
    q !! field = None ∨ ∃ values, q !! field = Some (VList values).

(** Two query objects that differ at most in the entry of [f]. *)
Definition same_but (f : string) (q1 q2 : doc) : Prop :=
  ∀ field, field ≠ f → q1 !! field = q2 !! field.

(** Two query objects that differ at most in their [sort] entry. *)
Definition same_but_sort (q1 q2 : doc) : Prop :=
  ∀ field, field ≠ "sort" → q1 !! field = q2 !! field.

(** The number of occurrences of a character. *)
Fixpoint count_char (c : ascii) (s : string) : nat :=
  match s with
  | EmptyString => 0
  | String x s' => (if Ascii.eqb x c then 1 else 0) + count_char c s'
  end.


(** *** Selection of the latest versions *)

(** [first_latest] for any reading of the version of a document: [e] is the
    first of the documents of [l] with the greatest version. *)
Definition first_newest (version : doc → list Z) (e : doc) (l : list doc) : Prop :=
  ∃ l1 l2, l = l1 ++ e :: l2
    ∧ (∀ c, c ∈ l1 → tuple_gt (version e) (version c) = true)
    ∧ (∀ c, c ∈ l2 → tuple_le (version c) (version e)).

(** The values of a list, each once, in the order of their first
    occurrence. *)
Fixpoint distinct (l : list value) : list value :=
  match l with
  | [] => []
  | x :: l' => x :: filter (λ y, y ≠ x) (distinct l')
  end.

Definition ids (results : list doc) : list value := (λ d, get d "id") <$> results.

(** The truthy identifiers of the documents, in the order they first
    appear. *)
Definition ids_in_order (results : list doc) : list value :=
  distinct (filter (λ k, truthy k = true) (ids results)).

(** The values that can be keys of a dictionary. *)
Definition hashable (v : value) : bool :=
  match v with
  | VList _ => false
  | _ => true
  end.

(** A document that the consolidation loops do not skip and on which they
    do not raise. *)
Definition keyed (d : doc) : Prop :=
  truthy (get d "id") = true ∧ hashable (get d "id") = true.

(** The identifier of the document is falsy, so that the consolidation loops
    skip it, or can be the key of a dictionary. *)
Definition keyable (d : doc) : Prop :=
  truthy (get d "id") = true → hashable (get d "id") = true.

(** Documents with pairwise distinct identifiers, truthy and hashable, that
    carry a score. *)
Definition settled (l : list doc) : Prop :=
  NoDup (ids l)
  ∧ Forall (λ d, truthy (get d "id") = true ∧ hashable (get d "id") = true
                 ∧ is_Some (d !! "score")) l.

(** The document has a version string that parses. *)
Definition versioned (d : doc) : Prop := parses (get d "resource_version") = true.

(** [o] is [e] with its score overwritten. *)
Definition rescored (o e : doc) : Prop := ∃ m, o = <["score" := m]> e.

(** What [get_latest_versions] holds once the resources [seen] are
    processed. *)
Record selected (seen : list doc) (latest : list (value * doc)) : Prop := {
  sel_keys : latest.*1 = ids_in_order seen;
  sel_key k e : (k, e) ∈ latest → get e "id" = k ∧ truthy k = true;
  sel_latest k e : (k, e) ∈ latest →
                   first_newest SharedUtils.resource_version e (candidates k seen)
}.

(** ** Example data *)

Definition mk_doc (id version : string) (score : Z) : doc :=
  {[ "id" := VStr id; "resource_version" := VStr version; "score" := VInt score ]}.

(** A raw document of the backend, with its search score. *)
Definition mk_raw (id version : string) (score : Z) : doc :=
  {[ "id" := VStr id; "resource_version" := VStr version;
     "@search.score" := VInt score ]}.

(** A backend that answers every query with the same three documents. *)
Definition fixed_backend (call : search_call) : outcome (list doc) :=
  Ok [mk_raw "b" "1.0.0" 5; mk_raw "A" "2.0.0" 2; mk_raw "b" "1.0.1" 7].

(** Two stored versions of one resource; the older one matches better. *)
Definition two_versions : list doc :=
  [mk_doc "R1" "1.0.0" 5; mk_doc "R1" "2.0.0" 2].

(** Two identifiers, the second document of the first one after the
    document of the second one. *)
Definition interleaved : list doc :=
  [mk_doc "R1" "1.0.0" 1; mk_doc "R2" "1.0.0" 1; mk_doc "R1" "2.0.0" 1].

(** A well-formed version [0] followed by a malformed one. *)
Definition zero_then_bad : list doc :=
  [mk_doc "R1" "0" 1; mk_doc "R1" "bad" 1].

(** A malformed version followed by the well-formed [0.0.0]. *)
Definition bad_then_zeros : list doc :=
  [mk_doc "R1" "bad" 1; mk_doc "R1" "0.0.0" 1].

(** Three documents whose identifiers differ in case. *)
Definition mixed_case_ids : list doc :=
  [mk_doc "beta" "1.0.0" 1; mk_doc "Alpha" "1.0.0" 2; mk_doc "alpha2" "1.0.0" 3].

(** A document whose identifier is the empty string, between two others. *)
Definition with_empty_id : list doc :=
  [mk_doc "R1" "1.0.0" 1; mk_doc "" "9.0.0" 9; mk_doc "R2" "1.0.0" 2].

(** ** Orders *)

Section lex.
Context {A} (cmp : A → A → comparison) (laws : cmp_laws cmp).

Lemma lex_compare_eq a b : lex_compare cmp a b = Eq → a = b.
Proof.
  revert b; induction a as [|x a IH]; intros [|y b]; simpl; try done.
  destruct (cmp x y) eqn:E; try done.
  intros H. apply (cmp_eq _ laws) in E. apply IH in H. by subst.
Qed.

Lemma lex_compare_refl a : lex_compare cmp a a = Eq.
Proof. induction a as [|x a IH]; simpl; [done|]. by rewrite (cmp_refl _ laws). Qed.

Lemma lex_compare_antisym a b :
  lex_compare cmp b a = CompOpp (lex_compare cmp a b).
Proof.
  revert b; induction a as [|x a IH]; intros [|y b]; simpl; try done.
  rewrite (cmp_antisym _ laws x y). destruct (cmp x y); simpl; auto.
Qed.

Lemma lex_compare_trans a b c :
  lex_compare cmp a b = Lt → lex_compare cmp b c = Lt → lex_compare cmp a c = Lt.
Proof.
  revert b c; induction a as [|x a IH]; intros [|y b] [|z c]; simpl; try done.
  destruct (cmp x y) eqn:Exy; try done; destruct (cmp y z) eqn:Eyz; try done.
  - apply (cmp_eq _ laws) in Exy, Eyz. subst. rewrite (cmp_refl _ laws). apply IH.
  - apply (cmp_eq _ laws) in Exy. subst. by rewrite Eyz.
  - apply (cmp_eq _ laws) in Eyz. subst. by rewrite Exy.
  - by rewrite (cmp_trans _ laws x y z Exy Eyz).
Qed.

Lemma lex_laws : cmp_laws (lex_compare cmp).
Proof.
  split; [apply lex_compare_eq | apply lex_compare_refl
       | intros; apply lex_compare_antisym | apply lex_compare_trans].
Qed.
End lex.

Section laws.
Context {A} (cmp : A → A → comparison) (laws : cmp_laws cmp).

Lemma cmp_gt_lt x y : cmp x y = Gt ↔ cmp y x = Lt.
Proof. rewrite (cmp_antisym _ laws x y). destruct (cmp x y); simpl; split; congruence. Qed.

Lemma cmp_not_gt_trans x y z : cmp x y ≠ Gt → cmp y z ≠ Gt → cmp x z ≠ Gt.
Proof.
  intros Hxy Hyz Hxz. apply cmp_gt_lt in Hxz.
  destruct (cmp x y) eqn:Exy; [| |done].
  - apply (cmp_eq _ laws) in Exy. subst. apply Hyz. by apply cmp_gt_lt.
  - destruct (cmp y z) eqn:Eyz; [| |done].
  + apply (cmp_eq _ laws) in Eyz. subst. apply cmp_gt_lt in Hxz. congruence.
  + pose proof (cmp_trans _ laws _ _ _ Hxz Exy) as H.
    apply cmp_gt_lt in H. congruence.
Qed.

Lemma cmp_gt_not_gt x y z : cmp x y = Gt → cmp z y ≠ Gt → cmp x z = Gt.
Proof.
  intros Hxy Hzy. destruct (cmp x z) eqn:Exz; [| |done].
  - apply (cmp_eq _ laws) in Exz. by subst.
  - exfalso. apply (cmp_not_gt_trans x z y); [congruence|done|done].
Qed.

Lemma cmp_gt_trans x y z : cmp x y = Gt → cmp y z = Gt → cmp x z = Gt.
Proof.
  intros Hxy Hyz. apply cmp_gt_lt. apply cmp_gt_lt in Hxy, Hyz.
  by apply (cmp_trans _ laws z y x).
Qed.

Lemma cmp_gt_irrefl x : cmp x x ≠ Gt.
Proof. by rewrite (cmp_refl _ laws). Qed.
End laws.

Lemma Z_compare_laws : cmp_laws Z.compare.
Proof.
  split.
  - intros x y. apply Z.compare_eq.
  - apply Z.compare_refl.
  - intros x y. apply Z.compare_antisym.
  - intros x y z. rewrite !Z.compare_lt_iff. lia.
Qed.

Lemma ascii_compare_laws : cmp_laws Ascii.compare.
Proof.
  split.
  - intros x y. apply Ascii.compare_eq_iff.
  - intros x. unfold Ascii.compare. apply N.compare_refl.
  - intros x y. apply Ascii.compare_antisym.
  - intros x y z. unfold Ascii.compare. rewrite !N.compare_lt_iff. lia.
Qed.

Lemma string_compare_lex s t :
  String.compare s t = lex_compare Ascii.compare (list_ascii_of_string s) (list_ascii_of_string t).
Proof.
  revert t; induction s as [|c s IH]; intros [|c' t]; simpl; try done.
  rewrite IH. by destruct (Ascii.compare c c').
Qed.

Lemma list_ascii_of_string_inj s t :
  list_ascii_of_string s = list_ascii_of_string t → s = t.
Proof.
  intros H. rewrite <- (string_of_list_ascii_of_string s), H.
  apply string_of_list_ascii_of_string.
Qed.

Lemma string_compare_laws : cmp_laws String.compare.
Proof.
  pose proof (lex_laws _ ascii_compare_laws) as L.
  split.
  - intros x y. rewrite string_compare_lex. intros H.
    by apply list_ascii_of_string_inj, (cmp_eq _ L).
  - intros x. rewrite string_compare_lex. apply (cmp_refl _ L).
  - intros x y. rewrite !string_compare_lex. apply (cmp_antisym _ L).
  - intros x y z. rewrite !string_compare_lex. apply (cmp_trans _ L).
Qed.

Lemma tuple_compare_laws : cmp_laws (lex_compare Z.compare).
Proof. apply lex_laws, Z_compare_laws. Qed.

Lemma strings_compare_laws : cmp_laws (lex_compare String.compare).
Proof. apply lex_laws, string_compare_laws. Qed.

Ltac simpl_outcome :=
  repeat (unfold mbind, mret, outcome_bind, outcome_ret in *; simpl in * ).

Section is_gt_laws.
Context {A} (cmp : A → A → comparison) (laws : cmp_laws cmp).

Lemma is_gt_antisym s m : is_gt (cmp s m) = true → is_gt (cmp m s) = false.
Proof.
  rewrite (cmp_antisym _ laws s m). by destruct (cmp s m).
Qed.

Lemma is_gt_le_gt c m s :
  is_gt (cmp c m) = false → is_gt (cmp s m) = true → is_gt (cmp c s) = false.
Proof.
  intros Hcm Hsm.
  assert (cmp s c = Gt) as H.
  { apply (cmp_gt_not_gt _ laws s m c).
  - by destruct (cmp s m).
  - by destruct (cmp c m). }
  apply (cmp_gt_lt _ laws) in H. by rewrite H.
Qed.

Lemma is_gt_trans a b c :
  is_gt (cmp a b) = true → is_gt (cmp b c) = true → is_gt (cmp a c) = true.
Proof.
  intros Hab Hbc.
  rewrite (cmp_gt_trans _ laws a b c); [done| |].
  - by destruct (cmp a b).
  - by destruct (cmp b c).
Qed.

Lemma is_gt_irrefl a : is_gt (cmp a a) = false.
Proof. by rewrite (cmp_refl _ laws). Qed.
End is_gt_laws.

(** *** The order of values *)

Lemma gt_true_le s m : gt s m = Ok true → value_le m s.
Proof.
  intros H. right. unfold gt in *.
  destruct s, m; simpl_outcome; try done; f_equal; injection H as H.
  - by apply (is_gt_antisym _ Z_compare_laws).
  - by apply (is_gt_antisym _ string_compare_laws).
  - by apply (is_gt_antisym _ strings_compare_laws).
Qed.

Lemma value_le_gt c m s : value_le c m → gt s m = Ok true → value_le c s.
Proof.
  intros [->|Hcm] Hsm; [by apply gt_true_le|]. right. unfold gt in *.
  destruct c, m, s; simpl_outcome; try done; f_equal;
    injection Hcm as Hcm; injection Hsm as Hsm.
  - exact (is_gt_le_gt _ Z_compare_laws _ _ _ Hcm Hsm).
  - exact (is_gt_le_gt _ string_compare_laws _ _ _ Hcm Hsm).
  - exact (is_gt_le_gt _ strings_compare_laws _ _ _ Hcm Hsm).
Qed.

Lemma value_le_int_iff (x y : Z) : value_le (VInt x) (VInt y) ↔ x ≤ y.
Proof.
  unfold value_le, gt. simpl_outcome. split.
  - intros [H|H]; [injection H as H; lia|].
    injection H as H. destruct (x ?= y) eqn:E; try done.
    + apply Z.compare_eq in E. lia.
    + change (x < y) in E. lia.
  - intros H. right. f_equal. by destruct (x ?= y) eqn:E.
Qed.

(** *** Tuples of integers *)

Lemma tuple_gt_trans a b c :
  tuple_gt a b = true → tuple_gt b c = true → tuple_gt a c = true.
Proof. apply (is_gt_trans _ tuple_compare_laws). Qed.

Lemma tuple_gt_le a b c :
  tuple_gt a b = true → tuple_le c b → tuple_gt a c = true.
Proof.
  unfold tuple_le, tuple_gt. intros Hab Hcb.
  rewrite (cmp_gt_not_gt _ tuple_compare_laws a b c); [done| |].
  - by destruct (lex_compare Z.compare a b).
  - by destruct (lex_compare Z.compare c b).
Qed.

Lemma tuple_le_refl a : tuple_le a a.
Proof. apply (is_gt_irrefl _ tuple_compare_laws). Qed.

Lemma tuple_gt_le_flip a b : tuple_gt a b = true → tuple_le b a.
Proof. apply (is_gt_antisym _ tuple_compare_laws). Qed.

(** ** Consolidation *)

(** *** The insertion-ordered dictionary *)

Lemma od_get_Some k v d : od_get k d = Some v → (k, v) ∈ d.
Proof.
  induction d as [|[k' v'] d IH]; simpl; [done|].
  case_decide as Hk.
  - intros [= ->]. subst. apply elem_of_cons. by left.
  - intros H. apply elem_of_cons. right. by apply IH.
Qed.

Lemma od_get_None k d : od_get k d = None ↔ k ∉ d.*1.
Proof.
  induction d as [|[k' v'] d IH]; simpl.
  - split; [intros _; apply not_elem_of_nil | done].
  - rewrite not_elem_of_cons, <- IH. case_decide as Hk; [|tauto].
    split; [done|]. by intros [? _].
Qed.

Lemma od_key_elem k v (d : list (value * doc)) : (k, v) ∈ d → k ∈ d.*1.
Proof. intros H. apply list_elem_of_fmap. by exists (k, v). Qed.

Lemma od_get_elem k v d : NoDup d.*1 → (k, v) ∈ d → od_get k d = Some v.
Proof.
  induction d as [|[k' v'] d IH]; simpl; intros Hnd Hin.
  - by apply elem_of_nil in Hin.
  - apply NoDup_cons in Hnd as [Hk Hnd].
    apply elem_of_cons in Hin as [[= -> ->]|Hin].
    + by rewrite decide_True.
    + rewrite decide_False; [by apply IH|].
      intros ->. apply Hk. by apply (od_key_elem _ v).
Qed.

Lemma od_set_fresh k v d : k ∉ d.*1 → od_set k v d = d ++ [(k, v)].
Proof.
  induction d as [|[k' v'] d IH]; simpl; [done|].
  rewrite not_elem_of_cons. intros [Hne Hk].
  rewrite decide_False; [|done]. by rewrite IH.
Qed.

Lemma od_set_keys k v d : k ∈ d.*1 → (od_set k v d).*1 = d.*1.
Proof.
  induction d as [|[k' v'] d IH]; simpl; [by intros ?%elem_of_nil|].
  case_decide as Hk; [by subst|].
  intros [?|Hin]%elem_of_cons; [done|]. rewrite fmap_cons. simpl. f_equal. by apply IH.
Qed.

Lemma elem_of_od_set k v d k' v' :
  NoDup d.*1 →
  (k', v') ∈ od_set k v d ↔ (k' = k ∧ v' = v) ∨ (k' ≠ k ∧ (k', v') ∈ d).
Proof.
  induction d as [|[k1 v1] d IH]; simpl; intros Hnd.
  - rewrite list_elem_of_singleton, elem_of_nil.
    split; [intros [= -> ->]; by left|intros [[-> ->]|[_ []]]; done].
  - apply NoDup_cons in Hnd as [Hk1 Hnd].
    case_decide as Hk; subst.
    + rewrite !elem_of_cons. split.
      * intros [[= -> ->]|Hin]; [by left|]. right. split; [|by right].
        intros ->. apply Hk1. by apply (od_key_elem _ v').
      * intros [[-> ->]|[Hne [[= -> ->]|Hin]]]; [by left|done|by right].
    + rewrite !elem_of_cons, (IH Hnd).
      split; [intros [[= -> ->]|[?|[? ?]]] | intros [?|[? [[= -> ->]|?]]]]; auto.
Qed.

Lemma od_set_NoDup k v d : NoDup d.*1 → NoDup (od_set k v d).*1.
Proof.
  intros Hnd. destruct (decide (k ∈ d.*1)) as [Hin|Hout].
  - by rewrite od_set_keys.
  - rewrite od_set_fresh, fmap_app by done. simpl.
    apply NoDup_app. split_and!; [done| |apply NoDup_singleton].
    intros x Hx ->%list_elem_of_singleton. done.
Qed.

(** *** The candidates of an identifier *)

Lemma elem_of_candidates c k l : c ∈ candidates k l ↔ get c "id" = k ∧ c ∈ l.
Proof. unfold candidates. by rewrite list_elem_of_filter. Qed.

Lemma candidates_app k l1 l2 :
  candidates k (l1 ++ l2) = candidates k l1 ++ candidates k l2.
Proof. apply filter_app. Qed.

Lemma candidates_snoc k seen d :
  candidates k (seen ++ [d])
  = candidates k seen ++ (if decide (get d "id" = k) then [d] else []).
Proof.
  by rewrite candidates_app.
Qed.

Lemma first_latest_singleton d : first_latest d [d].
Proof.
  exists [], []. split_and!; [done| |]; by intros c ?%elem_of_nil.
Qed.

Lemma first_latest_keep e l d :
  first_latest e l → tuple_gt (doc_version d) (doc_version e) = false →
  first_latest e (l ++ [d]).
Proof.
  intros (l1 & l2 & -> & H1 & H2) Hd.
  exists l1, (l2 ++ [d]). split_and!; [by rewrite <- app_assoc|done|].
  intros c [?| ->%list_elem_of_singleton]%elem_of_app; [by apply H2|done].
Qed.

Lemma first_latest_replace e l d :
  first_latest e l → tuple_gt (doc_version d) (doc_version e) = true →
  first_latest d (l ++ [d]).
Proof.
  intros (l1 & l2 & -> & H1 & H2) Hd.
  exists (l1 ++ e :: l2), []. split_and!; [done| |by intros c ?%elem_of_nil].
  intros c [Hc|[->|Hc]%elem_of_cons]%elem_of_app; [|done|].
  - eapply tuple_gt_trans; [done|by apply H1].
  - eapply tuple_gt_le; [done|by apply H2].
Qed.

Lemma first_latest_max e l c : first_latest e l → c ∈ l → tuple_le (doc_version c) (doc_version e).
Proof.
  intros (l1 & l2 & -> & H1 & H2) [Hc|[->|Hc]%elem_of_cons]%elem_of_app.
  - by apply tuple_gt_le_flip, H1.
  - apply tuple_le_refl.
  - by apply H2.
Qed.

Lemma max_score_singleton d : max_score (doc_score d) [d].
Proof.
  split; [exists d; split; [by apply list_elem_of_singleton|done]|].
  intros c ->%list_elem_of_singleton. by left.
Qed.

Lemma max_score_snoc m l d m' :
  max_score m l → max2 m (doc_score d) = Ok m' → max_score m' (l ++ [d]).
Proof.
  intros [(c0 & Hc0 & Hm) Hle]. unfold max2.
  destruct (gt (doc_score d) m) as [[]|] eqn:Hg; simpl_outcome; [| |done];
    intros [= <-].
  - split.
    + exists d. split; [|done]. apply elem_of_app. right. by apply list_elem_of_singleton.
    + intros c [Hc| ->%list_elem_of_singleton]%elem_of_app; [|by left].
      eapply value_le_gt; [by apply Hle|done].
  - split.
    + exists c0. split; [|done]. apply elem_of_app. by left.
    + intros c [Hc| ->%list_elem_of_singleton]%elem_of_app; [by apply Hle|by right].
Qed.

(** *** The loop invariant *)

Lemma elem_of_keys k (d : list (value * doc)) : k ∈ d.*1 ↔ ∃ e, (k, e) ∈ d.
Proof.
  rewrite list_elem_of_fmap. split.
  - intros ([k' e] & -> & H). by exists e.
  - intros [e H]. by exists (k, e).
Qed.

Lemma consolidated_init :
  consolidated [] {| latest_by_id := []; max_score_by_id := ∅ |}.
Proof.
  split; simpl.
  - constructor.
  - by intros k e ?%elem_of_nil.
  - by intros k e ?%elem_of_nil.
  - by intros d ?%elem_of_nil.
  - by intros k e ?%elem_of_nil.
  - intros k [m H]. by rewrite lookup_empty in H.
Qed.

Lemma consolidated_skip seen acc d :
  consolidated seen acc → truthy (get d "id") = false →
  consolidated (seen ++ [d]) acc.
Proof.
  intros [Hnd Hkey Hlat Hpres Hsc Hdom] Hf.
  assert (∀ k e, (k, e) ∈ latest_by_id acc →
                 candidates k (seen ++ [d]) = candidates k seen) as Hc.
  { intros k e Hin. rewrite candidates_snoc, decide_False; [by rewrite app_nil_r|].
    intros Heq. destruct (Hkey k e Hin) as [_ Ht]. congruence. }
  split; try done.
  - intros k e Hin. rewrite (Hc k e Hin). auto.
  - intros c [Hin| ->%list_elem_of_singleton]%elem_of_app Ht; [auto|congruence].
  - intros k e Hin. rewrite (Hc k e Hin). eauto.
Qed.

Lemma consolidated_update seen acc d latest' score e_new :
  consolidated seen acc →
  truthy (get d "id") = true →
  NoDup latest'.*1 →
  (∀ k e, (k, e) ∈ latest' ↔
          (k = get d "id" ∧ e = e_new) ∨ (k ≠ get d "id" ∧ (k, e) ∈ latest_by_id acc)) →
  get e_new "id" = get d "id" →
  first_latest e_new (candidates (get d "id") seen ++ [d]) →
  max_score score (candidates (get d "id") seen ++ [d]) →
  consolidated (seen ++ [d])
    {| latest_by_id := latest';
       max_score_by_id := <[get d "id" := score]> (max_score_by_id acc) |}.
Proof.
  intros [Hnd Hkey Hlat Hpres Hsc Hdom] Ht Hnd' Hin' Hid Hfirst Hmax.
  set (k0 := get d "id") in *.
  assert (∀ k, k ≠ k0 → candidates k (seen ++ [d]) = candidates k seen) as Hne.
  { intros k Hk. rewrite candidates_snoc, decide_False; [by rewrite app_nil_r|].
    by intros <-. }
  assert (candidates k0 (seen ++ [d]) = candidates k0 seen ++ [d]) as Heq.
  { by rewrite candidates_snoc, decide_True. }
  assert (∀ k, k ∈ latest'.*1 ↔ k = k0 ∨ k ∈ (latest_by_id acc).*1) as Hkeys.
  { intros k. rewrite !elem_of_keys. split.
    - intros [e [[-> _]|[_ He]]%Hin']; [by left|right; by exists e].
    - intros [->|[e He]]; [exists e_new; apply Hin'; by left|].
      destruct (decide (k = k0)) as [->|Hk].
      + exists e_new. apply Hin'. by left.
      + exists e. apply Hin'. by right. }
  split; simpl.
  - done.
  - intros k e [[-> ->]|[Hk He]]%Hin'; [done|by apply Hkey].
  - intros k e [[-> ->]|[Hk He]]%Hin'.
    + by rewrite Heq.
    + rewrite Hne by done. by apply Hlat.
  - intros c [Hc| ->%list_elem_of_singleton]%elem_of_app Hc'; apply Hkeys.
    + right. by apply Hpres.
    + by left.
  - intros k e [[-> ->]|[Hk He]]%Hin'.
    + exists score. by rewrite lookup_insert_eq, Heq.
    + rewrite lookup_insert_ne, Hne by done. by apply (Hsc k e).
  - intros k Hsome. apply Hkeys. destruct (decide (k = k0)) as [->|Hk]; [by left|].
    right. apply Hdom. by rewrite lookup_insert_ne in Hsome.
Qed.

Lemma consolidated_step seen acc d acc' :
  consolidated seen acc → consolidate acc d = Ok acc' →
  consolidated (seen ++ [d]) acc'.
Proof.
  intros Hinv Hstep. unfold consolidate in Hstep.
  destruct (truthy (get d "id")) eqn:Ht; simpl in Hstep;
    [|injection Hstep as <-; by apply consolidated_skip].
  assert (hash_key (get d "id") = Ok (get d "id")) as Hh.
  { by destruct (get d "id"); simpl in *. }
  rewrite Hh in Hstep. simpl_outcome. clear Hh.
  pose proof Hinv as [Hnd Hkey Hlat Hpres Hsc Hdom].
  destruct (od_get (get d "id") (latest_by_id acc)) as [e|] eqn:Hget.
  - (* the identifier has a representative *)
    apply od_get_Some in Hget as Hin.
    destruct (Hsc (get d "id") e Hin) as (m & Hm & Hmax). rewrite Hm in Hstep.
    destruct (max2 m (doc_score d)) as [m'|] eqn:Hmax2; [|done].
    injection Hstep as <-.
    pose proof (max_score_snoc _ _ _ _ Hmax Hmax2) as Hmax'.
    destruct (tuple_gt (doc_version d) (doc_version e)) eqn:Hgt.
    + apply (consolidated_update _ _ _ _ _ d); try done.
      * by apply od_set_NoDup.
      * intros k e'. by apply elem_of_od_set.
      * by apply first_latest_replace with e; [apply Hlat|].
    + apply (consolidated_update _ _ _ _ _ e); try done.
      * intros k e'. split.
        -- intros Hin'. destruct (decide (k = (get d "id"))) as [->|Hk]; [left|by right].
           split; [done|]. rewrite (od_get_elem _ _ _ Hnd Hin') in Hget. congruence.
        -- intros [[-> ->]|[_ ?]]; done.
      * by apply Hkey.
      * by apply first_latest_keep; [apply Hlat|].
  - (* first document of the identifier *)
    apply od_get_None in Hget as Hout.
    assert (max_score_by_id acc !! (get d "id") = None) as Hm.
    { destruct (max_score_by_id acc !! (get d "id")) eqn:E; [|done].
      exfalso. apply Hout, Hdom. by rewrite E. }
    rewrite Hm in Hstep. injection Hstep as <-.
    assert (candidates (get d "id") seen = []) as Hnil.
    { apply elem_of_nil_inv. intros c [Hid Hc]%elem_of_candidates.
      apply Hout. rewrite <- Hid. apply Hpres; [done|]. by rewrite Hid. }
    apply (consolidated_update _ _ _ _ _ d); try done.
    + by apply od_set_NoDup.
    + intros k e'. by apply elem_of_od_set.
    + rewrite Hnil. apply first_latest_singleton.
    + rewrite Hnil. apply max_score_singleton.
Qed.

Lemma consolidate_all_app acc l1 l2 :
  consolidate_all acc (l1 ++ l2) = acc' ← consolidate_all acc l1; consolidate_all acc' l2.
Proof.
  revert acc; induction l1 as [|d l1 IH]; intros acc; simpl; [done|].
  destruct (consolidate acc d); simpl_outcome; [apply IH|done].
Qed.

Lemma consolidated_all rest : ∀ seen acc acc',
  consolidated seen acc → consolidate_all acc rest = Ok acc' →
  consolidated (seen ++ rest) acc'.
Proof.
  induction rest as [|d rest IH]; intros seen acc acc' Hinv; simpl.
  - intros [= <-]. by rewrite app_nil_r.
  - destruct (consolidate acc d) as [acc1|] eqn:Hstep; simpl_outcome; [|done].
    intros Hrest. rewrite (assoc_L (++) seen [d] rest : seen ++ d :: rest = (seen ++ [d]) ++ rest).
    eapply IH; [|done]. by apply consolidated_step with acc.
Qed.

Lemma keep_latest_versions_inv results out :
  keep_latest_versions results = Ok out →
  ∃ acc, consolidated results acc
         ∧ out = map (with_score (max_score_by_id acc)) (latest_by_id acc).
Proof.
  unfold keep_latest_versions. intros H.
  destruct (consolidate_all _ results) as [acc|] eqn:Hall; simpl_outcome; [|done].
  exists acc. split; [|congruence].
  by apply (consolidated_all results [] _ acc consolidated_init).
Qed.

Lemma with_score_id maxs entry : get (with_score maxs entry) "id" = get entry.2 "id".
Proof. unfold with_score, get, get_or. by rewrite lookup_insert_ne. Qed.

Lemma with_score_version maxs entry :
  doc_version (with_score maxs entry) = doc_version entry.2.
Proof. unfold with_score, doc_version, get_or. by rewrite lookup_insert_ne. Qed.

Lemma with_score_score maxs entry :
  with_score maxs entry !! "score" = Some (default (VInt 0) (maxs !! entry.1)).
Proof. unfold with_score. by rewrite lookup_insert_eq. Qed.

Lemma with_score_ids maxs (latest : list (value * doc)) :
  (∀ k e, (k, e) ∈ latest → get e "id" = k) →
  (λ r, get r "id") <$> map (with_score maxs) latest = latest.*1.
Proof.
  induction latest as [|[k e] latest IH]; intros Hkey; [done|].
  csimpl. f_equal.
  - rewrite with_score_id. simpl. apply Hkey. apply elem_of_cons. by left.
  - apply IH. intros k' e' Hin. apply Hkey. apply elem_of_cons. by right.
Qed.

(** *** Consolidation does not raise on well-typed documents *)

Lemma consolidate_total acc d :
  well_typed d = true →
  map_Forall (λ _ m, ∃ n, m = VInt n) (max_score_by_id acc) →
  ∃ acc', consolidate acc d = Ok acc'
          ∧ map_Forall (λ _ m, ∃ n, m = VInt n) (max_score_by_id acc').
Proof.
  intros Hwt Hints. unfold consolidate, well_typed in *.
  destruct (truthy (get d "id")); simpl; [|by exists acc].
  destruct (doc_score d) as [|s| |] eqn:Hs; try by destruct (get d "id").
  assert (hash_key (get d "id") = Ok (get d "id")) as -> by by destruct (get d "id").
  simpl_outcome.
  destruct (max_score_by_id acc !! get d "id") as [m|] eqn:Hm.
  - destruct (Hints _ _ Hm) as [n ->]. unfold max2, gt. simpl_outcome.
    eexists. split; [done|]. simpl. apply map_Forall_insert_2; [|done].
    destruct (is_gt (s ?= n)); eauto.
  - eexists. split; [done|]. simpl. apply map_Forall_insert_2; [|done]. eauto.
Qed.

Lemma consolidate_all_total results : ∀ acc,
  Forall (λ d, well_typed d = true) results →
  map_Forall (λ _ m, ∃ n, m = VInt n) (max_score_by_id acc) →
  ∃ acc', consolidate_all acc results = Ok acc'.
Proof.
  induction results as [|d results IH]; intros acc Hwt Hints; simpl; [by eexists|].
  apply Forall_cons in Hwt as [Hd Hwt].
  destruct (consolidate_total acc d Hd Hints) as (acc1 & -> & Hints1).
  simpl_outcome. by apply IH.
Qed.

Lemma keep_latest_versions_total results :
  Forall (λ d, well_typed d = true) results →
  ∃ out, keep_latest_versions results = Ok out.
Proof.
  intros Hwt. unfold keep_latest_versions.
  destruct (consolidate_all_total results {| latest_by_id := []; max_score_by_id := ∅ |} Hwt)
    as [acc ->]; [apply map_Forall_empty|].
  simpl_outcome. by eexists.
Qed.

(** *** Properties of the consolidated output *)

(** C1.  Whenever consolidation returns (and it does on well-typed
    documents), the output holds exactly one document for each identifier of
    the input that is not falsy: no identifier occurs twice, and every
    document of the input with a truthy identifier has a representative of
    that identifier in the output.  Each output document is a candidate of
    its identifier with only the score overwritten, its parsed version is not
    below that of any candidate of the same identifier, and it is the first
    of the candidates with that greatest version: every earlier candidate is
    strictly older, so that of two candidates with equal versions the one
    seen first stays the representative. *)
Theorem keep_latest_versions_one_per_id (results : list doc) :
  (Forall (λ d, well_typed d = true) results →
   ∃ out, keep_latest_versions results = Ok out)
  ∧ ∀ out, keep_latest_versions results = Ok out →
      NoDup ((λ r, get r "id") <$> out)
      ∧ (∀ d, d ∈ results → truthy (get d "id") = true →
           ∃ r, r ∈ out ∧ get r "id" = get d "id")
      ∧ ∀ r, r ∈ out →
          ∃ e, first_latest e (candidates (get r "id") results)
               ∧ r = <["score" := doc_score r]> e
               ∧ ∀ c, c ∈ candidates (get r "id") results →
                      tuple_le (doc_version c) (doc_version r).
Proof.
  split; [apply keep_latest_versions_total|].
  intros out (acc & Hinv & ->)%keep_latest_versions_inv.
  destruct Hinv as [Hnd Hkey Hlat Hpres Hsc Hdom]. split_and!.
  - rewrite with_score_ids; [done|]. intros k e Hin. by apply Hkey.
  - intros d Hd Ht.
    destruct (proj1 (elem_of_keys _ _) (Hpres d Hd Ht)) as [e Hin].
    exists (with_score (max_score_by_id acc) (get d "id", e)). split.
    + apply list_elem_of_fmap. by exists (get d "id", e).
    + rewrite with_score_id. simpl. by apply Hkey.
  - intros r ([k e] & -> & Hin)%list_elem_of_fmap.
    destruct (Hkey k e Hin) as [Hid _].
    rewrite with_score_id, with_score_version. simpl. rewrite Hid.
    exists e. split_and!.
    + by apply Hlat.
    + unfold doc_score, get_or. by rewrite with_score_score.
    + intros c Hc. eapply first_latest_max; [by apply Hlat|done].
Qed.

Lemma keep_latest_versions_one_per_id_witness :
  ∃ out r, keep_latest_versions two_versions = Ok out
           ∧ NoDup ((λ r, get r "id") <$> out)
           ∧ r ∈ out ∧ get r "id" = VStr "R1".
Proof.
  destruct (keep_latest_versions_one_per_id two_versions) as [Htotal Hout].
  destruct Htotal as [out Hrun].
  - repeat constructor.
  - destruct (Hout out Hrun) as (Hnd & Hpres & _).
    destruct (Hpres (mk_doc "R1" "1.0.0" 5)) as (r & Hr & Hid).
    + apply elem_of_cons. by left.
    + reflexivity.
    + exists out, r. split_and!; [exact Hrun|exact Hnd|exact Hr|exact Hid].
Defined.

(** C2.  Whenever consolidation returns (and it does on well-typed
    documents), every identifier of the input that is not falsy has a
    document in the output whose score field is the greatest of the scores
    of the candidates of that identifier: it is the score of one of them and
    none of them has a greater one; for numbers, it is at least the score of
    each candidate. *)
Theorem keep_latest_versions_max_score (results : list doc) :
  (Forall (λ d, well_typed d = true) results →
   ∃ out, keep_latest_versions results = Ok out)
  ∧ ∀ out, keep_latest_versions results = Ok out →
      ∀ d, d ∈ results → truthy (get d "id") = true →
        ∃ r m, r ∈ out ∧ get r "id" = get d "id" ∧ r !! "score" = Some m
               ∧ max_score m (candidates (get d "id") results)
               ∧ ∀ c n k, c ∈ candidates (get d "id") results →
                          m = VInt n → doc_score c = VInt k → k ≤ n.
Proof.
  split; [apply keep_latest_versions_total|].
  intros out (acc & Hinv & ->)%keep_latest_versions_inv d Hd Ht.
  destruct Hinv as [Hnd Hkey Hlat Hpres Hsc Hdom].
  destruct (proj1 (elem_of_keys _ _) (Hpres d Hd Ht)) as [e Hin].
  destruct (Hsc _ e Hin) as (m & Hm & Hmax).
  exists (with_score (max_score_by_id acc) (get d "id", e)), m. split_and!.
  - apply list_elem_of_fmap. by exists (get d "id", e).
  - rewrite with_score_id. simpl. by apply Hkey.
  - rewrite with_score_score. simpl. by rewrite Hm.
  - done.
  - intros c n k Hc -> Hk. apply value_le_int_iff. rewrite <- Hk.
    by apply Hmax.
Qed.

Lemma keep_latest_versions_max_score_witness :
  ∃ out r m, keep_latest_versions two_versions = Ok out
             ∧ r ∈ out ∧ r !! "score" = Some m
             ∧ max_score m (candidates (VStr "R1") two_versions).
Proof.
  destruct (keep_latest_versions_max_score two_versions) as [Htotal Hout].
  destruct Htotal as [out Hrun].
  - repeat constructor.
  - destruct (Hout out Hrun (mk_doc "R1" "1.0.0" 5))
      as (r & m & Hr & _ & Hm & Hmax & _).
    + apply elem_of_cons. by left.
    + reflexivity.
    + by exists out, r, m.
Defined.

(** The first scenario: the newer version is shown with the score of the
    older one. *)
Example keep_latest_versions_two_versions :
  keep_latest_versions two_versions = Ok [mk_doc "R1" "2.0.0" 5].
Proof. reflexivity. Qed.

(** *** Malformed versions *)

Lemma parse_version_unparseable v : parses v = false → parse_version v = [0; 0; 0].
Proof.
  destruct v as [| |s|]; simpl; try done.
  intros H%bool_decide_eq_false. destruct (mapM int_of_string (split "." s)); [|done].
  exfalso. apply H. by eexists.
Qed.

Lemma with_score_version_str maxs entry :
  get_or (with_score maxs entry) "resource_version" (VStr "0.0.0")
  = get_or entry.2 "resource_version" (VStr "0.0.0").
Proof. unfold with_score, get_or. by rewrite lookup_insert_ne. Qed.

(** C3, as stated, fails.  The malformed version [bad], seen first, stays
    selected although the same identifier has the well-formed version
    [0.0.0], which is read as the same tuple; and it replaces the well-formed
    version [0], because the tuple [(0, 0, 0)] is greater than [(0,)]. *)
Lemma unparseable_version_selected :
  parses (VStr "bad") = false
  ∧ parses (VStr "0.0.0") = true
  ∧ keep_latest_versions bad_then_zeros = Ok [mk_doc "R1" "bad" 1]
  ∧ parses (VStr "0") = true
  ∧ keep_latest_versions zero_then_bad = Ok [mk_doc "R1" "bad" 1].
Proof. split_and!; reflexivity. Qed.

Lemma first_latest_unique e d l : first_latest e l → first_latest d l → e = d.
Proof.
  intros (a1 & a2 & -> & Ha1 & Ha2) (b1 & b2 & Heq & Hb1 & Hb2).
  assert ((a1 ++ e :: a2) !! length a1 = Some e) as He by apply list_lookup_middle, eq_refl.
  assert ((a1 ++ e :: a2) !! length b1 = Some d) as Hd
    by (rewrite Heq; apply list_lookup_middle, eq_refl).
  destruct (Nat.lt_total (length a1) (length b1)) as [Hlt|[Hlen|Hgt]].
  - exfalso. rewrite Heq, lookup_app_l in He by done.
    apply list_elem_of_lookup_2, Hb1 in He.
    rewrite lookup_app_r in Hd by lia.
    destruct (length b1 - length a1)%nat as [|n] eqn:Hn; [lia|]. simpl in Hd.
    apply list_elem_of_lookup_2, Ha2 in Hd. unfold tuple_le in Hd. congruence.
  - rewrite Hlen in He. congruence.
  - exfalso. rewrite lookup_app_l in Hd by done.
    apply list_elem_of_lookup_2, Ha1 in Hd.
    rewrite Heq, lookup_app_r in He by lia.
    destruct (length a1 - length b1)%nat as [|n] eqn:Hn; [lia|]. simpl in He.
    apply list_elem_of_lookup_2, Hb2 in He. unfold tuple_le in He. congruence.
Qed.

(** C3, amended.  A version value that is not a well-formed dotted integer
    string is read as [(0, 0, 0)].  A document with such a version is in the
    output only if no candidate of its identifier has a parsed version
    greater than [(0, 0, 0)].  And it is the representative of its identifier
    (with only the score overwritten) whenever every candidate of the
    identifier before it has a parsed version smaller than [(0, 0, 0)] and
    no candidate after it has a greater one: so it stays selected over a
    later candidate whose version is read as [(0, 0, 0)], and it replaces an
    earlier candidate whose parsed tuple is smaller, such as [(0,)]. *)
Theorem unparseable_version_ranks_as_zeros :
  (∀ v, parses v = false → parse_version v = [0; 0; 0])
  ∧ (∀ results out r c,
       keep_latest_versions results = Ok out → r ∈ out →
       parses (get_or r "resource_version" (VStr "0.0.0")) = false →
       c ∈ candidates (get r "id") results →
       tuple_gt (doc_version c) [0; 0; 0] = false)
  ∧ ∀ before d after out,
      keep_latest_versions (before ++ d :: after) = Ok out →
      truthy (get d "id") = true →
      parses (get_or d "resource_version" (VStr "0.0.0")) = false →
      (∀ c, c ∈ candidates (get d "id") before →
            tuple_gt [0; 0; 0] (doc_version c) = true) →
      (∀ c, c ∈ candidates (get d "id") after →
            tuple_gt (doc_version c) [0; 0; 0] = false) →
      ∃ r, r ∈ out ∧ get r "id" = get d "id" ∧ r = <["score" := doc_score r]> d.
Proof.
  split_and!; [apply parse_version_unparseable| |].
  - intros results out r c (acc & Hinv & ->)%keep_latest_versions_inv.
    destruct Hinv as [Hnd Hkey Hlat Hpres Hsc Hdom].
    intros ([k e] & -> & Hin)%list_elem_of_fmap.
    rewrite with_score_version_str, with_score_id. simpl.
    intros Hbad Hc. destruct (Hkey k e Hin) as [Hid _]. rewrite Hid in Hc.
    pose proof (first_latest_max _ _ _ (Hlat k e Hin) Hc) as Hle.
    unfold tuple_le, doc_version in Hle.
    by rewrite (parse_version_unparseable _ Hbad) in Hle.
  - intros before d after out (acc & Hinv & ->)%keep_latest_versions_inv
      Ht Hbad Hbefore Hafter.
    destruct Hinv as [Hnd Hkey Hlat Hpres Hsc Hdom].
    assert (d ∈ before ++ d :: after) as Hd.
    { apply elem_of_app. right. apply elem_of_cons. by left. }
    destruct (proj1 (elem_of_keys _ _) (Hpres d Hd Ht)) as [e Hin].
    assert (doc_version d = [0; 0; 0]) as Hzero
      by apply (parse_version_unparseable _ Hbad).
    assert (first_latest d (candidates (get d "id") (before ++ d :: after))) as Hfirst.
    { exists (candidates (get d "id") before), (candidates (get d "id") after).
      rewrite Hzero. split_and!; [|done|done].
      rewrite candidates_app. f_equal. unfold candidates.
      by rewrite filter_cons_True. }
    pose proof (first_latest_unique _ _ _ (Hlat _ _ Hin) Hfirst) as ->.
    exists (with_score (max_score_by_id acc) (get d "id", d)). split_and!.
    + apply list_elem_of_fmap. by exists (get d "id", d).
    + by rewrite with_score_id.
    + unfold doc_score, get_or. by rewrite with_score_score.
Qed.

Lemma unparseable_version_ranks_as_zeros_witness :
  parse_version (VStr "bad") = [0; 0; 0]
  ∧ tuple_gt (doc_version (mk_doc "R1" "0.0.0" 1)) [0; 0; 0] = false
  ∧ (∃ r, r ∈ [mk_doc "R1" "bad" 1]
          ∧ r = <["score" := doc_score r]> (mk_doc "R1" "bad" 1)).
Proof.
  destruct unparseable_version_ranks_as_zeros as (Hparse & Hrank & Hselected).
  split_and!.
  - apply Hparse. reflexivity.
  - apply (Hrank bad_then_zeros [mk_doc "R1" "bad" 1] (mk_doc "R1" "bad" 1)).
    + reflexivity.
    + apply elem_of_cons. by left.
    + reflexivity.
    + apply elem_of_cons. right. apply elem_of_cons. by left.
  - destruct (Hselected [mk_doc "R1" "0" 1] (mk_doc "R1" "bad" 1) []
                [mk_doc "R1" "bad" 1]) as (r & Hr & _ & Heq).
    + reflexivity.
    + reflexivity.
    + reflexivity.
    + intros c ->%list_elem_of_singleton. reflexivity.
    + by intros c ?%elem_of_nil.
    + by exists r.
Defined.

(** *** Falsy identifiers *)

Lemma keep_latest_versions_skip before d after :
  truthy (get d "id") = false →
  keep_latest_versions (before ++ d :: after) = keep_latest_versions (before ++ after).
Proof.
  intros Hf. unfold keep_latest_versions. rewrite !consolidate_all_app.
  destruct (consolidate_all _ before) as [acc|]; simpl_outcome; [|done].
  unfold consolidate. by rewrite Hf.
Qed.

(** C9.  A document whose identifier is falsy (absent, [None], zero, the
    empty string or the empty list) changes nothing in the result of the
    consolidation, in particular one whose identifier is the empty string;
    and no document of the output has a falsy identifier. *)
Theorem falsy_id_dropped :
  (∀ before d after, truthy (get d "id") = false →
     keep_latest_versions (before ++ d :: after)
     = keep_latest_versions (before ++ after))
  ∧ (∀ before (d : doc) after, d !! "id" = Some (VStr "") →
     keep_latest_versions (before ++ d :: after)
     = keep_latest_versions (before ++ after))
  ∧ (∀ results out r, keep_latest_versions results = Ok out → r ∈ out →
     truthy (get r "id") = true).
Proof.
  split_and!.
  - apply keep_latest_versions_skip.
  - intros before d after Hid. apply keep_latest_versions_skip.
    unfold get, get_or. by rewrite Hid.
  - intros results out r (acc & Hinv & ->)%keep_latest_versions_inv.
    intros ([k e] & -> & Hin)%list_elem_of_fmap.
    rewrite with_score_id. simpl.
    destruct (cons_key _ _ Hinv k e Hin) as [-> Ht]. done.
Qed.

Lemma falsy_id_dropped_witness :
  keep_latest_versions with_empty_id
  = Ok [mk_doc "R1" "1.0.0" 1; mk_doc "R2" "1.0.0" 2].
Proof.
  destruct falsy_id_dropped as (_ & Hempty & _).
  transitivity (keep_latest_versions ([mk_doc "R1" "1.0.0" 1] ++ [mk_doc "R2" "1.0.0" 2])).
  - apply (Hempty [mk_doc "R1" "1.0.0" 1] (mk_doc "" "9.0.0" 9) [mk_doc "R2" "1.0.0" 2]).
    reflexivity.
  - reflexivity.
Defined.

(** ** Pagination *)

Lemma slice_take_drop {A} (l : list A) (start stop : Z) :
  0 ≤ start ≤ stop →
  slice l start stop = take (Z.to_nat (stop - start)) (drop (Z.to_nat start) l).
Proof.
  intros Hss. unfold slice, clip_index.
  destruct (Z.ltb_spec start 0); [lia|]. destruct (Z.ltb_spec stop 0); [lia|].
  destruct (decide (Z.of_nat (length l) ≤ start)) as [Hlong|Hshort].
  - rewrite (drop_ge l (Z.to_nat start)) by lia.
    rewrite !Z.min_r by lia.
    rewrite (drop_ge l) by lia. by rewrite !take_nil.
  - rewrite (Z.min_l start) by lia.
    rewrite <- (take_ge (drop (Z.to_nat start) l)
                        (Z.to_nat (Z.of_nat (length l) - start)))
      by (rewrite length_drop; lia).
    rewrite !take_take. f_equal. lia.
Qed.

Lemma render_inv search_results sort_param page page_size resp :
  render search_results sort_param page page_size = Ok resp →
  ∃ sorted_resources,
    ranked search_results sort_param = Ok sorted_resources
    ∧ resp = {| status_code := 200;
                content_type := "application/json";
                payload := ResultBody (clean_up <$> paginate sorted_resources page page_size)
                                      (length sorted_resources) |}.
Proof.
  unfold render, ranked.
  destruct (keep_latest_versions _) as [unique|]; simpl_outcome; [|done].
  destruct (apply_sorting unique sort_param) as [sorted_resources|]; simpl_outcome; [|done].
  intros [= <-]. by exists sorted_resources.
Qed.

(** C4.  For a page of at least 1 and a page size between 1 and 100, the
    page is the part of the ranked sequence from offset
    [(page - 1) * page_size], of at most [page_size] elements: its [i]-th
    element is the element of the sequence at that offset plus [i], it is no
    longer than the page size, and it is empty when the offset is at or
    beyond the end.  The response carries the cleaned documents of that page
    and, as total, the length of the whole ranked sequence, whatever the page
    and the page size. *)
Theorem paginate_offsets (sorted_resources : list doc) (page page_size : Z) :
  1 ≤ page → 1 ≤ page_size ≤ 100 →
  let start := Z.to_nat ((page - 1) * page_size) in
  let size := Z.to_nat page_size in
  paginate sorted_resources page page_size = take size (drop start sorted_resources)
  ∧ (∀ i, (i < size)%nat →
       paginate sorted_resources page page_size !! i = sorted_resources !! (start + i)%nat)
  ∧ (∀ i, (size ≤ i)%nat → paginate sorted_resources page page_size !! i = None)
  ∧ (length (paginate sorted_resources page page_size) ≤ size)%nat
  ∧ ((length sorted_resources ≤ start)%nat →
       paginate sorted_resources page page_size = [])
  ∧ ∀ search_results sort_param resp,
      ranked search_results sort_param = Ok sorted_resources →
      render search_results sort_param page page_size = Ok resp →
      documents_of resp = clean_up <$> paginate sorted_resources page page_size
      ∧ total_count_of resp = Some (length sorted_resources).
Proof.
  intros Hpage Hsize start size.
  assert (paginate sorted_resources page page_size
          = take size (drop start sorted_resources)) as Heq.
  { unfold paginate. rewrite slice_take_drop by nia.
    unfold size, start. do 2 f_equal. lia. }
  rewrite Heq. split_and!.
  - done.
  - intros i Hi. by rewrite lookup_take_lt, lookup_drop.
  - intros i Hi. by apply lookup_take_ge.
  - rewrite length_take. lia.
  - intros Hend. by rewrite drop_ge, take_nil.
  - intros search_results sort_param resp Hranked
      (sorted' & Hranked' & ->)%render_inv.
    rewrite Hranked in Hranked'. injection Hranked' as <-.
    by rewrite <- Heq.
Qed.

Lemma paginate_offsets_witness :
  paginate (mk_doc "R" "1" <$> [1; 2; 3; 4; 5; 6; 7]) 2 3
  = mk_doc "R" "1" <$> [4; 5; 6]
  ∧ paginate (mk_doc "R" "1" <$> [1; 2; 3]) 100 10 = [].
Proof.
  split.
  - destruct (paginate_offsets (mk_doc "R" "1" <$> [1; 2; 3; 4; 5; 6; 7]) 2 3)
      as (Heq & _); [lia|lia|].
    rewrite Heq. reflexivity.
  - destruct (paginate_offsets (mk_doc "R" "1" <$> [1; 2; 3]) 100 10)
      as (_ & _ & _ & _ & Hend & _); [lia|lia|].
    apply Hend. simpl. lia.
Defined.

(** ** Clean-up of the page *)

Lemma clean_up_lookup (resource : doc) (key : string) :
  clean_up resource !! key
  = if decide (key = "database") then Some (VStr "gem5-vision")
    else if decide (key ∈ keys_to_remove) then None
    else resource !! key.
Proof.
  unfold clean_up, keys_to_remove. simpl.
  rewrite lookup_insert, !lookup_delete.
  destruct (decide (key = "database")) as [->|Hdb]; [done|].
  rewrite (decide_False (P := "database" = key)) by done.
  destruct (decide (key ∈ _)) as [Hin|Hout].
  - revert Hin. rewrite !elem_of_cons, elem_of_nil.
    intros [->|[->|[->|[]]]]; done.
  - revert Hout. rewrite !not_elem_of_cons. intros (? & ? & ? & _).
    by rewrite !decide_False.
Qed.

(** C8.  In a cleaned document the three backend keys are absent, the
    [database] field holds the constant tag, and every other field is as it
    was; the documents of a response are the cleaned documents of the page. *)
Theorem clean_up_frame (resource : doc) :
  (∀ key, key ∈ keys_to_remove → clean_up resource !! key = None)
  ∧ clean_up resource !! "database" = Some (VStr "gem5-vision")
  ∧ (∀ key, key ∉ keys_to_remove → key ≠ "database" →
       clean_up resource !! key = resource !! key)
  ∧ keys_to_remove = ["@search.score"; "@search.highlights"; "@search.reranker_score"]
  ∧ ∀ search_results sort_param page page_size resp r,
      render search_results sort_param page page_size = Ok resp →
      r ∈ documents_of resp →
      ∃ sorted_resources d,
        ranked search_results sort_param = Ok sorted_resources
        ∧ d ∈ paginate sorted_resources page page_size ∧ r = clean_up d.
Proof.
  split_and!.
  - intros key Hkey. rewrite clean_up_lookup.
    rewrite decide_False, decide_True; [done|done|].
    intros ->. revert Hkey. unfold keys_to_remove.
    rewrite !elem_of_cons, elem_of_nil. intros [?|[?|[?|[]]]]; done.
  - by rewrite clean_up_lookup.
  - intros key Hkey Hdb. rewrite clean_up_lookup.
    by rewrite !decide_False.
  - done.
  - intros search_results sort_param page page_size resp r
      (sorted_resources & Hranked & ->)%render_inv.
    unfold documents_of. simpl.
    intros (d & -> & Hd)%list_elem_of_fmap. by exists sorted_resources, d.
Qed.

Lemma clean_up_frame_witness :
  clean_up (<["@search.score" := VInt 3]> (mk_doc "R1" "1.0.0" 3)) !! "@search.score" = None
  ∧ clean_up (<["@search.score" := VInt 3]> (mk_doc "R1" "1.0.0" 3)) !! "id"
    = Some (VStr "R1").
Proof.
  destruct (clean_up_frame (<["@search.score" := VInt 3]> (mk_doc "R1" "1.0.0" 3)))
    as (Hgone & _ & Hframe & _).
  split.
  - apply Hgone. apply elem_of_cons. by left.
  - rewrite Hframe; [reflexivity| |done].
    unfold keys_to_remove. rewrite !elem_of_cons, elem_of_nil.
    intros [?|[?|[?|[]]]]; done.
Defined.

(** ** Query translation *)

Lemma append_assoc (a b c : string) : (a +:+ b) +:+ c = a +:+ (b +:+ c).
Proof.
  induction a as [|x a IH]; [done|].
  change (String x ((a +:+ b) +:+ c) = String x (a +:+ (b +:+ c))). by f_equal.
Qed.

Lemma replace_cons c new x s :
  replace c new (String x s)
  = if Ascii.eqb x c then new +:+ replace c new s else String x (replace c new s).
Proof. reflexivity. Qed.

Lemma escape_with_cons p x s :
  escape_with p (String x s)
  = if p x then String backslash (String x (escape_with p s))
    else String x (escape_with p s).
Proof. reflexivity. Qed.

Lemma replace_escape_with p c s :
  p c = false → (c = backslash → ∀ x, p x = false) →
  replace c (String backslash (chr c)) (escape_with p s)
  = escape_with (λ x, p x || Ascii.eqb x c) s.
Proof.
  intros Hc Hback. induction s as [|x s IH]; [done|].
  rewrite !escape_with_cons. destruct (p x) eqn:Hx.
  - rewrite orb_true_l, !replace_cons, IH.
    destruct (Ascii.eqb_spec backslash c) as [<-|_].
    { by rewrite Hback in Hx. }
    destruct (Ascii.eqb_spec x c) as [->|_]; [congruence|done].
  - rewrite orb_false_l, replace_cons, IH.
    by destruct (Ascii.eqb_spec x c) as [->|_].
Qed.

Lemma escape_with_ext p q s : (∀ x, p x = q x) → escape_with p s = escape_with q s.
Proof. intros H. induction s as [|x s IH]; simpl; [done|]. by rewrite H, IH. Qed.

Lemma escape_with_none s : escape_with (λ _, false) s = s.
Proof. induction s as [|x s IH]; simpl; [done|]. by rewrite IH. Qed.

Lemma foldl_replace_escape_with cs : ∀ p s,
  NoDup cs → (∀ c, c ∈ cs → p c = false) →
  (∀ c, c ∈ cs → c = backslash → ∀ x, p x = false) →
  (backslash ∈ cs → ∃ cs', cs = backslash :: cs') →
  foldl (λ escaped c, replace c (String backslash (chr c)) escaped) (escape_with p s) cs
  = escape_with (λ x, p x || bool_decide (x ∈ cs)) s.
Proof.
  induction cs as [|c cs IH]; intros p s Hnd Hp Hback Hfirst; cbn [foldl].
  - apply escape_with_ext. intros x.
    rewrite (bool_decide_eq_false_2 (x ∈ [])); [by destruct (p x)|].
    apply not_elem_of_nil.
  - apply NoDup_cons in Hnd as [Hc Hnd].
    rewrite replace_escape_with.
    + rewrite IH; [| done | | |].
      * apply escape_with_ext. intros x.
        destruct (Ascii.eqb_spec x c) as [->|Hne].
        -- rewrite (bool_decide_eq_true_2 (c ∈ c :: cs)); [|apply elem_of_cons; by left].
           by destruct (p c).
        -- rewrite orb_false_r. f_equal. apply bool_decide_ext.
           rewrite elem_of_cons. tauto.
      * intros x Hx. rewrite Hp; [|apply elem_of_cons; by right]. simpl.
        destruct (Ascii.eqb_spec x c) as [->|]; done.
      * intros x Hx ->. exfalso.
        destruct Hfirst as [cs' [= -> ->]]; [apply elem_of_cons; by right|done].
      * intros Hin. exfalso.
        destruct Hfirst as [cs' [= -> ->]]; [apply elem_of_cons; by right|done].
    + apply Hp. apply elem_of_cons. by left.
    + apply Hback. apply elem_of_cons. by left.
Qed.

Lemma special_chars_NoDup : NoDup special_chars.
Proof. apply (bool_decide_unpack _). by vm_compute. Qed.

(** The successive replacements escape each reserved character once. *)
Lemma escape_lucene_query_chars s : escape_lucene_query s = escape_with reserved s.
Proof.
  unfold escape_lucene_query.
  rewrite <- (escape_with_none s) at 1.
  rewrite foldl_replace_escape_with.
  - rewrite replace_escape_with.
    + apply escape_with_ext. intros x. by unfold reserved.
    + by vm_compute.
    + intros [=].
  - apply special_chars_NoDup.
  - done.
  - done.
  - intros _. by eexists.
Qed.

Lemma term_clause_matches t :
  term_clause t = "(" +:+ join " OR " (field_matches t ++ unscoped_matches t) +:+ ")".
Proof.
  unfold term_clause, field_matches, unscoped_matches, searched_fields,
    exact_match, prefix_match, dq, chr.
  cbn [fmap list_fmap concat app join].
  change (boost "id") with "^10".
  change (boost "description") with "".
  change (boost "category") with "".
  change (boost "architecture") with "".
  change (boost "tags") with "".
  repeat rewrite append_assoc. reflexivity.
Qed.

(** C5, as stated, fails: the clause built for a term is not the clause made
    of the matches in the five fields; it ends with two more disjuncts that
    name no field. *)
Lemma term_clause_not_scoped :
  term_clause "ubuntu" ≠ scoped_clause "ubuntu"
  ∧ term_clause "ubuntu"
    = "(" +:+ join " OR " (field_matches "ubuntu" ++ [dq +:+ "ubuntu" +:+ dq; "ubuntu*"])
      +:+ ")".
Proof.
  split; [|reflexivity].
  intros H. apply (f_equal String.length) in H. vm_compute in H. discriminate.
Qed.

(** C5, amended.  An empty phrase gives the match-all text [*] with the
    simple query type.  A phrase that is not empty is split on white space;
    each term is escaped (a backslash before every reserved character) and
    gives one clause, and the clauses are joined with [AND] under the full
    query type.  The clause of a term is the disjunction of an exact-phrase
    match and a prefix match in each of the fields id, description,
    category, architecture and tags, those on id with weight 10 and the
    others with no weight, followed by an exact-phrase match and a prefix
    match that name no field. *)
Theorem build_search_text_clauses :
  build_search_text "" = ("*", Simple)
  ∧ (∀ contains_str, contains_str ≠ "" →
       build_search_text contains_str
       = (join " AND " (map term_clause (map escape_lucene_query (split_ws contains_str))),
          Full))
  ∧ (∀ term, escape_lucene_query term = escape_with reserved term)
  ∧ (∀ term, term_clause term
             = "(" +:+ join " OR " (field_matches term ++ unscoped_matches term) +:+ ")")
  ∧ boost "id" = "^10"
  ∧ (∀ field, field ∈ searched_fields → field ≠ "id" → boost field = "").
Proof.
  split_and!.
  - reflexivity.
  - intros contains_str Hne. unfold build_search_text.
    rewrite bool_decide_eq_true_2 by done. by rewrite map_map.
  - apply escape_lucene_query_chars.
  - apply term_clause_matches.
  - reflexivity.
  - intros field _ Hne. unfold boost. by rewrite bool_decide_eq_false_2.
Qed.

Lemma build_search_text_clauses_witness :
  build_search_text "gem5 x86"
  = (term_clause "gem5" +:+ " AND " +:+ term_clause "x86", Full)
  ∧ boost "tags" = "".
Proof.
  destruct build_search_text_clauses as (_ & Hterms & _ & _ & _ & Hboost).
  split.
  - rewrite Hterms; [reflexivity|discriminate].
  - apply Hboost; [|discriminate].
    unfold searched_fields. rewrite !elem_of_cons. tauto.
Defined.

(** ** Ranking *)

(** *** The order of the keys *)

Lemma gt_true_flip s m : gt s m = Ok true → gt m s = Ok false.
Proof.
  intros H. unfold gt in *.
  destruct s, m; simpl_outcome; try done; f_equal; injection H as H.
  - by apply (is_gt_antisym _ Z_compare_laws).
  - by apply (is_gt_antisym _ string_compare_laws).
  - by apply (is_gt_antisym _ strings_compare_laws).
Qed.

Lemma gt_irrefl a : gt a a ≠ Ok true.
Proof.
  unfold gt. destruct a; simpl_outcome; try done; intros [= H].
  - by rewrite (is_gt_irrefl _ Z_compare_laws) in H.
  - by rewrite (is_gt_irrefl _ string_compare_laws) in H.
  - by rewrite (is_gt_irrefl _ strings_compare_laws) in H.
Qed.

Lemma lt_same_kind a b kd :
  kind_of a = Some kd → kind_of b = Some kd → ∃ r, lt a b = Ok r.
Proof.
  unfold lt, gt. destruct a, b; simpl; try done; intros [= <-] [=];
    simpl_outcome; by eexists.
Qed.

(** *** The stable sort of the decorated list *)

Lemma insert_sorted_perm x l : ∀ r, insert_sorted x l = Ok r → r ≡ₚ x :: l.
Proof.
  induction l as [|y l IH]; simpl; intros r.
  - by intros [= <-].
  - destruct (lt y.1 x.1) as [[]|]; simpl_outcome; [| |done].
    + destruct (insert_sorted x l) as [r'|]; simpl_outcome; [|done].
      intros [= <-]. rewrite (IH r' eq_refl). apply Permutation_swap.
    + by intros [= <-].
Qed.

Lemma insert_sorted_hd a x l : ∀ r,
  insert_sorted x l = Ok r → HdRel pair_le a l → pair_le a x → HdRel pair_le a r.
Proof.
  destruct l as [|y l]; simpl; intros r.
  - intros [= <-] _ Hax. by constructor.
  - destruct (lt y.1 x.1) as [[]|]; simpl_outcome; [| |done].
    + destruct (insert_sorted x l) as [r'|]; simpl_outcome; [|done].
      intros [= <-] Hay _. inversion Hay; subst. by constructor.
    + intros [= <-] _ Hax. by constructor.
Qed.

Lemma insert_sorted_Sorted x l : ∀ r,
  insert_sorted x l = Ok r → Sorted pair_le l → Sorted pair_le r.
Proof.
  induction l as [|y l IH]; simpl; intros r.
  - intros [= <-] _. by repeat constructor.
  - destruct (lt y.1 x.1) as [[]|] eqn:Hlt; simpl_outcome; [| |done].
    + destruct (insert_sorted x l) as [r'|] eqn:Hins; simpl_outcome; [|done].
      intros [= <-] Hs. apply Sorted_inv in Hs as [Hs Hhd].
      constructor; [by apply IH|].
      apply (insert_sorted_hd y x l r' Hins Hhd).
      unfold pair_le, key_le. by apply gt_true_flip.
    + intros [= <-] Hs. constructor; [done|]. by constructor.
Qed.

Lemma insert_sorted_filter k x l : ∀ r,
  insert_sorted x l = Ok r →
  filter (λ p : value * doc, p.1 = k) r = filter (λ p : value * doc, p.1 = k) (x :: l).
Proof.
  induction l as [|y l IH]; simpl; intros r.
  - by intros [= <-].
  - destruct (lt y.1 x.1) as [[]|] eqn:Hlt; simpl_outcome; [| |done].
    + destruct (insert_sorted x l) as [r'|] eqn:Hins; simpl_outcome; [|done].
      intros [= <-].
      assert (y.1 ≠ x.1) as Hne.
      { intros Heq. rewrite Heq in Hlt. by apply gt_irrefl in Hlt. }
      rewrite (filter_cons _ y r'), (IH r' eq_refl).
      rewrite (filter_cons _ x (y :: l)), (filter_cons _ y l), (filter_cons _ x l).
      repeat case_decide; try done. congruence.
    + by intros [= <-].
Qed.

Lemma stable_sort_perm l : ∀ r, stable_sort l = Ok r → r ≡ₚ l.
Proof.
  induction l as [|x l IH]; simpl; intros r.
  - by intros [= <-].
  - destruct (stable_sort l) as [s|]; simpl_outcome; [|done].
    intros Hins%insert_sorted_perm. by rewrite Hins, (IH s eq_refl).
Qed.

Lemma stable_sort_Sorted l : ∀ r, stable_sort l = Ok r → Sorted pair_le r.
Proof.
  induction l as [|x l IH]; simpl; intros r.
  - intros [= <-]. constructor.
  - destruct (stable_sort l) as [s|]; simpl_outcome; [|done].
    intros Hins. apply (insert_sorted_Sorted x s r Hins). by apply IH.
Qed.

Lemma stable_sort_filter k l : ∀ r,
  stable_sort l = Ok r →
  filter (λ p : value * doc, p.1 = k) r = filter (λ p : value * doc, p.1 = k) l.
Proof.
  induction l as [|x l IH]; simpl; intros r.
  - by intros [= <-].
  - destruct (stable_sort l) as [s|]; simpl_outcome; [|done].
    intros Hins. rewrite (insert_sorted_filter k x s r Hins).
    by rewrite !filter_cons, (IH s eq_refl).
Qed.

Lemma insert_sorted_total kd x l :
  kind_of x.1 = Some kd → Forall (λ p : value * doc, kind_of p.1 = Some kd) l →
  ∃ r, insert_sorted x l = Ok r.
Proof.
  intros Hx. induction 1 as [|y l Hy Hl IH]; simpl; [by eexists|].
  destruct (lt_same_kind y.1 x.1 kd Hy Hx) as [[] ->]; simpl_outcome.
  - destruct IH as [r ->]. simpl_outcome. by eexists.
  - by eexists.
Qed.

Lemma stable_sort_total kd l :
  Forall (λ p : value * doc, kind_of p.1 = Some kd) l → ∃ r, stable_sort l = Ok r.
Proof.
  induction 1 as [|x l Hx Hl IH]; simpl; [by eexists|].
  destruct IH as [s Hs]. rewrite Hs. simpl_outcome.
  apply (insert_sorted_total kd); [done|].
  by rewrite (stable_sort_perm l s Hs).
Qed.

(** *** [sorted] *)

Lemma decorate_Ok key d p : decorate key d = Ok p → p.2 = d ∧ key d = Ok p.1.
Proof.
  unfold decorate. destruct (key d); simpl_outcome; [|done]. by intros [= <-].
Qed.

Lemma mapM_decorate key results : ∀ keyed,
  mapM (decorate key) results = Ok keyed →
  keyed.*2 = results ∧ Forall (λ p, key p.2 = Ok p.1) keyed.
Proof.
  induction results as [|d results IH]; simpl; intros keyed.
  - by intros [= <-].
  - destruct (decorate key d) as [p|] eqn:Hp; simpl_outcome; [|done].
    apply decorate_Ok in Hp as [<- Hp].
    destruct (mapM (decorate key) results) as [keyed'|]; simpl_outcome; [|done].
    intros [= <-]. destruct (IH keyed' eq_refl) as [Heq Hall].
    split; [csimpl; by rewrite Heq|by constructor].
Qed.

Lemma mapM_decorate_total key results :
  Forall (λ d, ∃ k, key d = Ok k) results →
  ∃ keyed, mapM (decorate key) results = Ok keyed.
Proof.
  induction 1 as [|d results [k Hk] _ [keyed IH]]; simpl; [by eexists|].
  assert (decorate key d = Ok (k, d)) as -> by (unfold decorate; by rewrite Hk).
  simpl_outcome. rewrite IH. simpl_outcome. by eexists.
Qed.

Lemma Sorted_fmap_Forall {A B} (f : A → B) (P : A → Prop)
    (R1 : relation A) (R2 : relation B) l :
  (∀ a b, P a → P b → R1 a b → R2 (f a) (f b)) →
  Forall P l → Sorted R1 l → Sorted R2 (f <$> l).
Proof.
  intros HR HP Hs. induction Hs as [|a l Hs IH Hhd]; csimpl; [constructor|].
  apply Forall_cons in HP as [Ha HP]. constructor; [by apply IH|].
  destruct Hhd as [|b l Hab]; csimpl; constructor.
  apply Forall_cons in HP as [Hb _]. by apply HR.
Qed.

Lemma filter_decorated key k (l : list (value * doc)) :
  Forall (λ p, key p.2 = Ok p.1) l →
  filter (λ d, key d = Ok k) l.*2 = (filter (λ p : value * doc, p.1 = k) l).*2.
Proof.
  induction 1 as [|p l Hp Hl IH]; [done|].
  csimpl. rewrite !filter_cons, IH, Hp.
  destruct (decide (p.1 = k)) as [->|Hne].
  - by rewrite decide_True.
  - rewrite decide_False; [done|]. by intros [= ?].
Qed.

Lemma sorted_spec key descending results out :
  sorted key descending results = Ok out → sorted_by key descending out results.
Proof.
  unfold sorted.
  destruct (mapM (decorate key) results) as [keyed|] eqn:Hkeyed; simpl_outcome; [|done].
  destruct (mapM_decorate _ _ _ Hkeyed) as [<- Hkeys].
  destruct (stable_sort _) as [s|] eqn:Hsort; simpl_outcome; [|done].
  intros [= <-].
  pose proof (stable_sort_perm _ _ Hsort) as Hperm.
  pose proof (stable_sort_Sorted _ _ Hsort) as Hsorted.
  destruct descending.
  - assert (Forall (λ p, key p.2 = Ok p.1) (reverse s)) as Hs.
    { by rewrite reverse_Permutation, Hperm, reverse_Permutation. }
    split_and!.
    + by rewrite reverse_Permutation, Hperm, reverse_Permutation.
    + apply Forall_fmap. eapply Forall_impl; [exact Hs|]. intros p Hp. by exists p.1.
    + apply (Sorted_fmap_Forall _ (λ p, key p.2 = Ok p.1) (flip pair_le)); [|done|].
      * intros a b Ha Hb Hab. exists a.1, b.1. split_and!; [done|done|exact Hab].
      * by apply Sorted_reverse.
    + intros k. rewrite !filter_decorated by done.
      rewrite filter_reverse, (stable_sort_filter k _ _ Hsort), filter_reverse.
      by rewrite reverse_involutive.
  - assert (Forall (λ p, key p.2 = Ok p.1) s) as Hs by by rewrite Hperm.
    split_and!.
    + by rewrite Hperm.
    + apply Forall_fmap. eapply Forall_impl; [exact Hs|]. intros p Hp. by exists p.1.
    + apply (Sorted_fmap_Forall _ (λ p, key p.2 = Ok p.1) pair_le); [|done|done].
      intros a b Ha Hb Hab. exists a.1, b.1. split_and!; [done|done|exact Hab].
    + intros k. rewrite !filter_decorated by done.
      by rewrite (stable_sort_filter k _ _ Hsort).
Qed.

Lemma sorted_total key descending results :
  comparable key results → ∃ out, sorted key descending results = Ok out.
Proof.
  intros [kd Hall]. unfold sorted.
  destruct (mapM_decorate_total key results) as [keyed Hkeyed].
  { eapply Forall_impl; [exact Hall|]. intros d (k & Hk & _). by eexists. }
  rewrite Hkeyed. simpl_outcome.
  destruct (mapM_decorate _ _ _ Hkeyed) as [<- Hkeys].
  assert (Forall (λ p : value * doc, kind_of p.1 = Some kd) keyed) as Hkind.
  { apply Forall_fmap in Hall. clear Hkeyed.
    induction Hkeys as [|p l Hp Hl IH]; [constructor|].
    apply Forall_cons in Hall as [(k & Hk & Hkd) Hall]. constructor; [|by apply IH].
    simpl in Hk. congruence. }
  destruct (stable_sort_total kd (if descending then reverse keyed else keyed))
    as [s ->].
  { destruct descending; [by rewrite reverse_Permutation|done]. }
  simpl_outcome. by eexists.
Qed.

(** *** The keys *)

Lemma string_le_refl a : string_le a a.
Proof. apply (cmp_gt_irrefl _ string_compare_laws). Qed.

Lemma string_le_trans a b c : string_le a b → string_le b c → string_le a c.
Proof. apply (cmp_not_gt_trans _ string_compare_laws). Qed.

Lemma key_le_str a b : key_le (VStr a) (VStr b) ↔ string_le a b.
Proof.
  unfold key_le, lt, gt, string_le. simpl_outcome. split.
  - intros [= H]. by destruct (String.compare a b).
  - intros H. f_equal. by destruct (String.compare a b).
Qed.

Lemma foldl_max_spec l : ∀ m,
  let r := foldl (λ m y, if is_gt (String.compare y m) then y else m) m l in
  r ∈ m :: l ∧ ∀ x, x ∈ m :: l → string_le x r.
Proof.
  induction l as [|y l IH]; intros m; simpl.
  - split; [apply elem_of_cons; by left|].
    intros x ->%list_elem_of_singleton. apply string_le_refl.
  - destruct (IH (if is_gt (String.compare y m) then y else m)) as [Hin Hmax].
    split.
    + apply elem_of_cons in Hin as [Hin|Hin].
      * rewrite Hin. destruct (is_gt (String.compare y m));
          rewrite !elem_of_cons; auto.
      * rewrite !elem_of_cons; auto.
    + intros x Hx. apply elem_of_cons in Hx as [->|Hx].
      * eapply string_le_trans; [|apply Hmax; apply elem_of_cons; by left].
        destruct (String.compare y m) eqn:E; simpl; try apply string_le_refl.
        unfold string_le. apply (cmp_gt_lt _ string_compare_laws) in E. by rewrite E.
      * apply elem_of_cons in Hx as [->|Hx].
        -- eapply string_le_trans; [|apply Hmax; apply elem_of_cons; by left].
           destruct (String.compare y m) eqn:E; simpl; try apply string_le_refl;
             unfold string_le; by rewrite E.
        -- apply Hmax. apply elem_of_cons. by right.
Qed.

Lemma max_of_spec l dflt : greatest_or dflt l (max_of l dflt).
Proof.
  destruct l as [|x l]; simpl; [done|]. apply foldl_max_spec.
Qed.

Lemma id_key_Ok d k :
  id_key d = Ok k ↔ ∃ s, lower_id d = Some s ∧ k = VStr s.
Proof.
  unfold id_key, lower_id. destruct (get_or d "id" (VStr "")); split;
    try done; try by intros (? & ? & ?).
  - intros [= <-]. by eexists.
  - by intros (? & [= <-] & ->).
Qed.

Lemma sorted_lower_ids descending out :
  Forall (λ d, ∃ k, id_key d = Ok k) out →
  Sorted (ordered_by id_key descending) out →
  ∃ ids, lower_id <$> out = Some <$> ids
         ∧ Sorted (if descending then flip string_le else string_le) ids.
Proof.
  intros Hall Hs. induction Hs as [|a l Hs IH Hhd].
  - exists []. split; [done|]. destruct descending; constructor.
  - apply Forall_cons in Hall as [[k Hk] Hall].
    destruct (IH Hall) as (ids & Hids & Hsorted).
    apply id_key_Ok in Hk as (s & Hs' & ->).
    exists (s :: ids). split; [csimpl; by rewrite Hs', Hids|].
    assert (HdRel (if descending then flip string_le else string_le) s ids) as Hhd'.
    { destruct Hhd as [|b l (ka & kb & Hka & Hkb & Hle)].
      - destruct ids; [|done]. destruct descending; constructor.
      - apply id_key_Ok in Hka as (sa & Hsa & ->).
        apply id_key_Ok in Hkb as (sb & Hsb & ->).
        destruct ids as [|s' ids]; [done|]. csimpl in Hids.
        injection Hids as Hb _. rewrite Hsb in Hb. injection Hb as <-.
        rewrite Hs' in Hsa. injection Hsa as <-.
        destruct descending; constructor; by apply key_le_str. }
    destruct descending; by constructor.
Qed.

Lemma assoc_policy_other token :
  VStr token ∉ policy_tokens → policy (VStr token) = (score_key, true).
Proof.
  unfold policy_tokens. rewrite !not_elem_of_cons.
  intros (H1 & H2 & H3 & H4 & H5 & _). unfold policy, policy_table. simpl.
  repeat (case_decide; [congruence|]). by case_decide.
Qed.

Lemma apply_sorting_policy_eq results sort_param :
  apply_sorting results sort_param
  = sorted (policy sort_param).1 (policy sort_param).2 results.
Proof.
  unfold apply_sorting.
  destruct (decide (sort_param ∈ policy_tokens)) as [Hin|Hout].
  - unfold policy_tokens in Hin. rewrite !elem_of_cons, elem_of_nil in Hin.
    destruct Hin as [->|[->|[->|[->|[->|[]]]]]]; reflexivity.
  - assert (policy sort_param = (score_key, true)) as ->.
    { destruct sort_param; try done. by apply assoc_policy_other. }
    unfold policy_tokens in Hout. rewrite !not_elem_of_cons in Hout.
    destruct Hout as (H1 & H2 & H3 & H4 & H5 & _).
    rewrite !decide_False; [done|done|done|tauto|done].
Qed.

Lemma string_le_transitive : Transitive string_le.
Proof. intros a b c. apply string_le_trans. Qed.

Lemma flip_string_le_transitive : Transitive (flip string_le).
Proof. intros a b c Hab Hbc. by apply (string_le_trans c b a). Qed.

(** C6.  [apply_sorting] sorts by the key and in the direction the table of
    policies gives for the sort parameter, and by the default policy for any
    parameter the table does not list; it returns whenever the keys are all
    defined and of one ordered kind.  What it returns is a permutation of
    the input, ordered by the key in that direction, in which documents of
    equal keys keep their input order.  The keys are: the date field, or the
    empty string when it is missing; the lower-cased identifier; the greatest
    string of gem5_versions, or ["0"] when that is missing or empty; the
    score, or 0 when it is missing.  For name and id_asc the lower-cased
    identifiers of the output ascend, for id_desc they descend. *)
Theorem apply_sorting_policy (results : list doc) (sort_param : value) :
  (comparable (policy sort_param).1 results →
   ∃ out, apply_sorting results sort_param = Ok out)
  ∧ (∀ out, apply_sorting results sort_param = Ok out →
       sorted_by (policy sort_param).1 (policy sort_param).2 out results)
  ∧ (sort_param ∉ policy_tokens →
       apply_sorting results sort_param = apply_sorting results (VStr "default"))
  ∧ (∀ out, sort_param = VStr "name" ∨ sort_param = VStr "id_asc" →
       apply_sorting results sort_param = Ok out →
       ∃ ids, lower_id <$> out = Some <$> ids ∧ StronglySorted string_le ids)
  ∧ (∀ out, sort_param = VStr "id_desc" →
       apply_sorting results sort_param = Ok out →
       ∃ ids, lower_id <$> out = Some <$> ids ∧ StronglySorted (flip string_le) ids)
  ∧ (∀ d, date_key d = Ok (default (VStr "") (d !! "date")))
  ∧ (∀ d s, d !! "id" = Some (VStr s) → id_key d = Ok (VStr (lower s)))
  ∧ (∀ d : doc, d !! "gem5_versions" = None → version_key d = Ok (VStr "0"))
  ∧ (∀ (d : doc) l, d !! "gem5_versions" = Some (VList l) →
       ∃ m, version_key d = Ok (VStr m) ∧ greatest_or "0" l m)
  ∧ (∀ d, score_key d = Ok (default (VInt 0) (d !! "score"))).
Proof.
  split_and!.
  - rewrite apply_sorting_policy_eq. apply sorted_total.
  - intros out. rewrite apply_sorting_policy_eq. apply sorted_spec.
  - intros Hout. rewrite !apply_sorting_policy_eq.
    destruct sort_param; try done. by rewrite assoc_policy_other.
  - intros out Hp. rewrite apply_sorting_policy_eq.
    assert (policy sort_param = (id_key, false)) as -> by by destruct Hp as [->| ->].
    intros (_ & Hall & Hs & _)%sorted_spec.
    destruct (sorted_lower_ids false out Hall Hs) as (ids & Hids & Hsorted).
    simpl in Hsorted. exists ids. split; [done|].
    apply Sorted_StronglySorted; [apply string_le_transitive|exact Hsorted].
  - intros out ->. rewrite apply_sorting_policy_eq.
    intros (_ & Hall & Hs & _)%sorted_spec.
    destruct (sorted_lower_ids true out Hall Hs) as (ids & Hids & Hsorted).
    simpl in Hsorted. exists ids. split; [done|].
    apply Sorted_StronglySorted; [apply flip_string_le_transitive|exact Hsorted].
  - done.
  - intros d s Hid. unfold id_key, get_or. by rewrite Hid.
  - intros d Hv. unfold version_key, get_or. by rewrite Hv.
  - intros d l Hv. unfold version_key, get_or. rewrite Hv. simpl_outcome.
    eexists. split; [done|]. apply max_of_spec.
  - done.
Qed.

Lemma apply_sorting_policy_witness :
  (∃ out ids, apply_sorting mixed_case_ids (VStr "id_asc") = Ok out
              ∧ lower_id <$> out = Some <$> ids ∧ StronglySorted string_le ids)
  ∧ apply_sorting mixed_case_ids (VStr "relevance")
    = apply_sorting mixed_case_ids (VStr "default").
Proof.
  destruct (apply_sorting_policy mixed_case_ids (VStr "id_asc"))
    as (Htotal & _ & _ & Hasc & _).
  destruct (apply_sorting_policy mixed_case_ids (VStr "relevance"))
    as (_ & _ & Hother & _).
  split.
  - destruct Htotal as [out Hout].
    + exists KStr. repeat constructor; by eexists.
    + destruct (Hasc out) as (ids & Hids & Hsorted); [by right|done|].
      by exists out, ids.
  - apply Hother. unfold policy_tokens. rewrite !not_elem_of_cons. 
    split_and!; try discriminate. apply not_elem_of_nil.
Defined.

(** The identifiers of [mixed_case_ids] in ascending order ignore the case. *)
Example apply_sorting_id_asc :
  apply_sorting mixed_case_ids (VStr "id_asc")
  = Ok [mk_doc "Alpha" "1.0.0" 2; mk_doc "alpha2" "1.0.0" 3; mk_doc "beta" "1.0.0" 1].
Proof. reflexivity. Qed.

(** ** Request validation *)

Lemma parse_pagination_400 params r :
  parse_pagination params = inl r → ∃ message, r = create_error_response 400 message.
Proof.
  unfold parse_pagination.
  destruct (int_param params "page" 1) as [page|];
    [destruct (int_param params "page-size" 10) as [page_size|]|];
    repeat case_bool_decide; intros [= <-]; by eexists.
Qed.


Lemma parse_pagination_valid params page page_size :
  parse_pagination params = inr (page, page_size) →
  1 ≤ page ∧ 1 ≤ page_size ≤ 100.
Proof.
  unfold parse_pagination.
  destruct (int_param params "page" 1) as [p|];
    [destruct (int_param params "page-size" 10) as [ps|]|];
    repeat case_bool_decide; intros [= <- <-]. lia.
Qed.


Lemma parse_groups_400 groups : ∀ query_object r,
  parse_groups groups query_object = inl r →
  ∃ message, r = create_error_response 400 message.
Proof.
  induction groups as [|g groups IH]; intros q r; simpl; [done|].
  repeat case_bool_decide; try (intros [= <-]; by eexists); try apply IH.
  destruct (all_truthy _); simpl; [apply IH|intros [= <-]; by eexists].
Qed.


Lemma parse_must_include_groups params query_object :
  parse_must_include
    (sanitize_must_include (default EmptyString (params !! "must-include")))
    query_object
  = parse_groups (must_include_groups params) query_object.
Proof.
  unfold parse_must_include, must_include_groups. by case_bool_decide.
Qed.



(** ** Filter translation *)

Lemma sanitize_id_nonempty v s : sanitize_id v = Some s → s ≠ EmptyString.
Proof.
  unfold sanitize_id. destruct (id_pattern (strip v)) eqn:Hp; [|done].
  intros [= <-] Hs. by rewrite Hs in Hp.
Qed.

Lemma all_truthy_Some vs :
  (∀ v, v ∈ vs → sanitize_id v ≠ None) → all_truthy (map sanitize_id vs) = true.
Proof.
  induction vs as [|v vs IH]; intros Hall; simpl; [done|].
  destruct (sanitize_id v) as [s|] eqn:Hv.
  - rewrite bool_decide_eq_true_2 by by eapply sanitize_id_nonempty.
    simpl. apply IH. intros w Hw. apply Hall. apply elem_of_cons. by right.
  - exfalso. apply (Hall v); [apply elem_of_cons; by left|done].
Qed.

Lemma parse_groups_app gs1 gs2 : ∀ q,
  parse_groups (gs1 ++ gs2) q
  = match parse_groups gs1 q with
    | inl r => inl r
    | inr q' => parse_groups gs2 q'
    end.
Proof.
  induction gs1 as [|g gs1 IH]; intros q; simpl; [done|].
  repeat case_bool_decide; try done; try apply IH.
  destruct (all_truthy _); simpl; [apply IH|done].
Qed.

Lemma parse_groups_well_formed clause gs q :
  well_formed_clause clause →
  ∃ values, parse_groups (clause :: gs) q
            = parse_groups gs (<[clause_field clause := VList values]> q).
Proof.
  intros (Hne & Hlen & Hvals). simpl.
  rewrite bool_decide_eq_false_2 by done.
  rewrite bool_decide_eq_false_2 by lia.
  rewrite (all_truthy_Some _ Hvals). simpl. by eexists.
Qed.

Lemma same_filters_insert q1 q2 field v :
  same_filters q1 q2 → same_filters (<[field := v]> q1) (<[field := v]> q2).
Proof.
  intros Hsame f Hf. destruct (decide (field = f)) as [->|Hne].
  - by rewrite !lookup_insert_eq.
  - rewrite !lookup_insert_ne by done. by apply Hsame.
Qed.

Lemma same_filters_insert_other q field v :
  field ∉ filter_fields → same_filters (<[field := v]> q) q.
Proof.
  intros Hf f Hin. rewrite lookup_insert_ne; [done|]. by intros ->.
Qed.

Lemma parse_groups_same gs : ∀ q1 q2,
  same_filters q1 q2 →
  match parse_groups gs q1, parse_groups gs q2 with
  | inl r1, inl r2 => r1 = r2
  | inr a, inr b => same_filters a b
  | _, _ => False
  end.
Proof.
  induction gs as [|g gs IH]; intros q1 q2 Hsame; simpl; [done|].
  repeat case_bool_decide; try done; try by apply IH.
  destruct (all_truthy _); simpl; [|done].
  by apply IH, same_filters_insert.
Qed.

Lemma build_odata_filter_same q1 q2 :
  same_filters q1 q2 → build_odata_filter q1 = build_odata_filter q2.
Proof.
  intros Hsame.
  assert (∀ f, f ∈ filter_fields → get q1 f = get q2 f) as Hget.
  { intros f Hf. unfold get, get_or. by rewrite (Hsame f Hf). }
  unfold build_odata_filter, scalar_group, collection_group, filter_fields in *.
  rewrite (Hget "category"), (Hget "architecture"), (Hget "tags"),
    (Hget "gem5_versions"); [done|..]; rewrite !elem_of_cons; tauto.
Qed.

Lemma parse_groups_unknown gs1 clause gs2 q :
  well_formed_clause clause → clause_field clause ∉ filter_fields →
  match parse_groups (gs1 ++ clause :: gs2) q, parse_groups (gs1 ++ gs2) q with
  | inl r1, inl r2 => r1 = r2
  | inr q1, inr q2 => same_filters q1 q2
  | _, _ => False
  end.
Proof.
  intros Hwf Hfield. rewrite !parse_groups_app.
  destruct (parse_groups gs1 q) as [r|q']; [done|].
  destruct (parse_groups_well_formed clause gs2 q' Hwf) as [values ->].
  by apply parse_groups_same, same_filters_insert_other.
Qed.

Lemma render_status results sort_param page page_size r :
  render results sort_param page page_size = Ok r → status_code r = 200.
Proof. by intros (? & _ & ->)%render_inv. Qed.

Lemma parse_pagination_agree (p1 p2 : gmap string string) :
  (∀ name, name ≠ "must-include" → p1 !! name = p2 !! name) →
  parse_pagination p1 = parse_pagination p2.
Proof.
  intros Hagree. unfold parse_pagination, int_param.
  by rewrite (Hagree "page"), (Hagree "page-size").
Qed.

(** C10.  Take two requests that differ only in that the must-include of
    the first holds one more clause, which is well formed (not empty, two
    tokens or more, every value accepted by [sanitize_id]) and names a field
    outside category, architecture, tags and gem5_versions.  Parsing the two
    lists of clauses fails alike or succeeds alike, and then the two query
    objects give the same filter expression; the handler makes the same
    calls to the backend for both requests, and it answers one with status
    400 exactly when it answers the other with status 400. *)
Theorem unknown_field_ignored
    (search : search_call → outcome (list doc))
    (p1 p2 : gmap string string) (gs1 : list string) (clause : string)
    (gs2 : list string) :
  (∀ name, name ≠ "must-include" → p1 !! name = p2 !! name) →
  must_include_groups p1 = gs1 ++ clause :: gs2 →
  must_include_groups p2 = gs1 ++ gs2 →
  well_formed_clause clause →
  clause_field clause ∉ filter_fields →
  (∀ q, match parse_groups (gs1 ++ clause :: gs2) q, parse_groups (gs1 ++ gs2) q with
        | inl r1, inl r2 => r1 = r2
        | inr q1, inr q2 => build_odata_filter q1 = build_odata_filter q2
        | _, _ => False
        end)
  ∧ (search_resources search p1).2 = (search_resources search p2).2
  ∧ (status_code (search_resources search p1).1 = 400
     ↔ status_code (search_resources search p2).1 = 400).
Proof.
  intros Hagree Hg1 Hg2 Hwf Hfield.
  assert (∀ q, match parse_groups (gs1 ++ clause :: gs2) q,
                     parse_groups (gs1 ++ gs2) q with
               | inl r1, inl r2 => r1 = r2
               | inr q1, inr q2 => build_odata_filter q1 = build_odata_filter q2
               | _, _ => False
               end) as Hparse.
  { intros q. pose proof (parse_groups_unknown gs1 clause gs2 q Hwf Hfield) as H.
    destruct (parse_groups (gs1 ++ clause :: gs2) q),
      (parse_groups (gs1 ++ gs2) q); try done.
    by apply build_odata_filter_same. }
  split; [exact Hparse|].
  unfold search_resources.
  rewrite (parse_pagination_agree p1 p2 Hagree).
  rewrite (Hagree "contains-str"), (Hagree "sort") by done.
  destruct (parse_pagination p2) as [r|[page page_size]]; [done|].
  rewrite !parse_must_include_groups, Hg1, Hg2.
  match goal with |- context [parse_groups (gs1 ++ gs2) ?q] =>
    specialize (Hparse q);
    destruct (parse_groups (gs1 ++ clause :: gs2) q) as [r1|q1],
      (parse_groups (gs1 ++ gs2) q) as [r2|q2]; try done end.
  { by subst. }
  rewrite Hparse. destruct (build_odata_filter q2) as [odata_filter|]; [|done].
  destruct (build_search_text _) as [text qtype].
  destruct (search _) as [results|]; simpl_outcome; [|done].
  destruct (render results (get_or q1 "sort" (VStr "default")) page page_size)
    as [r1|] eqn:Hr1;
  destruct (render results (get_or q2 "sort" (VStr "default")) page page_size)
    as [r2|] eqn:Hr2; simpl;
    try apply render_status in Hr1; try apply render_status in Hr2;
    (split; [done|]); rewrite ?Hr1, ?Hr2; done.
Qed.

Lemma unknown_field_ignored_witness :
  (search_resources fixed_backend {[ "must-include" := "category,a;foo,x" ]}).2
  = (search_resources fixed_backend {[ "must-include" := "category,a" ]}).2.
Proof.
  apply (unknown_field_ignored fixed_backend
           {[ "must-include" := "category,a;foo,x" ]}
           {[ "must-include" := "category,a" ]}
           ["category,a"] "foo,x" []).
  - intros name Hname. by rewrite !lookup_singleton_ne.
  - reflexivity.
  - reflexivity.
  - split_and!; [discriminate|vm_compute; lia|].
    intros v [->|[]%elem_of_nil]%elem_of_cons. discriminate.
  - unfold filter_fields. rewrite !not_elem_of_cons.
    split_and!; try discriminate. apply not_elem_of_nil.
Defined.

(** The clause of the unknown field leaves the filter of the call as it is. *)
Example unknown_field_call :
  call_filter <$> (search_resources fixed_backend
                     {[ "must-include" := "category,a;foo,x" ]}).2
  = [Some "category eq 'a'"].
Proof. reflexivity. Qed.

(** * Further properties of the code *)

(** ** Strings *)

Lemma str_forall_filter p s : str_forall p (str_filter p s) = true.
Proof.
  induction s as [|c s IH]; simpl; [done|].
  destruct (p c) eqn:Hc; simpl; [by rewrite Hc|done].
Qed.

Lemma str_forall_prefix p n : ∀ s,
  str_forall p s = true → str_forall p (prefix n s) = true.
Proof.
  induction n as [|n IH]; intros [|c s]; simpl; try done.
  intros [Hc Hs]%andb_true_iff. rewrite Hc. simpl. by apply IH.
Qed.

Lemma length_prefix n : ∀ s, (String.length (prefix n s) ≤ n)%nat.
Proof.
  induction n as [|n IH]; intros [|c s]; simpl; try lia.
  specialize (IH s). lia.
Qed.

Lemma prefix_short n : ∀ s, (String.length s ≤ n)%nat → prefix n s = s.
Proof.
  induction n as [|n IH]; intros [|c s]; simpl; try done; try lia.
  intros Hlen. f_equal. apply IH. lia.
Qed.

Lemma str_forall_impl (p q : ascii → bool) s :
  (∀ c, p c = true → q c = true) → str_forall p s = true → str_forall q s = true.
Proof.
  intros Hpq. induction s as [|c s IH]; simpl; [done|].
  intros [Hc Hs]%andb_true_iff. by rewrite (Hpq c Hc), IH.
Qed.

Lemma lstrip_head_free sp s : head_free sp (lstrip_with sp s) = true.
Proof.
  induction s as [|c s IH]; simpl; [done|].
  destruct (sp c) eqn:Hc; simpl; [done|by rewrite Hc].
Qed.

Lemma lstrip_id sp s : head_free sp s = true → lstrip_with sp s = s.
Proof. destruct s as [|c s]; simpl; [done|]. by intros ->%negb_true_iff. Qed.

Lemma rstrip_cons sp c s :
  rstrip_with sp (String c s)
  = match rstrip_with sp s with
    | EmptyString => if sp c then EmptyString else chr c
    | r => String c r
    end.
Proof. reflexivity. Qed.

Lemma rstrip_last_free sp s : last_free sp (rstrip_with sp s) = true.
Proof.
  induction s as [|c s IH]; [done|]. rewrite rstrip_cons.
  destruct (rstrip_with sp s) as [|c' r] eqn:Hr.
  - destruct (sp c) eqn:Hc; simpl; [done|by rewrite Hc].
  - exact IH.
Qed.

Lemma rstrip_id sp s : last_free sp s = true → rstrip_with sp s = s.
Proof.
  induction s as [|c s IH]; [done|]. rewrite rstrip_cons.
  destruct s as [|c' s].
  - simpl. by intros ->%negb_true_iff.
  - intros H. by rewrite IH.
Qed.

Lemma rstrip_head_free sp s :
  head_free sp s = true → head_free sp (rstrip_with sp s) = true.
Proof.
  destruct s as [|c s]; [done|]. rewrite rstrip_cons. simpl. intros Hc.
  destruct (rstrip_with sp s); [|done].
  apply negb_true_iff in Hc. rewrite Hc. simpl. by rewrite Hc.
Qed.

Lemma strip_head_free s : head_free is_space (strip s) = true.
Proof. apply rstrip_head_free, lstrip_head_free. Qed.

Lemma strip_last_free s : last_free is_space (strip s) = true.
Proof. apply rstrip_last_free. Qed.

Lemma strip_id s :
  head_free is_space s = true → last_free is_space s = true → strip s = s.
Proof. intros Hh Hl. unfold strip. by rewrite lstrip_id, rstrip_id. Qed.

Lemma strip_idempotent s : strip (strip s) = strip s.
Proof. apply strip_id; [apply strip_head_free|apply strip_last_free]. Qed.

Lemma str_forall_lstrip p sp s :
  str_forall p s = true → str_forall p (lstrip_with sp s) = true.
Proof.
  induction s as [|c s IH]; simpl; [done|].
  intros [Hc Hs]%andb_true_iff. destruct (sp c); [by apply IH|].
  simpl. by rewrite Hc, Hs.
Qed.

Lemma str_forall_rstrip p sp s :
  str_forall p s = true → str_forall p (rstrip_with sp s) = true.
Proof.
  induction s as [|c s IH]; [done|]. rewrite rstrip_cons. simpl.
  intros [Hc Hs]%andb_true_iff. specialize (IH Hs).
  destruct (rstrip_with sp s) as [|c' r].
  - destruct (sp c); simpl; [done|by rewrite Hc].
  - change (p c && str_forall p (String c' r) = true). by rewrite Hc, IH.
Qed.

Lemma chomp_last_free s : last_free is_space s = true → chomp s = s.
Proof.
  induction s as [|c s IH]; [done|]. destruct s as [|c' s].
  - simpl. intros Hc. destruct (code c =? 10)%N eqn:E; [|done].
    apply N.eqb_eq in E. unfold is_space, in_range in Hc. rewrite E in Hc. done.
  - intros H. change (String c (chomp (String c' s)) = String c (String c' s)).
    by rewrite IH.
Qed.

Lemma no_space_free p s :
  (∀ c, p c = true → is_space c = false) → str_forall p s = true →
  head_free is_space s = true ∧ last_free is_space s = true.
Proof.
  intros Hp. induction s as [|c s IH]; [done|]. simpl.
  intros [Hc Hs]%andb_true_iff. rewrite (Hp c Hc). split; [done|].
  destruct s; [done|]. by apply IH.
Qed.

Lemma split_cons sep c s :
  split sep (String c s)
  = if Ascii.eqb c sep then EmptyString :: split sep s
    else match split sep s with
         | w :: ws => String c w :: ws
         | [] => [chr c]
         end.
Proof. reflexivity. Qed.

Lemma split_nonempty sep s : split sep s ≠ [].
Proof.
  induction s as [|c s IH]; [done|]. rewrite split_cons.
  destruct (Ascii.eqb c sep); [done|]. by destruct (split sep s).
Qed.

Lemma split_forall p sep s :
  str_forall p s = true →
  Forall (λ w, str_forall (λ c, p c && negb (Ascii.eqb c sep)) w = true) (split sep s).
Proof.
  induction s as [|c s IH]; [by repeat constructor|]. rewrite split_cons. simpl.
  intros [Hc Hs]%andb_true_iff. specialize (IH Hs).
  destruct (Ascii.eqb c sep) eqn:E; [by constructor|].
  destruct (split sep s) as [|w ws]; [repeat constructor; simpl; by rewrite Hc, E|].
  apply Forall_cons in IH as [Hw Hws]. constructor; [|done].
  simpl. by rewrite Hc, E, Hw.
Qed.

(** ** The sanitizers of [shared/utils.py] *)

Lemma pattern_strip (p : ascii → bool) (lo hi : nat) v :
  (str_forall p (chomp (strip v))
   && bool_decide (lo ≤ String.length (chomp (strip v)) ≤ hi)%nat) = true
  ↔ str_forall p (strip v) = true ∧ (lo ≤ String.length (strip v) ≤ hi)%nat.
Proof.
  rewrite (chomp_last_free _ (strip_last_free v)).
  rewrite andb_true_iff, bool_decide_eq_true. done.
Qed.

Lemma sanitize_id_spec w s :
  sanitize_id w = Some s ↔
  s = strip w ∧ str_forall id_char s = true ∧ (1 ≤ String.length s ≤ 100)%nat.
Proof.
  unfold sanitize_id, id_pattern.
  pose proof (pattern_strip id_char 1 100 w) as Hp. unfold id_char in *.
  destruct (_ && _).
  - split.
    + intros [= <-]. split; [done|]. by apply Hp.
    + by intros [-> _].
  - split; [done|]. intros (-> & H). by apply Hp in H.
Qed.

(** X1.  On a value of ASCII characters, [sanitize_id] accepts the value
    exactly when, once stripped, it has 1 to 100 characters, all of them
    word characters, dashes or dots, and then returns the stripped value;
    the leniency of [$] for a final newline never applies.  An accepted
    value is accepted unchanged when sanitized again.  (On other values the
    class [\w] of the code holds more characters than [is_word].) *)
Theorem sanitize_id_accepts (v : string) :
  ascii_only v = true →
  (∀ s, sanitize_id v = Some s ↔
        s = strip v ∧ str_forall id_char s = true
        ∧ (1 ≤ String.length s ≤ 100)%nat)
  ∧ (∀ s, sanitize_id v = Some s → ascii_only s = true ∧ sanitize_id s = Some s).
Proof.
  intros Hascii. split; [apply sanitize_id_spec|].
  intros s (-> & Hchars & Hlen)%sanitize_id_spec. split.
  - unfold ascii_only, strip. by apply str_forall_rstrip, str_forall_lstrip.
  - apply sanitize_id_spec. by rewrite strip_idempotent.
Qed.

Lemma sanitize_id_accepts_witness :
  sanitize_id "  x86-ubuntu.18  " = Some "x86-ubuntu.18"
  ∧ sanitize_id "x86-ubuntu.18" = Some "x86-ubuntu.18".
Proof.
  destruct (sanitize_id_accepts "  x86-ubuntu.18  ") as [Hspec Hidem];
    [reflexivity|].
  assert (sanitize_id "  x86-ubuntu.18  " = Some "x86-ubuntu.18") as H.
  { apply Hspec. split_and!; [reflexivity|reflexivity|simpl; lia|simpl; lia]. }
  split; [exact H|]. exact (proj2 (Hidem _ H)).
Defined.




Lemma sanitize_must_include_chars v :
  str_forall must_include_char (sanitize_must_include v) = true.
Proof. apply str_forall_prefix, str_forall_filter. Qed.

(** X3.  What [sanitize_contains_str] and [sanitize_must_include] return is
    at most 200, respectively 500, characters long and holds only characters
    of the kept class; a value that is already so, and has no white space at
    its ends, is returned as it is. *)
Theorem sanitized_text_bounds (v : string) :
  (String.length (sanitize_contains_str v) ≤ 200)%nat
  ∧ str_forall contains_char (sanitize_contains_str v) = true
  ∧ (String.length (sanitize_must_include v) ≤ 500)%nat
  ∧ str_forall must_include_char (sanitize_must_include v) = true
  ∧ (strip v = v → str_forall contains_char v = true →
     (String.length v ≤ 200)%nat → sanitize_contains_str v = v)
  ∧ (str_forall must_include_char v = true →
     (String.length v ≤ 500)%nat → sanitize_must_include v = v).
Proof.
  assert (∀ p s, str_forall p s = true → str_filter p s = s) as Hfilter.
  { intros p s. induction s as [|c s IH]; simpl; [done|].
    intros [Hc Hs]%andb_true_iff. by rewrite Hc, IH. }
  unfold sanitize_contains_str, sanitize_must_include. split_and!.
  - apply length_prefix.
  - apply str_forall_prefix, str_forall_filter.
  - apply length_prefix.
  - apply str_forall_prefix, str_forall_filter.
  - intros -> Hchars Hlen. by rewrite Hfilter, prefix_short.
  - intros Hchars Hlen.
    destruct (no_space_free must_include_char v) as [Hh Hl]; [|done|].
    { intros c. by destruct c as [[] [] [] [] [] [] [] []]. }
    by rewrite strip_id, Hfilter, prefix_short.
Qed.

Lemma sanitized_text_bounds_witness :
  sanitize_contains_str "x86 ubuntu" = "x86 ubuntu"
  ∧ sanitize_must_include "category,kernel;tags,a.b" = "category,kernel;tags,a.b".
Proof.
  split.
  - destruct (sanitized_text_bounds "x86 ubuntu") as (_ & _ & _ & _ & Hid & _).
    apply Hid; [reflexivity|reflexivity|simpl; lia].
  - destruct (sanitized_text_bounds "category,kernel;tags,a.b")
      as (_ & _ & _ & _ & _ & Hid).
    apply Hid; [reflexivity|simpl; lia].
Defined.

(** ** The must-include parameter in the handler *)

Lemma must_include_value_chars c :
  (must_include_char c && negb (Ascii.eqb c ";")) && negb (Ascii.eqb c ",") = true →
  id_char c = true ∧ is_space c = false.
Proof. by destruct c as [[] [] [] [] [] [] [] []]. Qed.

Lemma must_include_groups_chars params group :
  group ∈ must_include_groups params →
  str_forall (λ c, must_include_char c && negb (Ascii.eqb c ";")) group = true.
Proof.
  unfold must_include_groups. case_bool_decide; [|by intros ?%elem_of_nil].
  intros Hin.
  pose proof (split_forall must_include_char ";" _
                (sanitize_must_include_chars
                   (default EmptyString (params !! "must-include")))) as Hall.
  rewrite Forall_forall in Hall. by apply Hall.
Qed.

(** X4.  In the handler the values of a must-include clause hold only word
    characters, dashes and dots, whatever the request: [sanitize_id] can
    reject one only for its length, when it is empty or longer than 100
    characters, and returns any other unchanged. *)
Theorem must_include_value_length
    (params : gmap string string) (group v : string) :
  group ∈ must_include_groups params → v ∈ split "," group →
  str_forall id_char v = true
  ∧ sanitize_id v
    = if bool_decide (1 ≤ String.length v ≤ 100)%nat then Some v else None.
Proof.
  intros Hgroup Hv.
  pose proof (split_forall _ "," _ (must_include_groups_chars _ _ Hgroup)) as Hall.
  rewrite Forall_forall in Hall. specialize (Hall v Hv).
  assert (str_forall id_char v = true) as Hid.
  { eapply str_forall_impl; [|exact Hall]. intros c Hc.
    by apply must_include_value_chars. }
  destruct (no_space_free _ v (λ c Hc, proj2 (must_include_value_chars c Hc)) Hall)
    as [Hh Hl].
  split; [done|].
  destruct (sanitize_id v) as [s|] eqn:Hs.
  - apply sanitize_id_spec in Hs as (-> & _ & Hlen).
    rewrite strip_id in * by done. by rewrite bool_decide_eq_true_2.
  - case_bool_decide as Hlen; [|done].
    assert (sanitize_id v = Some v) as H; [|congruence].
    apply sanitize_id_spec. by rewrite strip_id.
Qed.

Lemma must_include_value_length_witness :
  sanitize_id "x86" = Some "x86" ∧ sanitize_id "" = None.
Proof.
  split.
  - destruct (must_include_value_length {[ "must-include" := "architecture, x86" ]}
                "architecture,x86" "x86") as [_ H].
    + vm_compute. apply elem_of_cons. by left.
    + vm_compute. apply elem_of_cons. right. apply elem_of_cons. by left.
    + exact H.
  - destruct (must_include_value_length {[ "must-include" := "architecture," ]}
                "architecture," "") as [_ H].
    + vm_compute. apply elem_of_cons. by left.
    + vm_compute. apply elem_of_cons. right. apply elem_of_cons. by left.
    + exact H.
Defined.

Lemma sanitize_id_idempotent v s : sanitize_id v = Some s → sanitize_id s = Some s.
Proof.
  intros (-> & Hchars & Hlen)%sanitize_id_spec. apply sanitize_id_spec.
  by rewrite strip_idempotent.
Qed.

Lemma all_truthy_values vs :
  all_truthy (map sanitize_id vs) = true →
  length (omap id (map sanitize_id vs)) = length vs
  ∧ Forall (λ v, sanitize_id v = Some v) (omap id (map sanitize_id vs)).
Proof.
  induction vs as [|v vs IH]; simpl; [by split|].
  destruct (sanitize_id v) as [s|] eqn:Hs; [|done].
  intros [_ Hrest]%andb_true_iff. destruct (IH Hrest) as [Hlen Hall].
  split; [simpl; by f_equal|].
  constructor; [by eapply sanitize_id_idempotent|done].
Qed.

Lemma parse_groups_inv groups : ∀ q q',
  parse_groups groups q = inr q' →
  ∀ field, q' !! field = q !! field
           ∨ ∃ values, q' !! field = Some (VList values) ∧ values ≠ []
                       ∧ Forall (λ v, sanitize_id v = Some v) values.
Proof.
  induction groups as [|g groups IH]; intros q q'; simpl.
  - intros [= <-] field. by left.
  - case_bool_decide; [apply IH|].
    case_bool_decide as Hlen; [done|].
    destruct (all_truthy _) eqn:Hall; simpl; [|done].
    intros Hrest field. destruct (all_truthy_values _ Hall) as [Hlength Hclean].
    destruct (IH _ _ Hrest field) as [Heq|Hlist]; [|by right].
    destruct (decide (hd EmptyString (split "," g) = field)) as [<-|Hne].
    + right. rewrite lookup_insert_eq in Heq. eexists. split_and!; [done| |done].
      intros Hnil. rewrite Hnil in Hlength. simpl in Hlength.
      destruct (split "," g) as [|? [|? ?]]; simpl in *; lia.
    + left. by rewrite lookup_insert_ne in Heq.
Qed.

(** X5.  When the loop over the must-include groups succeeds, every entry of
    the query object is either as it was or a list written by the loop, and
    such a list is not empty and holds only values that [sanitize_id] returns
    unchanged, so only word characters, dashes and dots. *)
Theorem parse_groups_entries (groups : list string) (q q' : doc) :
  parse_groups groups q = inr q' →
  ∀ field, q' !! field = q !! field
           ∨ ∃ values, q' !! field = Some (VList values) ∧ values ≠ []
                       ∧ Forall (λ v, sanitize_id v = Some v
                                      ∧ str_forall id_char v = true) values.
Proof.
  intros Hparse field.
  destruct (parse_groups_inv _ _ _ Hparse field) as [?|(vs & Hvs & Hne & Hall)];
    [by left|right].
  exists vs. split_and!; [done|done|].
  eapply Forall_impl; [exact Hall|]. intros v Hv. split; [done|].
  by apply sanitize_id_spec in Hv as (_ & ? & _).
Qed.

Lemma parse_groups_entries_witness :
  ∃ q', parse_groups ["tags,a,b"; "foo,x"] ∅ = inr q'
        ∧ q' !! "tags" = Some (VList ["a"; "b"]) ∧ q' !! "category" = None.
Proof.
  eexists. split; [reflexivity|].
  pose proof (parse_groups_entries ["tags,a,b"; "foo,x"] ∅ _ eq_refl) as H.
  split.
  - destruct (H "tags") as [Heq|(vs & Hvs & _)]; [|reflexivity].
    exfalso. vm_compute in Heq. discriminate.
  - destruct (H "category") as [Heq|(vs & Hvs & _)]; [reflexivity|].
    exfalso. vm_compute in Hvs. discriminate.
Defined.

(** ** [build_odata_filter] *)

Lemma scalar_group_lists q field :
  q !! field = None ∨ (∃ values, q !! field = Some (VList values)) →
  ∃ g, scalar_group q field = Ok g.
Proof.
  unfold scalar_group, get, get_or.
  intros [->|[values ->]]; simpl; [by eexists|].
  case_bool_decide; simpl; [|by eexists].
  simpl_outcome. destruct values as [|? [|? ?]]; by eexists.
Qed.

Lemma collection_group_lists q field var :
  q !! field = None ∨ (∃ values, q !! field = Some (VList values)) →
  ∃ g, collection_group q field var = Ok g.
Proof.
  unfold collection_group, get, get_or.
  intros [->|[values ->]]; simpl; [by eexists|].
  case_bool_decide; simpl; by eexists.
Qed.

Lemma build_odata_filter_lists q :
  filter_lists q → ∃ f, build_odata_filter q = Ok f.
Proof.
  intros Hq. unfold build_odata_filter.
  destruct (scalar_group_lists q "category") as [f1 ->].
  { apply Hq. unfold filter_fields. rewrite !elem_of_cons. tauto. }
  destruct (scalar_group_lists q "architecture") as [f2 ->].
  { apply Hq. unfold filter_fields. rewrite !elem_of_cons. tauto. }
  destruct (collection_group_lists q "tags" "t") as [f3 ->].
  { apply Hq. unfold filter_fields. rewrite !elem_of_cons. tauto. }
  destruct (collection_group_lists q "gem5_versions" "v") as [f4 ->].
  { apply Hq. unfold filter_fields. rewrite !elem_of_cons. tauto. }
  simpl_outcome. case_bool_decide; by eexists.
Qed.

Lemma scalar_group_empty q field g :
  scalar_group q field = Ok g → (g = [] ↔ truthy (get q field) = false).
Proof.
  unfold scalar_group. destruct (truthy (get q field)); [|by intros [= <-]].
  destruct (iter (get q field)) as [vs|]; simpl_outcome; [|done].
  destruct vs as [|? [|? ?]]; by intros [= <-].
Qed.

Lemma collection_group_empty q field var g :
  collection_group q field var = Ok g → (g = [] ↔ truthy (get q field) = false).
Proof.
  unfold collection_group. destruct (truthy (get q field)); [|by intros [= <-]].
  destruct (iter (get q field)) as [vs|]; simpl_outcome; [|done].
  by intros [= <-].
Qed.

(** X6.  [build_odata_filter] reads the entries category, architecture, tags
    and gem5_versions only; it raises on no query object whose four entries
    are absent or lists; and it returns no filter exactly when the four
    entries are all falsy (absent, [None] or empty). *)
Theorem build_odata_filter_fields (q : doc) :
  (∀ q2, same_filters q q2 → build_odata_filter q = build_odata_filter q2)
  ∧ (filter_lists q → ∃ f, build_odata_filter q = Ok f)
  ∧ (build_odata_filter q = Ok None ↔
     (∃ f, build_odata_filter q = Ok f)
     ∧ ∀ field, field ∈ filter_fields → truthy (get q field) = false).
Proof.
  split_and!.
  - apply build_odata_filter_same.
  - apply build_odata_filter_lists.
  - unfold build_odata_filter, filter_fields.
    destruct (scalar_group q "category") as [f1|] eqn:H1; simpl_outcome;
      [|split; [done|by intros [[? ?] _]]].
    destruct (scalar_group q "architecture") as [f2|] eqn:H2; simpl_outcome;
      [|split; [done|by intros [[? ?] _]]].
    destruct (collection_group q "tags" "t") as [f3|] eqn:H3; simpl_outcome;
      [|split; [done|by intros [[? ?] _]]].
    destruct (collection_group q "gem5_versions" "v") as [f4|] eqn:H4; simpl_outcome;
      [|split; [done|by intros [[? ?] _]]].
    apply scalar_group_empty in H1, H2. apply collection_group_empty in H3, H4.
    case_bool_decide as Hne; split.
    + done.
    + intros [_ Hall]. exfalso. apply Hne.
      rewrite (proj2 H1), (proj2 H2), (proj2 H3), (proj2 H4); [done|..];
        apply Hall; rewrite !elem_of_cons; tauto.
    + intros _. split; [by eexists|].
      assert (f1 ++ f2 ++ f3 ++ f4 = []) as Hnil.
      { destruct (decide (f1 ++ f2 ++ f3 ++ f4 = [])); [done|by destruct Hne]. }
      apply app_eq_nil in Hnil as [E1 Hnil]. apply app_eq_nil in Hnil as [E2 Hnil].
      apply app_eq_nil in Hnil as [E3 E4].
      intros field. rewrite !elem_of_cons, elem_of_nil.
      intros [->|[->|[->|[->|[]]]]]; [by apply H1|by apply H2|by apply H3|by apply H4].
    + done.
Qed.

Lemma build_odata_filter_fields_witness :
  build_odata_filter {[ "query" := VStr "x"; "tags" := VList [] ]} = Ok None.
Proof.
  destruct (build_odata_filter_fields {[ "query" := VStr "x"; "tags" := VList [] ]})
    as (_ & Hlists & Hnone).
  apply Hnone. split.
  - apply Hlists. intros field.
    unfold filter_fields. rewrite !elem_of_cons, elem_of_nil.
    intros [->|[->|[->|[->|[]]]]]; [by left|by left|right; by eexists|by left].
  - intros field. unfold filter_fields. rewrite !elem_of_cons, elem_of_nil.
    intros [->|[->|[->|[->|[]]]]]; reflexivity.
Defined.

(** ** The handler [search_resources] *)

Lemma filter_lists_initial (query sort : value) :
  filter_lists {[ "query" := query; "sort" := sort ]}.
Proof.
  intros field. unfold filter_fields. rewrite !elem_of_cons, elem_of_nil.
  intros [->|[->|[->|[->|[]]]]]; by left.
Qed.

Lemma parse_groups_filter_lists groups q q' :
  filter_lists q → parse_groups groups q = inr q' → filter_lists q'.
Proof.
  intros Hq Hparse field Hfield.
  destruct (parse_groups_inv _ _ _ Hparse field) as [->|(vs & -> & _)];
    [by apply Hq|right; by eexists].
Qed.

(** The handler either rejects the request, or makes one call and renders
    what the call returns. *)
Lemma search_resources_cases
    (search : search_call → outcome (list doc)) (params : gmap string string) :
  (∃ message, search_resources search params = (create_error_response 400 message, []))
  ∨ ∃ page page_size sort_value call,
      1 ≤ page ∧ 1 ≤ page_size ≤ 100
      ∧ call_top call = 1000 ∧ call_include_total_count call = true
      ∧ call_search_text call
        = (build_search_text
             (sanitize_contains_str
                (strip (default EmptyString (params !! "contains-str"))))).1
      ∧ search_resources search params
        = match results ← search call; render results sort_value page page_size with
          | Ok r => (r, [call])
          | Raise _ => (internal_error, [call])
          end.
Proof.
  unfold search_resources.
  destruct (parse_pagination params) as [r|[page page_size]] eqn:Hpage.
  { left. destruct (parse_pagination_400 _ _ Hpage) as [message ->]. by exists message. }
  apply parse_pagination_valid in Hpage as [Hp Hs].
  rewrite parse_must_include_groups.
  match goal with |- context [parse_groups _ ?q] =>
    destruct (parse_groups (must_include_groups params) q) as [r|q'] eqn:Hparse end.
  { left. destruct (parse_groups_400 _ _ _ Hparse) as [message ->]. by exists message. }
  apply parse_groups_filter_lists in Hparse; [|apply filter_lists_initial].
  destruct (build_odata_filter_lists q' Hparse) as [odata_filter ->].
  right. destruct (build_search_text _) as [text qtype] eqn:Htext.
  exists page, page_size, (get_or q' "sort" (VStr "default")),
    {| call_search_text := text; call_filter := odata_filter;
       call_include_total_count := true; call_top := 1000;
       call_query_type := qtype |}.
  split_and!; try done; lia.
Qed.

(** X7.  The handler answers with status 400 and an error object without
    calling the backend, or it calls the backend exactly once, asking for the
    total count and at most 1000 results, and then answers with status 200,
    or with status 500 and the message [Internal server error]; it answers
    500 whenever the backend raises, and never without having called it. *)
Theorem search_resources_outcomes
    (search : search_call → outcome (list doc)) (params : gmap string string) :
  (∃ message, search_resources search params = (create_error_response 400 message, []))
  ∨ ∃ call,
      (search_resources search params).2 = [call]
      ∧ call_top call = 1000 ∧ call_include_total_count call = true
      ∧ ((∃ e, search call = Raise e)
         → (search_resources search params).1 = internal_error)
      ∧ (status_code (search_resources search params).1 = 200
         ∨ (search_resources search params).1 = internal_error).
Proof.
  destruct (search_resources_cases search params)
    as [?|(page & page_size & sort_value & call & _ & _ & Htop & Hcount & _ & ->)];
    [by left|right].
  exists call.
  destruct (search call) as [results|e]; simpl_outcome.
  - destruct (render results sort_value page page_size) as [r|] eqn:Hr; simpl.
    + split_and!; [done|done|done|by intros [? ?]|].
      left. by apply render_status in Hr.
    + split_and!; [done|done|done|done|by right].
  - split_and!; [done|done|done|done|by right].
Qed.

Lemma search_resources_outcomes_witness :
  (search_resources (λ _, Raise BackendError) ∅).1 = internal_error.
Proof.
  destruct (search_resources_outcomes (λ _, Raise BackendError) ∅)
    as [[message H]|(call & _ & _ & _ & Hraise & _)].
  - exfalso. vm_compute in H. discriminate.
  - apply Hraise. by exists BackendError.
Defined.

Lemma keep_latest_versions_ids results out :
  keep_latest_versions results = Ok out →
  NoDup ((λ r, get r "id") <$> out)
  ∧ Forall (λ r, truthy (get r "id") = true) out
  ∧ (length out ≤ length results)%nat.
Proof.
  intros (acc & Hinv & ->)%keep_latest_versions_inv.
  destruct Hinv as [Hnd Hkey Hlat Hpres Hsc Hdom]. split_and!.
  - rewrite with_score_ids; [done|]. intros k e Hin. by apply Hkey.
  - apply Forall_fmap, Forall_forall. intros [k e] Hin. simpl.
    rewrite with_score_id. simpl. by destruct (Hkey k e Hin) as [-> ?].
  - rewrite length_map, <- (length_fmap fst).
    assert ((latest_by_id acc).*1 ⊆ (λ d, get d "id") <$> results) as Hsub.
    { intros k [e Hin]%elem_of_keys.
      pose proof (first_latest_max e _ e (Hlat k e Hin)) as _.
      destruct (Hlat k e Hin) as (l1 & l2 & Hcand & _).
      assert (e ∈ candidates k results) as [Hid He]%elem_of_candidates.
      { rewrite Hcand. apply elem_of_app. right. apply elem_of_cons. by left. }
      apply list_elem_of_fmap. by exists e. }
    rewrite <- (length_fmap (λ d, get d "id") results).
    by apply submseteq_length, NoDup_submseteq.
Qed.

Lemma clean_up_id (d : doc) : get (clean_up d) "id" = get d "id".
Proof. unfold get, get_or. by rewrite clean_up_lookup. Qed.

Lemma paginate_sublist (l : list doc) page page_size :
  paginate l page page_size `sublist_of` l.
Proof.
  unfold paginate, slice. etrans; [apply sublist_take|apply sublist_drop].
Qed.

Lemma paginate_length (l : list doc) page page_size :
  1 ≤ page → 1 ≤ page_size →
  (length (paginate l page page_size) ≤ Z.to_nat page_size)%nat.
Proof.
  intros Hp Hs. unfold paginate. rewrite slice_take_drop by nia.
  rewrite length_take. lia.
Qed.

Lemma apply_sorting_perm results sort_param out :
  apply_sorting results sort_param = Ok out → out ≡ₚ results.
Proof.
  rewrite apply_sorting_policy_eq. by intros (? & _)%sorted_spec.
Qed.

(** X8.  In a response of status 200 the documents have pairwise distinct
    identifiers, none of them falsy, and each carries the tag
    [database = gem5-vision]; they are at most 100, and at most as many as
    the total count, which is itself at most the number of raw documents the
    backend returned. *)
Theorem search_resources_documents
    (search : search_call → outcome (list doc)) (params : gmap string string) :
  status_code (search_resources search params).1 = 200 →
  let documents := documents_of (search_resources search params).1 in
  NoDup ((λ d, get d "id") <$> documents)
  ∧ Forall (λ d, truthy (get d "id") = true
                 ∧ d !! "database" = Some (VStr "gem5-vision")) documents
  ∧ (length documents ≤ 100)%nat
  ∧ ∃ total call results,
      total_count_of (search_resources search params).1 = Some total
      ∧ (length documents ≤ total)%nat
      ∧ (search_resources search params).2 = [call]
      ∧ search call = Ok results
      ∧ (total ≤ length results)%nat.
Proof.
  destruct (search_resources_cases search params)
    as [[message ->]|(page & page_size & sort_value & call
                      & Hp & Hs & _ & _ & _ & ->)]; [done|].
  destruct (search call) as [results|e] eqn:Hcall; simpl_outcome; [|done].
  destruct (render results sort_value page page_size) as [r|] eqn:Hr; simpl; [|done].
  intros _. apply render_inv in Hr as (sorted_resources & Hranked & ->).
  unfold documents_of, total_count_of. simpl.
  unfold ranked in Hranked.
  destruct (keep_latest_versions _) as [unique|] eqn:Hkeep; simpl_outcome; [|done].
  apply keep_latest_versions_ids in Hkeep as (Hnd & Hids & Hlen).
  apply apply_sorting_perm in Hranked as Hperm.
  pose proof (paginate_sublist sorted_resources page page_size) as Hsub.
  assert ((λ d, get d "id") <$> (clean_up <$> paginate sorted_resources page page_size)
          = (λ d, get d "id") <$> paginate sorted_resources page page_size) as Hclean.
  { rewrite <- list_fmap_compose. apply list_fmap_ext. intros ? d _. apply clean_up_id. }
  split_and!.
  - rewrite Hclean.
    apply (sublist_NoDup _ ((λ d, get d "id") <$> sorted_resources)).
    + by rewrite Hperm.
    + by apply fmap_sublist.
  - apply Forall_fmap, Forall_forall. intros d Hd. simpl. split.
    + rewrite clean_up_id. rewrite Forall_forall in Hids. apply Hids.
      rewrite <- Hperm. eapply elem_of_sublist; [exact Hd|exact Hsub].
    + by rewrite clean_up_lookup.
  - rewrite length_fmap.
    pose proof (paginate_length sorted_resources page page_size). lia.
  - exists (length sorted_resources), call, results. split_and!; try done.
    + rewrite length_fmap. by apply sublist_length.
    + rewrite Hperm. by rewrite length_map in Hlen.
Qed.

Lemma search_resources_documents_witness :
  NoDup ((λ d, get d "id")
           <$> documents_of (search_resources fixed_backend {[ "page-size" := "2" ]}).1).
Proof.
  apply (search_resources_documents fixed_backend {[ "page-size" := "2" ]}).
  reflexivity.
Defined.

(** *** The sort parameter *)

Lemma parse_pagination_ext (p1 p2 : gmap string string) :
  p1 !! "page" = p2 !! "page" → p1 !! "page-size" = p2 !! "page-size" →
  parse_pagination p1 = parse_pagination p2.
Proof. intros H1 H2. unfold parse_pagination, int_param. by rewrite H1, H2. Qed.

(** X9.  A [sort] parameter that is none of date, name, version, id_asc and
    id_desc (the empty string included) gives the response, and the backend
    call, of the request without a [sort] parameter. *)
Theorem unknown_sort_is_default
    (search : search_call → outcome (list doc)) (params : gmap string string)
    (s : string) :
  s ∉ sort_tokens →
  search_resources search (<["sort" := s]> params)
  = search_resources search (delete "sort" params).
Proof.
  intros Hs. unfold search_resources.
  rewrite !lookup_insert_ne, !lookup_delete_ne by done.
  rewrite lookup_insert_eq, lookup_delete_eq.
  rewrite (parse_pagination_ext (<["sort" := s]> params) (delete "sort" params))
    by (by rewrite lookup_insert_ne, lookup_delete_ne).
  rewrite (bool_decide_eq_false_2 (s ∈ sort_tokens)) by done.
  destruct (bool_decide (s ≠ EmptyString)) eqn:He; by rewrite ?He.
Qed.

Lemma unknown_sort_is_default_witness :
  search_resources fixed_backend {[ "sort" := "newest" ]}
  = search_resources fixed_backend ∅.
Proof.
  transitivity (search_resources fixed_backend (delete "sort" (∅ : gmap string string))).
  - apply (unknown_sort_is_default fixed_backend ∅ "newest").
    apply (bool_decide_unpack _). by vm_compute.
  - reflexivity.
Defined.

Lemma same_but_sort_insert q1 q2 field v :
  same_but_sort q1 q2 → same_but_sort (<[field := v]> q1) (<[field := v]> q2).
Proof.
  intros Hsame f Hf. destruct (decide (field = f)) as [->|Hne].
  - by rewrite !lookup_insert_eq.
  - rewrite !lookup_insert_ne by done. by apply Hsame.
Qed.

Lemma same_but_sort_insert_sort (q1 q2 : doc) v :
  same_but_sort q1 q2 → <["sort" := v]> q1 = <["sort" := v]> q2.
Proof.
  intros Hsame. apply map_eq. intros f. destruct (decide ("sort" = f)) as [<-|Hne].
  - by rewrite !lookup_insert_eq.
  - rewrite !lookup_insert_ne by done. by apply Hsame.
Qed.

Lemma parse_groups_sort gs : ∀ q1 q2,
  same_but_sort q1 q2 →
  match parse_groups gs q1, parse_groups gs q2 with
  | inl r1, inl r2 => r1 = r2
  | inr a, inr b =>
      same_but_sort a b
      ∧ ((∃ g, g ∈ gs ∧ g ≠ EmptyString ∧ clause_field g = "sort") → a = b)
  | _, _ => False
  end.
Proof.
  induction gs as [|g gs IH]; intros q1 q2 Hsame; simpl.
  { split; [done|]. by intros (g & ?%elem_of_nil & _). }
  case_bool_decide as Hg.
  { specialize (IH q1 q2 Hsame).
    destruct (parse_groups gs q1), (parse_groups gs q2); try done.
    destruct IH as [IH1 IH2]. split; [done|].
    intros (g' & [->|Hin]%elem_of_cons & Hne & Hf); [done|].
    apply IH2. by exists g'. }
  case_bool_decide; [done|].
  destruct (all_truthy _); simpl; [|done].
  destruct (decide (clause_field g = "sort")) as [Hsort|Hsort].
  - unfold clause_field in Hsort. rewrite Hsort.
    rewrite (same_but_sort_insert_sort q1 q2) by done.
    by destruct (parse_groups gs _).
  - match goal with
    | |- context [parse_groups gs (<[?f := ?v]> q1)] =>
        specialize (IH (<[f := v]> q1) (<[f := v]> q2)
                       (same_but_sort_insert q1 q2 f v Hsame))
    end.
    destruct (parse_groups gs (<[_ := _]> q1)), (parse_groups gs (<[_ := _]> q2));
      try done.
    destruct IH as [IH1 IH2]. split; [done|].
    intros (g' & [->|Hin]%elem_of_cons & Hne & Hf); [done|].
    apply IH2. by exists g'.
Qed.

(** X10.  When the must-include parameter holds a clause of field [sort],
    the [sort] parameter has no effect: two requests that differ only in
    their [sort] parameter get the same response and make the same backend
    call. *)
Theorem sort_clause_overrides
    (search : search_call → outcome (list doc)) (p1 p2 : gmap string string) :
  (∀ name, name ≠ "sort" → p1 !! name = p2 !! name) →
  (∃ clause, clause ∈ must_include_groups p1
             ∧ clause ≠ EmptyString ∧ clause_field clause = "sort") →
  search_resources search p1 = search_resources search p2.
Proof.
  intros Hagree (clause & Hin & Hne & Hfield). unfold search_resources.
  rewrite <- (Hagree "contains-str"), <- (Hagree "must-include") by done.
  rewrite <- (parse_pagination_ext p1 p2) by (by apply Hagree).
  destruct (parse_pagination p1) as [r|[page page_size]]; [done|].
  unfold must_include_groups in Hin. unfold parse_must_include.
  case_bool_decide as Hmi; [|by apply elem_of_nil in Hin].
  match goal with
  | |- context [parse_groups ?gs ?q1] =>
      match goal with
      | |- context [parse_groups gs ?q2] =>
          lazymatch q1 with
          | q2 => fail
          | _ => pose proof (parse_groups_sort gs q1 q2) as Hgs
          end
      end
  end.
  lapply Hgs.
  2:{ intros f Hf. destruct (decide ("query" = f)) as [<-|Hq].
      - by rewrite !lookup_insert_eq.
      - by rewrite !lookup_insert_ne, !lookup_singleton_ne by done. }
  clear Hgs. intros Hgs.
  destruct (parse_groups _ _) as [r1|a], (parse_groups _ _) as [r2|b];
    try done; [by subst|].
  destruct Hgs as [_ Heq]. by rewrite Heq by (by exists clause).
Qed.

Lemma sort_clause_overrides_witness :
  search_resources fixed_backend
    {[ "must-include" := "sort,date"; "sort" := "id_asc" ]}
  = search_resources fixed_backend {[ "must-include" := "sort,date" ]}.
Proof.
  apply sort_clause_overrides.
  - intros name Hname. destruct (decide ("must-include" = name)) as [<-|Hne].
    + reflexivity.
    + by rewrite lookup_insert_ne, !lookup_singleton_ne.
  - exists "sort,date". split_and!; [|done|reflexivity].
    apply (bool_decide_unpack _). by vm_compute.
Defined.

(** *** First occurrences *)

Lemma elem_of_distinct x l : x ∈ distinct l ↔ x ∈ l.
Proof.
  induction l as [|y l IH]; simpl; [done|].
  rewrite !elem_of_cons, list_elem_of_filter, IH.
  destruct (decide (x = y)); tauto.
Qed.

Lemma NoDup_distinct l : NoDup (distinct l).
Proof.
  induction l as [|y l IH]; simpl; [constructor|].
  apply NoDup_cons. split; [|by apply NoDup_filter].
  rewrite list_elem_of_filter. by intros [? _].
Qed.

Lemma distinct_snoc l x :
  distinct (l ++ [x]) = if decide (x ∈ l) then distinct l else distinct l ++ [x].
Proof.
  induction l as [|y l IH]; simpl; [done|]. rewrite IH.
  destruct (decide (x ∈ l)) as [Hin|Hout].
  - rewrite decide_True; [done|]. apply elem_of_cons. by right.
  - rewrite filter_app. destruct (decide (x = y)) as [->|Hne].
    + rewrite decide_True by (apply elem_of_cons; by left).
      rewrite filter_cons_False by (intros H; by apply H).
      by rewrite filter_nil, app_nil_r.
    + rewrite decide_False by (rewrite elem_of_cons; tauto).
      by rewrite filter_cons_True by done.
Qed.

Lemma filter_all {A} (P : A → Prop) `{!∀ x, Decision (P x)} (l : list A) :
  Forall P l → filter P l = l.
Proof.
  induction 1 as [|x l Hx Hl IH]; [done|].
  by rewrite filter_cons_True, IH.
Qed.

Lemma distinct_NoDup l : NoDup l → distinct l = l.
Proof.
  induction 1 as [|x l Hx Hnd IH]; simpl; [done|]. rewrite IH. f_equal.
  apply filter_all, Forall_forall. by intros y Hy ->.
Qed.

Lemma ids_in_order_snoc seen d :
  ids_in_order (seen ++ [d])
  = if truthy (get d "id")
    then if decide (get d "id" ∈ ids_in_order seen)
         then ids_in_order seen else ids_in_order seen ++ [get d "id"]
    else ids_in_order seen.
Proof.
  unfold ids_in_order, ids. rewrite fmap_app, filter_app. simpl.
  destruct (truthy (get d "id")) eqn:Ht.
  - rewrite filter_cons_True, filter_nil by done. rewrite distinct_snoc.
    destruct (decide (_ ∈ filter _ _)) as [Hin|Hout].
    + by rewrite decide_True by (by apply elem_of_distinct).
    + by rewrite decide_False by (by rewrite elem_of_distinct).
  - rewrite filter_cons_False, filter_nil by congruence. by rewrite app_nil_r.
Qed.

Lemma elem_of_ids_in_order k results :
  k ∈ ids_in_order results ↔ truthy k = true ∧ ∃ d, d ∈ results ∧ get d "id" = k.
Proof.
  unfold ids_in_order, ids.
  rewrite elem_of_distinct, list_elem_of_filter, list_elem_of_fmap.
  split.
  - intros [Ht (d & -> & Hd)]. split; [done|]. by exists d.
  - intros [Ht (d & Hd & <-)]. split; [done|]. by exists d.
Qed.

Lemma candidates_fresh k seen :
  truthy k = true → k ∉ ids_in_order seen → candidates k seen = [].
Proof.
  intros Ht Hout. apply elem_of_nil_inv. intros c [Hid Hc]%elem_of_candidates.
  apply Hout, elem_of_ids_in_order. split; [done|]. by exists c.
Qed.

Lemma hash_key_Ok v k : hash_key v = Ok k → k = v ∧ hashable v = true.
Proof. destruct v; simpl; by intros [= <-]. Qed.

Lemma hash_key_hashable v : hashable v = true → hash_key v = Ok v.
Proof. by destruct v. Qed.

(** *** [get_latest_versions] of [shared/utils.py] *)

Lemma first_newest_singleton version d : first_newest version d [d].
Proof.
  exists [], []. split_and!; [done| |]; by intros c ?%elem_of_nil.
Qed.

Lemma first_newest_keep version e l d :
  first_newest version e l → tuple_gt (version d) (version e) = false →
  first_newest version e (l ++ [d]).
Proof.
  intros (l1 & l2 & -> & H1 & H2) Hd.
  exists l1, (l2 ++ [d]). split_and!; [by rewrite <- app_assoc|done|].
  intros c [?| ->%list_elem_of_singleton]%elem_of_app; [by apply H2|done].
Qed.

Lemma first_newest_replace version e l d :
  first_newest version e l → tuple_gt (version d) (version e) = true →
  first_newest version d (l ++ [d]).
Proof.
  intros (l1 & l2 & -> & H1 & H2) Hd.
  exists (l1 ++ e :: l2), []. split_and!; [done| |by intros c ?%elem_of_nil].
  intros c [Hc|[->|Hc]%elem_of_cons]%elem_of_app; [|done|].
  - eapply tuple_gt_trans; [done|by apply H1].
  - eapply tuple_gt_le; [done|by apply H2].
Qed.

Lemma first_newest_elem version e l : first_newest version e l → e ∈ l.
Proof.
  intros (l1 & l2 & -> & _). apply elem_of_app. right. apply elem_of_cons. by left.
Qed.

Lemma first_newest_max version e l c :
  first_newest version e l → c ∈ l → tuple_le (version c) (version e).
Proof.
  intros (l1 & l2 & -> & H1 & H2) [Hc|[->|Hc]%elem_of_cons]%elem_of_app.
  - by apply tuple_gt_le_flip, H1.
  - apply tuple_le_refl.
  - by apply H2.
Qed.

Lemma selected_init : selected [] [].
Proof.
  split; [done| |]; by intros k e ?%elem_of_nil.
Qed.

Lemma selected_NoDup seen latest : selected seen latest → NoDup latest.*1.
Proof. intros [-> _ _]. apply NoDup_distinct. Qed.

Lemma selected_step seen latest d latest' :
  selected seen latest → SharedUtils.select latest d = Ok latest' →
  selected (seen ++ [d]) latest'.
Proof.
  intros Hinv Hstep. pose proof (selected_NoDup _ _ Hinv) as Hnd.
  destruct Hinv as [Hkeys Hkey Hlat]. unfold SharedUtils.select in Hstep.
  assert (∀ k, k ≠ get d "id" → candidates k (seen ++ [d]) = candidates k seen) as Hne.
  { intros k Hk. rewrite candidates_snoc, decide_False; [by rewrite app_nil_r|].
    by intros <-. }
  assert (candidates (get d "id") (seen ++ [d]) = candidates (get d "id") seen ++ [d])
    as Heq by (by rewrite candidates_snoc, decide_True).
  destruct (truthy (get d "id")) eqn:Ht; simpl in Hstep.
  2:{ injection Hstep as <-. split.
      - by rewrite ids_in_order_snoc, Ht.
      - done.
      - intros k e Hin. rewrite Hne; [by apply Hlat|].
        intros ->. destruct (Hkey _ _ Hin). congruence. }
  destruct (hash_key (get d "id")) as [k0|] eqn:Hh; simpl_outcome; [|done].
  apply hash_key_Ok in Hh as [-> _].
  destruct (od_get (get d "id") latest) as [e|] eqn:Hget.
  - apply od_get_Some in Hget as Hin.
    assert (get d "id" ∈ ids_in_order seen) as Hseen.
    { rewrite <- Hkeys. by apply (od_key_elem _ e). }
    destruct (tuple_gt _ _) eqn:Hgt; injection Hstep as <-.
    + split.
      * rewrite od_set_keys by (by apply (od_key_elem _ e)).
        by rewrite ids_in_order_snoc, Ht, decide_True.
      * intros k e' [[-> ->]|[_ He]]%elem_of_od_set; [done|by apply Hkey|done].
      * intros k e' [[-> ->]|[Hk He]]%elem_of_od_set; [| |done].
        -- rewrite Heq. by apply first_newest_replace with e; [apply Hlat|].
        -- rewrite Hne by done. by apply Hlat.
    + split.
      * by rewrite ids_in_order_snoc, Ht, decide_True.
      * done.
      * intros k e' Hin'. destruct (decide (k = get d "id")) as [->|Hk].
        -- rewrite (od_get_elem _ _ _ Hnd Hin') in Hget. injection Hget as ->.
           rewrite Heq. by apply first_newest_keep; [apply Hlat|].
        -- rewrite Hne by done. by apply Hlat.
  - injection Hstep as <-. apply od_get_None in Hget as Hout.
    rewrite od_set_fresh by done. split.
    + rewrite fmap_app, ids_in_order_snoc, Ht, decide_False; [by rewrite Hkeys|].
      by rewrite <- Hkeys.
    + intros k e [Hin|[= -> ->]%list_elem_of_singleton]%elem_of_app; [by apply Hkey|done].
    + intros k e [Hin|[= -> ->]%list_elem_of_singleton]%elem_of_app.
      * rewrite Hne; [by apply Hlat|]. intros ->. apply Hout. by apply (od_key_elem _ e).
      * rewrite Heq, candidates_fresh; [apply first_newest_singleton|done|].
        by rewrite <- Hkeys.
Qed.

Lemma selected_all rest : ∀ seen latest latest',
  selected seen latest → SharedUtils.select_all latest rest = Ok latest' →
  selected (seen ++ rest) latest'.
Proof.
  induction rest as [|d rest IH]; intros seen latest latest' Hinv; simpl.
  - intros [= <-]. by rewrite app_nil_r.
  - destruct (SharedUtils.select latest d) as [latest1|] eqn:Hstep; simpl_outcome; [|done].
    intros Hrest.
    rewrite (assoc_L (++) seen [d] rest : seen ++ d :: rest = (seen ++ [d]) ++ rest).
    eapply IH; [|done]. by apply selected_step with latest.
Qed.

Lemma select_total latest d :
  keyable d →
  ∃ latest', SharedUtils.select latest d = Ok latest'.
Proof.
  intros Hh. unfold SharedUtils.select, keyable in *.
  destruct (truthy (get d "id")); simpl; [|by eexists].
  rewrite hash_key_hashable by (by apply Hh). simpl_outcome.
  destruct (od_get _ _); [destruct (tuple_gt _ _)|]; by eexists.
Qed.

Lemma select_raises latest d :
  truthy (get d "id") = true → hashable (get d "id") = false →
  ∃ e, SharedUtils.select latest d = Raise e.
Proof.
  intros Ht Hh. unfold SharedUtils.select. rewrite Ht. simpl.
  destruct (get d "id"); try done. by eexists.
Qed.

Lemma select_all_total resources : ∀ latest,
  (∃ latest', SharedUtils.select_all latest resources = Ok latest')
  ↔ Forall keyable resources.
Proof.
  induction resources as [|d resources IH]; intros latest; simpl.
  { split; [constructor|by eexists]. }
  rewrite Forall_cons. split.
  - intros [latest' H].
    destruct (SharedUtils.select latest d) as [latest1|] eqn:Hstep; simpl_outcome; [|done].
    split; [|apply (IH latest1); by eexists].
    intros Ht. destruct (hashable (get d "id")) eqn:Hh; [done|].
    destruct (select_raises latest d Ht Hh) as [e He]. congruence.
  - intros [Hd Hrest]. destruct (select_total latest d Hd) as [latest1 ->].
    simpl_outcome. by apply IH.
Qed.

(** X11.  [get_latest_versions] raises exactly when the identifier of some
    resource is a non-empty list.  When it returns, the resources it returns
    carry the truthy identifiers of its argument, each once, in the order
    they first appear; each resource returned is one of the argument, and
    among the resources of its identifier it is the first of those with the
    greatest version. *)
Theorem get_latest_versions_selects (resources : list doc) :
  ((∃ out, SharedUtils.get_latest_versions resources = Ok out)
   ↔ Forall keyable resources)
  ∧ ∀ out, SharedUtils.get_latest_versions resources = Ok out →
      ids out = ids_in_order resources
      ∧ Forall (λ e, e ∈ resources
                     ∧ first_newest SharedUtils.resource_version e
                         (candidates (get e "id") resources)) out.
Proof.
  unfold SharedUtils.get_latest_versions. split.
  - rewrite <- (select_all_total resources []). split.
    + intros [out H]. destruct (SharedUtils.select_all [] resources); [by eexists|done].
    + intros [latest ->]. by eexists.
  - intros out H.
    destruct (SharedUtils.select_all [] resources) as [latest|] eqn:Hall;
      simpl_outcome; [|done].
    injection H as <-.
    pose proof (selected_all resources [] [] latest selected_init Hall) as Hinv.
    simpl in Hinv. destruct Hinv as [Hkeys Hkey Hlat]. split.
    + rewrite <- Hkeys. unfold ids. rewrite <- list_fmap_compose.
      apply list_fmap_ext. intros i [k e] Hi. simpl.
      apply (Hkey k e). by apply list_elem_of_lookup_2 in Hi.
    + apply Forall_fmap, Forall_forall. intros [k e] Hin. simpl.
      destruct (Hkey k e Hin) as [Hid _]. rewrite Hid.
      split; [|by apply Hlat].
      pose proof (first_newest_elem _ _ _ (Hlat k e Hin)) as He.
      by apply elem_of_candidates in He as [_ ?].
Qed.

Lemma get_latest_versions_selects_witness :
  ∃ out, SharedUtils.get_latest_versions interleaved = Ok out
         ∧ ids out = [VStr "R1"; VStr "R2"].
Proof.
  destruct (get_latest_versions_selects interleaved) as [[_ Hret] Hspec].
  destruct Hret as [out Hout].
  - repeat constructor.
  - exists out. split; [done|].
    etrans; [by apply Hspec|]. by vm_compute.
Defined.

(** *** The order and the fixed points of [keep_latest_versions] *)

Lemma consolidate_keys acc d acc' :
  consolidate acc d = Ok acc' →
  keyable d
  ∧ (latest_by_id acc').*1
    = if truthy (get d "id")
      then if decide (get d "id" ∈ (latest_by_id acc).*1)
           then (latest_by_id acc).*1 else (latest_by_id acc).*1 ++ [get d "id"]
      else (latest_by_id acc).*1.
Proof.
  unfold consolidate, keyable.
  destruct (truthy (get d "id")) eqn:Ht; simpl; [|by intros [= <-]].
  destruct (hash_key (get d "id")) as [k|] eqn:Hh; simpl_outcome; [|done].
  apply hash_key_Ok in Hh as [-> Hh].
  destruct (match max_score_by_id acc !! get d "id" with
            | Some m => max2 m (doc_score d)
            | None => Ok (doc_score d)
            end) as [score|]; [|done].
  intros [= <-]. simpl. split; [done|].
  destruct (od_get (get d "id") (latest_by_id acc)) as [e|] eqn:Hget.
  - apply od_get_Some, od_key_elem in Hget. rewrite decide_True by done.
    destruct (tuple_gt _ _); [by apply od_set_keys|done].
  - apply od_get_None in Hget. rewrite decide_False by done.
    by rewrite od_set_fresh, fmap_app.
Qed.

Lemma consolidate_all_keys rest : ∀ seen acc acc',
  (latest_by_id acc).*1 = ids_in_order seen →
  consolidate_all acc rest = Ok acc' →
  (latest_by_id acc').*1 = ids_in_order (seen ++ rest)
  ∧ Forall keyable rest.
Proof.
  induction rest as [|d rest IH]; intros seen acc acc' Hkeys; simpl.
  - intros [= <-]. by rewrite app_nil_r.
  - destruct (consolidate acc d) as [acc1|] eqn:Hstep; simpl_outcome; [|done].
    intros Hrest. apply consolidate_keys in Hstep as [Hh Hstep].
    rewrite (assoc_L (++) seen [d] rest : seen ++ d :: rest = (seen ++ [d]) ++ rest).
    destruct (IH (seen ++ [d]) acc1 acc') as [IH1 IH2]; [|done|].
    + by rewrite ids_in_order_snoc, <- Hkeys.
    + split; [done|]. by constructor.
Qed.

Lemma keep_latest_versions_unfold results out :
  keep_latest_versions results = Ok out →
  ∃ acc, consolidate_all {| latest_by_id := []; max_score_by_id := ∅ |} results = Ok acc
         ∧ consolidated results acc
         ∧ out = map (with_score (max_score_by_id acc)) (latest_by_id acc).
Proof.
  unfold keep_latest_versions. intros H.
  destruct (consolidate_all _ results) as [acc|] eqn:Hall; simpl_outcome; [|done].
  exists acc. split_and!; [done| |congruence].
  by apply (consolidated_all results [] _ acc consolidated_init).
Qed.

Lemma keep_latest_versions_order results out :
  keep_latest_versions results = Ok out →
  ids out = ids_in_order results ∧ Forall keyable results.
Proof.
  intros (acc & Hall & Hinv & ->)%keep_latest_versions_unfold.
  destruct (consolidate_all_keys results [] {| latest_by_id := []; max_score_by_id := ∅ |}
              acc eq_refl Hall) as [Hkeys Hh].
  simpl in Hkeys. split; [|done]. rewrite <- Hkeys.
  apply with_score_ids. intros k e Hin. by apply (cons_key _ _ Hinv).
Qed.

(** X12.  The documents that [keep_latest_versions] returns carry the
    truthy identifiers of its argument, each once, in the order they first
    appear: the place of an identifier is the place of its first document,
    also when a later document replaces it. *)
Theorem keep_latest_versions_first_seen (results out : list doc) :
  keep_latest_versions results = Ok out → ids out = ids_in_order results.
Proof. by intros [? _]%keep_latest_versions_order. Qed.

Lemma keep_latest_versions_first_seen_witness :
  ∃ out, keep_latest_versions interleaved = Ok out
         ∧ ids out = [VStr "R1"; VStr "R2"].
Proof.
  eexists. split; [by vm_compute|].
  etrans; [apply (keep_latest_versions_first_seen interleaved); by vm_compute|].
  by vm_compute.
Defined.

Lemma consolidate_all_settled l : ∀ acc,
  (∀ k, is_Some (max_score_by_id acc !! k) → k ∈ (latest_by_id acc).*1) →
  NoDup ((latest_by_id acc).*1 ++ ids l) →
  Forall (λ d, truthy (get d "id") = true ∧ hashable (get d "id") = true) l →
  ∃ acc', consolidate_all acc l = Ok acc'
    ∧ latest_by_id acc' = latest_by_id acc ++ ((λ d, (get d "id", d)) <$> l)
    ∧ (∀ d, d ∈ l → max_score_by_id acc' !! get d "id" = Some (doc_score d))
    ∧ (∀ k, k ∉ ids l → max_score_by_id acc' !! k = max_score_by_id acc !! k).
Proof.
  induction l as [|d l IH]; intros acc Hdom Hnd Hl; simpl.
  { exists acc. split_and!; [done|by rewrite app_nil_r| |done].
    by intros d ?%elem_of_nil. }
  apply Forall_cons in Hl as [[Ht Hh] Hl].
  apply NoDup_app in Hnd as (Hnd1 & Hdisj & [Hd Hnd2]%NoDup_cons).
  assert (get d "id" ∉ (latest_by_id acc).*1) as Hfresh.
  { intros Hin. apply (Hdisj _ Hin). apply elem_of_cons. by left. }
  assert (max_score_by_id acc !! get d "id" = None) as Hm.
  { destruct (max_score_by_id acc !! get d "id") eqn:E; [|done].
    exfalso. apply Hfresh, Hdom. by rewrite E. }
  unfold consolidate. rewrite Ht, (hash_key_hashable _ Hh). simpl_outcome.
  rewrite Hm. simpl_outcome.
  assert (od_get (get d "id") (latest_by_id acc) = None) as -> by (by apply od_get_None).
  rewrite od_set_fresh by done.
  destruct (IH {| latest_by_id := latest_by_id acc ++ [(get d "id", d)];
                  max_score_by_id := <[get d "id" := doc_score d]> (max_score_by_id acc) |})
    as (acc' & Hall & Hlat & Hsc & Hother); simpl.
  - intros k. rewrite fmap_app, elem_of_app. simpl.
    destruct (decide (get d "id" = k)) as [<-|Hne].
    + intros _. right. by apply list_elem_of_singleton.
    + rewrite lookup_insert_ne by done. intros ?%Hdom. by left.
  - rewrite fmap_app. apply NoDup_app. split_and!; [|intros k|exact Hnd2].
    + apply NoDup_app. split_and!; [done| |apply NoDup_singleton].
      by intros k Hk ->%list_elem_of_singleton.
    + intros [Hk| ->%list_elem_of_singleton]%elem_of_app; [|exact Hd].
      intros Hk'. apply (Hdisj k Hk). apply elem_of_cons. by right.
  - done.
  - exists acc'. split_and!; [done| | |].
    + rewrite Hlat. simpl. by rewrite <- app_assoc.
    + intros d' [->|Hd']%elem_of_cons; [|by apply Hsc].
      rewrite Hother by done. simpl. by rewrite lookup_insert_eq.
    + intros k [Hk1 Hk2]%not_elem_of_cons. rewrite Hother by done. simpl.
      by rewrite lookup_insert_ne.
Qed.

Lemma keep_latest_versions_settled l : settled l → keep_latest_versions l = Ok l.
Proof.
  intros [Hnd Hl]. unfold keep_latest_versions.
  destruct (consolidate_all_settled l {| latest_by_id := []; max_score_by_id := ∅ |})
    as (acc' & -> & Hlat & Hsc & _); simpl.
  - intros k [m H]. by rewrite lookup_empty in H.
  - done.
  - eapply Forall_impl; [exact Hl|]. by intros d (? & ? & _).
  - simpl_outcome. f_equal. rewrite Hlat. simpl.
    rewrite <- list_fmap_compose.
    transitivity (id <$> l); [|apply list_fmap_id].
    apply list_fmap_ext. intros i d Hi. apply list_elem_of_lookup_2 in Hi.
    unfold with_score. simpl. rewrite (Hsc d Hi). simpl.
    rewrite Forall_forall in Hl. destruct (Hl d Hi) as (_ & _ & [s Hs]).
    apply insert_id. unfold doc_score, get_or. by rewrite Hs.
Qed.

Lemma keep_latest_versions_gives_settled results out :
  keep_latest_versions results = Ok out → settled out.
Proof.
  intros H. pose proof (keep_latest_versions_order _ _ H) as [Hids Hkeyable].
  apply keep_latest_versions_unfold in H as (acc & _ & Hinv & ->).
  split; [rewrite Hids; apply NoDup_distinct|].
  apply Forall_forall. intros d Hd.
  assert (get d "id" ∈ ids_in_order results) as Hin.
  { rewrite <- Hids. apply list_elem_of_fmap. by exists d. }
  apply elem_of_ids_in_order in Hin as [Ht (d0 & Hd0 & Hid)].
  split_and!; [done| |].
  - rewrite Forall_forall in Hkeyable. rewrite <- Hid. apply Hkeyable; [done|].
    by rewrite Hid.
  - apply list_elem_of_fmap in Hd as ([k e] & -> & _).
    rewrite with_score_score. by eexists.
Qed.

(** X13.  [keep_latest_versions] returns its argument unchanged exactly
    when the identifiers of the documents are pairwise distinct, truthy and
    hashable and every document has a score; what it returns is such a list,
    so that consolidating a second time changes nothing. *)
Theorem keep_latest_versions_idempotent (l : list doc) :
  (keep_latest_versions l = Ok l ↔ settled l)
  ∧ ∀ results, keep_latest_versions results = Ok l → keep_latest_versions l = Ok l.
Proof.
  split; [split|].
  - apply keep_latest_versions_gives_settled.
  - apply keep_latest_versions_settled.
  - intros results H.
    by apply keep_latest_versions_settled, (keep_latest_versions_gives_settled results).
Qed.

Lemma keep_latest_versions_idempotent_witness :
  ∃ out, keep_latest_versions two_versions = Ok out
         ∧ keep_latest_versions out = Ok out.
Proof.
  eexists. split; [by vm_compute|].
  apply (proj2 (keep_latest_versions_idempotent _) two_versions). by vm_compute.
Defined.

(** ** [list_all_resources] *)

(** *** Splitting and joining *)

Lemma count_char_cons c x s :
  count_char c (String x s) = ((if Ascii.eqb x c then 1 else 0) + count_char c s)%nat.
Proof. reflexivity. Qed.

Lemma append_cons x (a b : string) : String x a +:+ b = String x (a +:+ b).
Proof. reflexivity. Qed.

Lemma append_nil_l (b : string) : EmptyString +:+ b = b.
Proof. reflexivity. Qed.

Lemma count_char_app c a b :
  count_char c (a +:+ b) = (count_char c a + count_char c b)%nat.
Proof.
  induction a as [|x a IH]; [done|].
  rewrite append_cons, !count_char_cons, IH. lia.
Qed.

Lemma length_split sep s : length (split sep s) = S (count_char sep s).
Proof.
  induction s as [|c s IH]; [done|]. rewrite split_cons, count_char_cons.
  destruct (Ascii.eqb c sep); [simpl; by rewrite IH|].
  destruct (split sep s) as [|w ws]; simpl in *; lia.
Qed.

Lemma join_cons sep x y l : join sep (x :: y :: l) = x +:+ sep +:+ join sep (y :: l).
Proof. reflexivity. Qed.

Lemma join_split sep s : join (String sep EmptyString) (split sep s) = s.
Proof.
  induction s as [|c s IH]; [done|]. rewrite split_cons.
  destruct (Ascii.eqb_spec c sep) as [->|Hne].
  - pose proof (split_nonempty sep s) as Hs.
    destruct (split sep s) as [|w ws]; [done|].
    rewrite join_cons, IH. reflexivity.
  - destruct (split sep s) as [|w ws]; [by rewrite <- IH|].
    destruct ws as [|w' ws].
    + simpl in *. by rewrite IH.
    + rewrite join_cons, append_cons. rewrite join_cons in IH. by rewrite IH.
Qed.

Lemma split_app_sep sep a b :
  split sep (a +:+ String sep b) = split sep a ++ split sep b.
Proof.
  induction a as [|c a IH].
  - rewrite append_nil_l, split_cons. by rewrite Ascii.eqb_refl.
  - rewrite append_cons, !split_cons, IH.
    destruct (Ascii.eqb c sep); [done|].
    pose proof (split_nonempty sep a) as Ha.
    by destruct (split sep a).
Qed.

Lemma join_app sep l1 l2 :
  l1 ≠ [] → l2 ≠ [] →
  join sep (l1 ++ l2) = join sep l1 +:+ sep +:+ join sep l2.
Proof.
  intros H1 H2. induction l1 as [|x l1 IH]; [done|].
  destruct l1 as [|y l1].
  - destruct l2 as [|z l2]; [done|]. reflexivity.
  - change ((x :: y :: l1) ++ l2) with (x :: y :: (l1 ++ l2)).
    rewrite !join_cons. change (y :: l1 ++ l2) with ((y :: l1) ++ l2).
    rewrite IH by done. by rewrite !append_assoc.
Qed.

Lemma count_char_join sep l :
  (length l - 1 ≤ count_char sep (join (String sep EmptyString) l))%nat.
Proof.
  induction l as [|x l IH]; [done|]. destruct l as [|y l]; [simpl; lia|].
  rewrite join_cons, !count_char_app. simpl length in *.
  rewrite count_char_cons, Ascii.eqb_refl. simpl count_char at 2. lia.
Qed.

Lemma take_split_app sep p r :
  take (length (split sep p)) (split sep (p +:+ String sep r)) = split sep p.
Proof. by rewrite split_app_sep, take_app_length. Qed.

(** *** The prefixes of a version *)

Lemma elem_of_version_prefixes v p :
  p ∈ ListAll.version_prefixes v ↔
  ∃ i, (2 ≤ i ≤ length (split "." v))%nat ∧ p = join "." (take i (split "." v)).
Proof.
  unfold ListAll.version_prefixes. rewrite list_elem_of_fmap. split.
  - intros (i & -> & Hi%elem_of_seq). exists i. split; [lia|done].
  - intros (i & Hi & ->). exists i. split; [done|]. apply elem_of_seq. lia.
Qed.

Lemma version_prefixes_spec v p :
  p ∈ ListAll.version_prefixes v ↔
  (1 ≤ count_char "." p)%nat ∧ (p = v ∨ ∃ r, v = p +:+ String "." r).
Proof.
  rewrite elem_of_version_prefixes. split.
  - intros (i & Hi & ->). split.
    + pose proof (count_char_join "." (take i (split "." v))) as Hc.
      rewrite length_take in Hc. lia.
    + destruct (decide (i = length (split "." v))) as [->|Hne].
      * left. by rewrite firstn_all, join_split.
      * right. exists (join "." (drop i (split "." v))).
        rewrite <- (join_split "." v) at 1.
        rewrite <- (take_drop i (split "." v)) at 1.
        rewrite join_app; [done| |].
        -- intros Hnil. apply (f_equal length) in Hnil.
           rewrite length_take in Hnil. simpl in Hnil. lia.
        -- intros Hnil. apply (f_equal length) in Hnil.
           rewrite length_drop in Hnil. simpl in Hnil. lia.
  - intros [Hdots Hv]. exists (length (split "." p)).
    rewrite length_split. destruct Hv as [->|[r ->]].
    + rewrite length_split. split; [lia|].
      rewrite <- length_split. by rewrite firstn_all, join_split.
    + rewrite split_app_sep, length_app, !length_split. split; [lia|].
      rewrite <- length_split. by rewrite take_app_length, join_split.
Qed.

(** X14.  A string is among the prefixes the listing handler queries for a
    version exactly when it holds a dot and is the version itself or the
    version cut just before one of its dots; the prefixes are as many as the
    dots of the version, so there is none exactly when the version has no
    dot. *)
Theorem version_prefixes_cuts (v : string) :
  (∀ p, p ∈ ListAll.version_prefixes v ↔
        (1 ≤ count_char "." p)%nat ∧ (p = v ∨ ∃ r, v = p +:+ String "." r))
  ∧ length (ListAll.version_prefixes v) = count_char "." v
  ∧ (ListAll.version_prefixes v = [] ↔ count_char "." v = 0%nat).
Proof.
  assert (length (ListAll.version_prefixes v) = count_char "." v) as Hlen.
  { unfold ListAll.version_prefixes. rewrite length_map, length_seq, length_split. lia. }
  split_and!; [apply version_prefixes_spec|done|].
  rewrite <- Hlen. split; [by intros ->|apply nil_length_inv].
Qed.

Lemma version_prefixes_cuts_witness :
  "25.0" ∈ ListAll.version_prefixes "25.0.0.1"
  ∧ length (ListAll.version_prefixes "25.0.0.1") = 3%nat.
Proof.
  destruct (version_prefixes_cuts "25.0.0.1") as (Hspec & Hlen & _).
  split; [|exact Hlen].
  apply Hspec. split; [simpl; lia|]. right. by exists "0.1".
Defined.

(** *** The handler *)





(** ** Escaping *)

Lemma well_escaped_escape c s :
  well_escaped (String backslash (String c s)) = reserved c && well_escaped s.
Proof. reflexivity. Qed.

Lemma well_escaped_plain c s :
  Ascii.eqb c backslash = false →
  well_escaped (String c s) = negb (reserved c) && well_escaped s.
Proof.
  intros Hc. change (well_escaped (String c s))
    with (if Ascii.eqb c backslash
          then match s with
               | String c' s'' => reserved c' && well_escaped s''
               | EmptyString => false
               end
          else negb (reserved c) && well_escaped s).
  by rewrite Hc.
Qed.

Lemma reserved_backslash : reserved backslash = true.
Proof. by vm_compute. Qed.

Lemma not_reserved_not_backslash c : reserved c = false → Ascii.eqb c backslash = false.
Proof.
  intros Hc. destruct (Ascii.eqb_spec c backslash) as [->|]; [|done].
  by rewrite reserved_backslash in Hc.
Qed.

Lemma escape_with_well_escaped s : well_escaped (escape_with reserved s) = true.
Proof.
  induction s as [|x s IH]; [done|]. rewrite escape_with_cons.
  destruct (reserved x) eqn:Hx.
  - by rewrite well_escaped_escape, Hx, IH.
  - by rewrite well_escaped_plain, Hx, IH by (by apply not_reserved_not_backslash).
Qed.

Lemma escape_with_inj a : ∀ b,
  escape_with reserved a = escape_with reserved b → a = b.
Proof.
  induction a as [|x a IH]; intros [|y b].
  - done.
  - rewrite escape_with_cons. by destruct (reserved y).
  - rewrite escape_with_cons. by destruct (reserved x).
  - rewrite !escape_with_cons.
    destruct (reserved x) eqn:Hx, (reserved y) eqn:Hy.
    + intros [= -> H]. f_equal. by apply IH.
    + intros [= <- _]. by rewrite reserved_backslash in Hy.
    + intros [= -> _]. by rewrite reserved_backslash in Hx.
    + intros [= -> H]. f_equal. by apply IH.
Qed.

Lemma escape_with_length s :
  String.length (escape_with reserved s)
  = (String.length s + String.length (str_filter reserved s))%nat.
Proof.
  induction s as [|x s IH]; [done|]. rewrite escape_with_cons. simpl str_filter.
  destruct (reserved x); simpl String.length; rewrite IH; lia.
Qed.

Lemma str_filter_empty p s :
  str_filter p s = EmptyString ↔ str_forall (λ c, negb (p c)) s = true.
Proof.
  induction s as [|x s IH]; [done|]. simpl. destruct (p x); simpl; [|done].
  split; done.
Qed.

Lemma escape_with_id s :
  escape_with reserved s = s ↔ str_forall (λ c, negb (reserved c)) s = true.
Proof.
  split.
  - intros H. apply str_filter_empty. apply (f_equal String.length) in H.
    rewrite escape_with_length in H.
    destruct (str_filter reserved s); [done|simpl in H; lia].
  - induction s as [|x s IH]; [done|]. simpl str_forall.
    intros [Hx Hs]%andb_true_iff. rewrite escape_with_cons.
    apply negb_true_iff in Hx. rewrite Hx. f_equal. by apply IH.
Qed.

(** X16.  What [escape_lucene_query] returns is well escaped: every
    backslash in it is followed by a reserved character and no reserved
    character stands without a backslash before it.  Escaping loses nothing
    (two queries with the same escaped text are equal), it adds one character
    for each reserved character of the query, and it returns the query as it
    is exactly when the query holds no reserved character. *)
Theorem escape_lucene_query_safe :
  (∀ s, well_escaped (escape_lucene_query s) = true)
  ∧ (∀ a b, escape_lucene_query a = escape_lucene_query b → a = b)
  ∧ (∀ s, String.length (escape_lucene_query s)
          = (String.length s + String.length (str_filter reserved s))%nat)
  ∧ (∀ s, escape_lucene_query s = s ↔ str_forall (λ c, negb (reserved c)) s = true).
Proof.
  split_and!; intros s; [| intros b |..]; rewrite !escape_lucene_query_chars.
  - apply escape_with_well_escaped.
  - apply escape_with_inj.
  - apply escape_with_length.
  - apply escape_with_id.
Qed.

Lemma escape_lucene_query_safe_witness : escape_lucene_query "x86_64" = "x86_64".
Proof.
  destruct escape_lucene_query_safe as (_ & _ & _ & Hid).
  apply Hid. reflexivity.
Defined.

(** ** The search text *)

Lemma tokens_cons c s :
  tokens (String c s)
  = let '(w, ws) := tokens s in
    if is_space c then (EmptyString, cons_word w ws) else (String c w, ws).
Proof. reflexivity. Qed.

Lemma split_ws_nil s : split_ws s = [] ↔ str_forall is_space s = true.
Proof.
  unfold split_ws. induction s as [|c s IH]; [done|].
  rewrite tokens_cons. simpl str_forall. destruct (tokens s) as [w ws].
  destruct (is_space c); simpl; [exact IH|]. split; done.
Qed.

Lemma term_clause_head t : ∃ r, term_clause t = String "(" r.
Proof. by eexists. Qed.

Lemma join_clauses_head sep (f : string → string) (ts : list string) :
  ts ≠ [] → ∃ r, join sep (map (λ t, term_clause (f t)) ts) = String "(" r.
Proof.
  destruct ts as [|t ts]; [done|]. intros _.
  destruct (term_clause_head (f t)) as [r Hr]. destruct ts as [|t' ts].
  - by exists r.
  - change (map (λ t, term_clause (f t)) (t :: t' :: ts))
      with (term_clause (f t) :: term_clause (f t')
              :: map (λ t, term_clause (f t)) ts).
    rewrite join_cons, Hr. by eexists.
Qed.

(** X17.  The search text is the match-all [*] only for the empty phrase,
    and only then is the query type simple.  For a phrase that is not empty
    the text starts with an opening parenthesis, except when the phrase
    consists of white space only: the handler then sends the empty text under
    the full query type. *)
Theorem build_search_text_shape (contains_str : string) :
  ((build_search_text contains_str).1 = "*" ↔ contains_str = "")
  ∧ ((build_search_text contains_str).2 = Simple ↔ contains_str = "")
  ∧ ((build_search_text contains_str).1 = ""
     ↔ contains_str ≠ "" ∧ str_forall is_space contains_str = true)
  ∧ (str_forall is_space contains_str = false →
     ∃ r, (build_search_text contains_str).1 = String "(" r).
Proof.
  unfold build_search_text. case_bool_decide as Hne; simpl.
  - destruct (decide (split_ws contains_str = [])) as [Hnil|Hcons].
    + rewrite Hnil. simpl. apply split_ws_nil in Hnil. split_and!; try done.
      intros Hs. congruence.
    + destruct (join_clauses_head " AND " escape_lucene_query _ Hcons) as [r ->].
      assert (str_forall is_space contains_str ≠ true) as Hs
        by (by rewrite <- split_ws_nil).
      split_and!; try done.
      * split; [done|]. by intros [_ ?].
      * intros _. by exists r.
  - assert (contains_str = "") as -> by (by destruct (decide (contains_str = ""))).
    split_and!; try done. split; [done|]. by intros [? _].
Qed.

Lemma build_search_text_shape_witness :
  (build_search_text (sanitize_contains_str (strip "^ ^"))).1 = "".
Proof.
  apply build_search_text_shape. split; [by vm_compute|reflexivity].
Defined.

(** ** The backend call *)

Lemma same_but_sort_filters q1 q2 : same_but_sort q1 q2 → same_filters q1 q2.
Proof.
  intros Hsame field Hf. apply Hsame. intros ->.
  unfold filter_fields in Hf. rewrite !elem_of_cons, elem_of_nil in Hf.
  by destruct Hf as [?|[?|[?|[?|[]]]]].
Qed.

Lemma parse_must_include_sort mi q1 q2 :
  same_but_sort q1 q2 →
  match parse_must_include mi q1, parse_must_include mi q2 with
  | inl r1, inl r2 => r1 = r2
  | inr a, inr b => same_but_sort a b
  | _, _ => False
  end.
Proof.
  intros Hsame. unfold parse_must_include. case_bool_decide as Hmi; [|done].
  pose proof (parse_groups_sort (split ";" mi) q1 q2 Hsame) as Hg.
  destruct (parse_groups _ q1), (parse_groups _ q2); try done. by destruct Hg.
Qed.

Lemma initial_query_same_but_sort (contains_str s1 s2 : string) :
  same_but_sort ({[ "query" := VStr contains_str; "sort" := VStr s1 ]} : doc)
                ({[ "query" := VStr contains_str; "sort" := VStr s2 ]} : doc).
Proof.
  intros f Hf. destruct (decide ("query" = f)) as [<-|Hq].
  - by rewrite !lookup_insert_eq.
  - by rewrite !lookup_insert_ne, !lookup_singleton_ne by done.
Qed.

(** X18.  The call to the search backend is determined by the [contains-str]
    and [must-include] parameters alone: two requests that agree on them and
    reach the backend make the same call, whatever their page, page size and
    sort parameters, so every page of a search is cut out of the results of
    one and the same query. *)
Theorem backend_call_fixed
    (search1 search2 : search_call → outcome (list doc))
    (p1 p2 : gmap string string) (call1 call2 : search_call) :
  p1 !! "contains-str" = p2 !! "contains-str" →
  p1 !! "must-include" = p2 !! "must-include" →
  (search_resources search1 p1).2 = [call1] →
  (search_resources search2 p2).2 = [call2] →
  call1 = call2.
Proof.
  intros Hc Hm. unfold search_resources. rewrite <- Hc, <- Hm.
  destruct (parse_pagination p1) as [r1|[page1 size1]]; [done|].
  destruct (parse_pagination p2) as [r2|[page2 size2]]; [done|].
  match goal with
  | |- context [parse_must_include ?mi ({[ "query" := VStr ?c; "sort" := VStr ?s1 ]})] =>
      match goal with
      | |- _ → (match parse_must_include _ ({[ "query" := _; "sort" := VStr ?s2 ]})
                with _ => _ end).2 = _ → _ =>
          pose proof (parse_must_include_sort mi _ _
                        (initial_query_same_but_sort c s1 s2)) as Hq
      end
  end.
  destruct (parse_must_include _ _) as [e1|q1]; [done|].
  destruct (parse_must_include _ _) as [e2|q2]; [done|].
  apply same_but_sort_filters, build_odata_filter_same in Hq. rewrite <- Hq.
  destruct (build_odata_filter q1) as [odata_filter|]; [|done].
  destruct (build_search_text _) as [text qtype].
  destruct (_ ≫= _), (_ ≫= _); simpl; congruence.
Qed.

Lemma backend_call_fixed_witness :
  ∃ call,
    (search_resources fixed_backend {[ "contains-str" := "riscv"; "page" := "1" ]}).2
    = [call]
    ∧ (search_resources fixed_backend
         {[ "contains-str" := "riscv"; "page" := "2"; "sort" := "date" ]}).2
      = [call].
Proof.
  assert (∃ call1,
            (search_resources fixed_backend
               {[ "contains-str" := "riscv"; "page" := "1" ]}).2 = [call1])
    as [call1 H1] by (eexists; by vm_compute).
  assert (∃ call2,
            (search_resources fixed_backend
               {[ "contains-str" := "riscv"; "page" := "2"; "sort" := "date" ]}).2
            = [call2])
    as [call2 H2] by (eexists; by vm_compute).
  exists call1. split; [exact H1|]. rewrite H2. f_equal. symmetry.
  by apply (backend_call_fixed fixed_backend fixed_backend
              {[ "contains-str" := "riscv"; "page" := "1" ]}
              {[ "contains-str" := "riscv"; "page" := "2"; "sort" := "date" ]}).
Defined.

(** ** The two consolidation functions *)

Lemma versioned_versions d :
  versioned d → doc_version d = SharedUtils.resource_version d.
Proof.
  unfold versioned, parses, doc_version, SharedUtils.resource_version,
    parse_version, SharedUtils.parse_version, get, get_or.
  destruct (d !! "resource_version") as [[| |s|]|]; simpl; try done.
  intros [l Hl]%bool_decide_eq_true. by rewrite Hl.
Qed.

Lemma od_set_elem k v d k' v' : (k', v') ∈ od_set k v d → v' = v ∨ (k', v') ∈ d.
Proof.
  induction d as [|[k1 v1] d IH]; simpl.
  - intros [= -> ->]%list_elem_of_singleton. by left.
  - case_decide as Hk.
    + intros [[= -> ->]|Hin]%elem_of_cons; [by left|]. right. apply elem_of_cons. by right.
    + intros [[= -> ->]|Hin]%elem_of_cons.
      * right. apply elem_of_cons. by left.
      * destruct (IH Hin) as [->|Hd]; [by left|]. right. apply elem_of_cons. by right.
Qed.

Lemma consolidate_select acc d acc' :
  (∀ k e, (k, e) ∈ latest_by_id acc → versioned e) → versioned d →
  consolidate acc d = Ok acc' →
  SharedUtils.select (latest_by_id acc) d = Ok (latest_by_id acc')
  ∧ ∀ k e, (k, e) ∈ latest_by_id acc' → versioned e.
Proof.
  intros Hacc Hd. unfold consolidate, SharedUtils.select.
  destruct (truthy (get d "id")); simpl; [|by intros [= <-]].
  destruct (hash_key (get d "id")) as [k0|]; simpl_outcome; [|done].
  destruct (match max_score_by_id acc !! k0 with
            | Some m => max2 m (doc_score d)
            | None => Ok (doc_score d)
            end) as [score|]; [|done].
  intros [= <-]. simpl. rewrite <- (versioned_versions d Hd).
  destruct (od_get k0 (latest_by_id acc)) as [existing|] eqn:Hget.
  - apply od_get_Some in Hget.
    rewrite <- (versioned_versions existing (Hacc _ _ Hget)).
    destruct (tuple_gt _ _); split; try done.
    intros k e [->|Hin]%od_set_elem; [done|by apply (Hacc k)].
  - split; [done|]. intros k e [->|Hin]%od_set_elem; [done|by apply (Hacc k)].
Qed.

Lemma consolidate_all_select results : ∀ acc acc',
  (∀ k e, (k, e) ∈ latest_by_id acc → versioned e) → Forall versioned results →
  consolidate_all acc results = Ok acc' →
  SharedUtils.select_all (latest_by_id acc) results = Ok (latest_by_id acc').
Proof.
  induction results as [|d results IH]; intros acc acc' Hacc Hall; simpl.
  - by intros [= <-].
  - apply Forall_cons in Hall as [Hd Hall].
    destruct (consolidate acc d) as [acc1|] eqn:Hstep; simpl_outcome; [|done].
    destruct (consolidate_select acc d acc1 Hacc Hd Hstep) as [-> Hacc1].
    simpl_outcome. by apply IH.
Qed.

Lemma with_score_rescored maxs (l : list (value * doc)) :
  Forall2 rescored (map (with_score maxs) l) l.*2.
Proof.
  induction l as [|[k e] l IH]; [constructor|].
  constructor; [|exact IH]. by eexists.
Qed.

(** X19.  On documents whose version strings all parse, the two
    consolidation functions agree: whenever [keep_latest_versions] of the
    search handler returns, [get_latest_versions] of the shared utilities
    returns as many documents, and each document of the first is the
    document of the second at the same place, with its score overwritten. *)
Theorem latest_versions_agree (results out : list doc) :
  Forall versioned results →
  keep_latest_versions results = Ok out →
  ∃ selection, SharedUtils.get_latest_versions results = Ok selection
               ∧ Forall2 rescored out selection.
Proof.
  intros Hall (acc & Hcons & _ & ->)%keep_latest_versions_unfold.
  unfold SharedUtils.get_latest_versions.
  pose proof (consolidate_all_select results
                {| latest_by_id := []; max_score_by_id := ∅ |} acc) as Hsel.
  simpl in Hsel. rewrite Hsel; [|by intros k e ?%elem_of_nil|done|done].
  simpl_outcome. eexists. split; [done|]. apply with_score_rescored.
Qed.

Lemma latest_versions_agree_witness :
  ∃ selection, SharedUtils.get_latest_versions interleaved = Ok selection
               ∧ length selection = 2%nat.
Proof.
  destruct (latest_versions_agree interleaved
              [<["score" := VInt 1]> (mk_doc "R1" "2.0.0" 1);
               <["score" := VInt 1]> (mk_doc "R2" "1.0.0" 1)])
    as (selection & Hsel & Hout).
  - repeat constructor.
  - by vm_compute.
  - exists selection. split; [done|]. by apply Forall2_length in Hout.
Defined.

(** ** Sorting twice *)

Lemma insert_sorted_head x l : HdRel pair_le x l → insert_sorted x l = Ok (x :: l).
Proof.
  destruct 1 as [|y l Hxy]; simpl; [done|].
  unfold pair_le, key_le in Hxy. by rewrite Hxy.
Qed.

Lemma stable_sort_Sorted_id l : Sorted pair_le l → stable_sort l = Ok l.
Proof.
  induction 1 as [|x l Hs IH Hhd]; simpl; [done|].
  rewrite IH. simpl_outcome. by apply insert_sorted_head.
Qed.

Lemma mapM_decorate_fmap key (l : list (value * doc)) :
  Forall (λ p, key p.2 = Ok p.1) l → mapM (decorate key) l.*2 = Ok l.
Proof.
  induction 1 as [|[k d] l Hp Hl IH]; [done|]. csimpl. simpl in Hp.
  assert (decorate key d = Ok (k, d)) as -> by (unfold decorate; by rewrite Hp).
  simpl_outcome. by rewrite IH.
Qed.

Lemma sorted_keyed key descending (s : list (value * doc)) :
  Forall (λ p, key p.2 = Ok p.1) s → Sorted pair_le s →
  sorted key descending (if descending then reverse s else s).*2
  = Ok (if descending then reverse s else s).*2.
Proof.
  intros Hs Hsorted. unfold sorted. destruct descending.
  - rewrite mapM_decorate_fmap by (by rewrite reverse_Permutation).
    change ((s' ← stable_sort (reverse (reverse s)); Ok (reverse s').*2)
            = Ok (reverse s).*2).
    by rewrite reverse_involutive, (stable_sort_Sorted_id s Hsorted).
  - rewrite mapM_decorate_fmap by done.
    change ((s' ← stable_sort s; Ok s'.*2) = Ok s.*2).
    by rewrite (stable_sort_Sorted_id s Hsorted).
Qed.

Lemma sorted_idempotent key descending results out :
  sorted key descending results = Ok out → sorted key descending out = Ok out.
Proof.
  intros H.
  assert (∃ s, Forall (λ p, key p.2 = Ok p.1) s ∧ Sorted pair_le s
               ∧ out = (if descending then reverse s else s).*2)
    as (s & Hs & Hsorted & ->); [|by apply sorted_keyed].
  unfold sorted in H.
  destruct (mapM (decorate key) results) as [keyed|] eqn:Hkeyed; simpl_outcome; [|done].
  destruct (mapM_decorate _ _ _ Hkeyed) as [_ Hkeys].
  destruct (stable_sort _) as [s|] eqn:Hsort; simpl_outcome; [|done].
  injection H as <-. exists s.
  pose proof (stable_sort_perm _ _ Hsort) as Hperm.
  split_and!; [|by apply (stable_sort_Sorted _ _ Hsort)|done].
  rewrite Hperm. destruct descending; [by rewrite reverse_Permutation|done].
Qed.

(** X20.  Sorting is idempotent: what [apply_sorting] returns is returned
    unchanged when it is sorted again by the same parameter. *)
Theorem apply_sorting_idempotent (results out : list doc) (sort_param : value) :
  apply_sorting results sort_param = Ok out →
  apply_sorting out sort_param = Ok out.
Proof.
  rewrite !apply_sorting_policy_eq. apply sorted_idempotent.
Qed.

Lemma apply_sorting_idempotent_witness :
  ∃ out, apply_sorting mixed_case_ids (VStr "id_desc") = Ok out
         ∧ apply_sorting out (VStr "id_desc") = Ok out.
Proof.
  eexists. split; [by vm_compute|].
  apply (apply_sorting_idempotent mixed_case_ids). by vm_compute.
Defined.

(** ** The pages of a ranking *)

Lemma paginate_take_drop (l : list doc) (n : nat) (page_size : Z) :
  1 ≤ page_size →
  paginate l (Z.of_nat (1 + n)) page_size
  = take (Z.to_nat page_size) (drop (n * Z.to_nat page_size) l).
Proof.
  intros Hs. unfold paginate. rewrite slice_take_drop by nia.
  assert (Z.to_nat ((Z.of_nat (1 + n) - 1) * page_size) = (n * Z.to_nat page_size)%nat)
    as -> by (rewrite Z2Nat.inj_mul by lia; f_equal; lia).
  f_equal. lia.
Qed.

(** X21.  The pages of a ranking follow one another without gap or overlap:
    for a page size of at least 1, the pages 1 to [n] put end to end are the
    first [n] times [page_size] documents of the ranked sequence. *)
Theorem pages_concat (sorted_resources : list doc) (page_size : Z) (n : nat) :
  1 ≤ page_size →
  concat (map (λ page, paginate sorted_resources (Z.of_nat page) page_size) (seq 1 n))
  = take (n * Z.to_nat page_size) sorted_resources.
Proof.
  intros Hs. induction n as [|n IH]; [done|].
  rewrite seq_S, map_app, concat_app, IH. simpl concat. rewrite app_nil_r.
  rewrite paginate_take_drop by done. rewrite take_take_drop. f_equal. lia.
Qed.

Lemma pages_concat_witness :
  paginate interleaved 1 2 ++ paginate interleaved 2 2 = interleaved.
Proof.
  transitivity (concat (map (λ page, paginate interleaved (Z.of_nat page) 2) (seq 1 2))).
  - by rewrite <- (app_nil_r (paginate interleaved 2 2)).
  - rewrite (pages_concat interleaved 2 2) by lia. reflexivity.
Defined.

(** ** Clauses of one field *)

Lemma same_but_insert f q1 q2 field v :
  same_but f q1 q2 → same_but f (<[field := v]> q1) (<[field := v]> q2).
Proof.
  intros Hsame g Hg. destruct (decide (field = g)) as [->|Hne].
  - by rewrite !lookup_insert_eq.
  - rewrite !lookup_insert_ne by done. by apply Hsame.
Qed.

Lemma same_but_insert_eq f (q1 q2 : doc) v :
  same_but f q1 q2 → <[f := v]> q1 = <[f := v]> q2.
Proof.
  intros Hsame. apply map_eq. intros g. destruct (decide (f = g)) as [<-|Hne].
  - by rewrite !lookup_insert_eq.
  - rewrite !lookup_insert_ne by done. by apply Hsame.
Qed.

Lemma parse_groups_override f gs : ∀ q1 q2,
  same_but f q1 q2 →
  (∃ g, g ∈ gs ∧ g ≠ EmptyString ∧ clause_field g = f) →
  parse_groups gs q1 = parse_groups gs q2.
Proof.
  induction gs as [|g gs IH]; intros q1 q2 Hsame Hex; simpl.
  { by destruct Hex as (g & ?%elem_of_nil & _). }
  case_bool_decide as Hg.
  { apply IH; [done|]. destruct Hex as (g' & [->|Hin]%elem_of_cons & Hne & Hf); [done|].
    by exists g'. }
  case_bool_decide; [done|].
  destruct (all_truthy _); simpl; [|done].
  destruct (decide (clause_field g = f)) as [Hf|Hf].
  - unfold clause_field in Hf. rewrite Hf.
    by rewrite (same_but_insert_eq f q1 q2).
  - apply IH; [by apply same_but_insert|].
    destruct Hex as (g' & [->|Hin]%elem_of_cons & Hne & Hf'); [done|]. by exists g'.
Qed.

(** X22.  Of two must-include clauses that name the same field only the
    later one counts: a clause that is well formed can be taken out of the
    list of clauses without changing what the loop returns, the query object
    or the error response, when a later clause that is not empty names its
    field. *)
Theorem later_clause_overrides (gs1 gs2 : list string) (clause : string) (q : doc) :
  well_formed_clause clause →
  (∃ later, later ∈ gs2 ∧ later ≠ EmptyString
            ∧ clause_field later = clause_field clause) →
  parse_groups (gs1 ++ clause :: gs2) q = parse_groups (gs1 ++ gs2) q.
Proof.
  intros Hwf Hlater. rewrite !parse_groups_app.
  destruct (parse_groups gs1 q) as [r|q']; [done|].
  destruct (parse_groups_well_formed clause gs2 q' Hwf) as [values ->].
  apply (parse_groups_override (clause_field clause)); [|done].
  intros field Hfield. by rewrite lookup_insert_ne.
Qed.

Lemma later_clause_overrides_witness :
  parse_groups ["category,workload"; "tags,a"; "category,binary"] ∅
  = parse_groups ["tags,a"; "category,binary"] ∅.
Proof.
  apply (later_clause_overrides [] ["tags,a"; "category,binary"] "category,workload" ∅).
  - split_and!; [done|simpl; lia|].
    intros v Hv. apply (bool_decide_unpack _). revert v Hv.
    apply Forall_forall. by repeat constructor.
  - exists "category,binary". split_and!; [|done|reflexivity].
    apply (bool_decide_unpack _). by vm_compute.
Defined.

(** ** Ties and totals *)

Lemma ids_with_score (results : list doc) (f : doc → value) :
  ids (map (λ result, <["score" := f result]> result) results) = ids results.
Proof.
  unfold ids. rewrite <- list_fmap_compose. apply list_fmap_ext.
  intros i d _. simpl. unfold get, get_or. by rewrite lookup_insert_ne.
Qed.

Lemma ranked_inv results sort_param out :
  ranked results sort_param = Ok out →
  ∃ unique,
    ids unique = ids_in_order results
    ∧ sorted_by (policy sort_param).1 (policy sort_param).2 out unique.
Proof.
  unfold ranked.
  destruct (keep_latest_versions _) as [unique|] eqn:Hkeep; simpl_outcome; [|done].
  intros Hsort. exists unique. split.
  - apply keep_latest_versions_order in Hkeep as [-> _].
    unfold ids_in_order. by rewrite ids_with_score.
  - rewrite apply_sorting_policy_eq in Hsort. by apply sorted_spec.
Qed.

(** X23.  Ties of the ranking are broken by the order of the backend: in
    the ranked sequence, the documents of one and the same sort key stand in
    the order in which their identifiers first appear among the raw
    documents; and the ranked sequence has one document for each distinct
    truthy identifier of the raw documents. *)
Theorem ranked_ties (results out : list doc) (sort_param : value) :
  ranked results sort_param = Ok out →
  (∀ k, ids (filter (λ d, (policy sort_param).1 d = Ok k) out)
        `sublist_of` ids_in_order results)
  ∧ ids out ≡ₚ ids_in_order results.
Proof.
  intros (unique & Hids & Hperm & _ & _ & Hstable)%ranked_inv. split.
  - intros k. rewrite Hstable, <- Hids. apply fmap_sublist, sublist_filter.
  - rewrite <- Hids. unfold ids. by rewrite Hperm.
Qed.

Lemma ranked_ties_witness :
  ∃ out, ranked interleaved (VStr "date") = Ok out
         ∧ ids out ≡ₚ [VStr "R1"; VStr "R2"].
Proof.
  assert (ranked interleaved (VStr "date")
          = Ok [<["score" := VInt 0]> (mk_doc "R1" "2.0.0" 1);
                <["score" := VInt 0]> (mk_doc "R2" "1.0.0" 1)]) as H
    by (by vm_compute).
  eexists. split; [exact H|]. exact (proj2 (ranked_ties _ _ _ H)).
Defined.

(** X24.  The total count of a response of status 200 is the number of
    distinct truthy identifiers among the raw documents the backend
    returned, whatever the page, the page size and the sort parameter. *)
Theorem total_count_distinct_ids
    (search : search_call → outcome (list doc)) (params : gmap string string) :
  status_code (search_resources search params).1 = 200 →
  ∃ call results,
    (search_resources search params).2 = [call]
    ∧ search call = Ok results
    ∧ total_count_of (search_resources search params).1
      = Some (length (ids_in_order results)).
Proof.
  destruct (search_resources_cases search params)
    as [[message ->]|(page & page_size & sort_value & call
                      & _ & _ & _ & _ & _ & ->)]; [done|].
  destruct (search call) as [results|e] eqn:Hcall; simpl_outcome; [|done].
  destruct (render results sort_value page page_size) as [r|] eqn:Hr; simpl; [|done].
  intros _. apply render_inv in Hr as (sorted_resources & Hranked & ->).
  exists call, results. split_and!; [done|done|].
  apply ranked_inv in Hranked as (unique & Hids & Hperm & _).
  unfold total_count_of. simpl. f_equal.
  rewrite <- Hids. unfold ids. by rewrite length_fmap, Hperm.
Qed.

Lemma total_count_distinct_ids_witness :
  ∃ call results,
    (search_resources fixed_backend {[ "page-size" := "1" ]}).2 = [call]
    ∧ fixed_backend call = Ok results
    ∧ total_count_of (search_resources fixed_backend {[ "page-size" := "1" ]}).1
      = Some (length (ids_in_order results)).
Proof.
  apply (total_count_distinct_ids fixed_backend {[ "page-size" := "1" ]}).
  reflexivity.
Defined.
